(** * maze.cpp: random maze generation and path search

    A shallow embedding of [Generate] and [Solve] from [maze.cpp], with the
    union-find class [EqClass] that [Generate] declares locally, and the
    properties of the two functions. [Draw] and [main] only print and
    parse; they are not part of the embedding, and neither is the
    statistic that [Generate] prints before it returns.

    Conventions of the embedding.
    - C++ [int] is [Z]; the arithmetic of the program ([x+1], [y-1],
      [Width-1], the two counters) is used far from the ends of the [int]
      range, and is written without overflow.
    - [std::vector<std::vector<T>>] is [list (list T)], indexed by a
      position [(y, x)]; an access outside the vector is undefined behaviour
      in C++ and yields [None] here, which the callers turn into [Fault].
      So do a division by zero and a [resize] by a negative count.
    - An [EqClass*] points into [pos2ec]; it is the position of the object
      it points to.
    - [rand()] reads the next element of a stream [rng : nat -> Z]; the
      seed is the stream.
    - The two loops take a fuel argument and answer [OutOfFuel] when it
      runs out; the recursion of [find_rep] is given as much fuel as there
      are objects, plus one, which is shown to be enough. *)

From stdpp Require Import base numbers option list gmap.

Local Open Scope Z_scope.

(** ** Data model *)

Record Adjacency := mkAdjacency { to_east : bool; to_south : bool }.

(** The constructor [Adjacency()]: all walls are up. *)
Definition Adjacency_init : Adjacency :=
  {| to_east := false; to_south := false |}.

Abbreviation Pos := (Z * Z)%type (only parsing).       (* y, x *)
Abbreviation Path := (list (Z * Z)) (only parsing).
Abbreviation Connections := (list (list Adjacency)) (only parsing).
Abbreviation Mask := (gset (Z * Z)) (only parsing).

Inductive outcome (A : Type) : Type :=
| Returned (a : A)
| OutOfFuel
| Fault.
Arguments Returned {A} a.
Arguments OutOfFuel {A}.
Arguments Fault {A}.

(** ** Two-dimensional vectors *)

Section Grid.
Context {A : Type}.

(** [g[y][x]], read. *)
Definition at2 (g : list (list A)) (p : Pos) : option A :=
  if bool_decide (0 ≤ p.1 ∧ 0 ≤ p.2)
  then row ← g !! Z.to_nat p.1; row !! Z.to_nat p.2
  else None.

(** [g[y][x] = v]. *)
Definition set2 (g : list (list A)) (p : Pos) (v : A)
  : option (list (list A)) :=
  match at2 g p with
  | Some _ => Some (alter (λ row, <[Z.to_nat p.2 := v]> row) (Z.to_nat p.1) g)
  | None => None
  end.

(** [g.resize(h); for (auto &row : g) row.resize(w);] on an empty [g]. *)
Definition resize2 (h w : Z) (v : A) : list (list A) :=
  replicate (Z.to_nat h) (replicate (Z.to_nat w) v).
End Grid.

(** The cells of a [Height]*[Width] maze. *)
Definition in_bounds (Width Height : Z) (p : Pos) : Prop :=
  (0 ≤ p.1 < Height) ∧ (0 ≤ p.2 < Width).

Definition cells (Width Height : Z) : list Pos :=
  y ← seqZ 0 Height; x ← seqZ 0 Width; [(y, x)].

(** A [Height]*[Width] matrix. *)
Definition rect {A} (Width Height : Z) (g : list (list A)) : Prop :=
  Z.of_nat (length g) = Height ∧
  Forall (λ row, Z.of_nat (length row) = Width) g.

(** ** The edges of a connectivity matrix *)

Inductive Dir := East | South.

Definition neighbor (d : Dir) (p : Pos) : Pos :=
  match d with
  | East => (p.1, p.2 + 1)
  | South => (p.1 + 1, p.2)
  end.

Definition flag (d : Dir) (a : Adjacency) : bool :=
  match d with East => to_east a | South => to_south a end.

Definition raise_flag (d : Dir) (a : Adjacency) : Adjacency :=
  match d with
  | East => {| to_east := true; to_south := to_south a |}
  | South => {| to_east := to_east a; to_south := true |}
  end.

(** ** Union-find: [class EqClass] *)

Record EqClass := mkEqClass { rep : Pos }.

Module EqClass.

(** [find_rep]: follow [rep] to the representative, and on the way back
    point every object that was visited at it. *)
Fixpoint find_rep (fuel : nat) (ecs : list (list EqClass)) (this : Pos)
  : option (list (list EqClass) * Pos) :=
  match fuel with
  | O => None
  | S fuel' =>
      e ← at2 ecs this;
      if decide (rep e ≠ this)
      then '(ecs', r) ← find_rep fuel' ecs (rep e);
           ecs'' ← set2 ecs' this {| rep := r |};
           Some (ecs'', r)
      else Some (ecs, rep e)
  end.

(** A chain of [rep] pointers that does not come back on itself visits
    every object at most once: one more than the number of objects is
    fuel enough. *)
Definition find (ecs : list (list EqClass)) (this : Pos) :=
  find_rep (S (length (concat ecs))) ecs this.

Definition merge (ecs : list (list EqClass)) (this other : Pos)
  : option (list (list EqClass)) :=
  '(ecs1, r1) ← find ecs this;
  '(ecs2, r2) ← find ecs1 other;
  if decide (r1 ≠ r2) then set2 ecs2 r2 {| rep := r1 |} else Some ecs2.

(** [operator==]. C++ leaves open which operand of [==] is evaluated
    first; here it is the left one. Both searches only redirect objects
    to the representative they already have. *)
Definition eq (ecs : list (list EqClass)) (this other : Pos)
  : option (list (list EqClass) * bool) :=
  '(ecs1, r1) ← find ecs this;
  '(ecs2, r2) ← find ecs1 other;
  Some (ecs2, bool_decide (r1 = r2)).

(** [operator!=]. *)
Definition neq (ecs : list (list EqClass)) (this other : Pos)
  : option (list (list EqClass) * bool) :=
  '(ecs', b) ← eq ecs this other; Some (ecs', negb b).

(** [pos2ec] after the two [resize] loops: every object is its own
    representative. *)
Definition init (h w : Z) : list (list EqClass) :=
  imap (λ y row, imap (λ x _, {| rep := (Z.of_nat y, Z.of_nat x) |}) row)
       (resize2 h w tt).

(** What the pointers mean: [root_of ecs p r] when the chain of [rep]
    pointers from [p] ends in [r], an object that is its own [rep]. *)
Inductive root_of (ecs : list (list EqClass)) : Pos → Pos → Prop :=
| root_here p :
    at2 ecs p = Some {| rep := p |} → root_of ecs p p
| root_up p q r :
    at2 ecs p = Some {| rep := q |} → q ≠ p → root_of ecs q r →
    root_of ecs p r.

Definition parent (ecs : list (list EqClass)) (p q : Pos) : Prop :=
  at2 ecs p = Some {| rep := q |} ∧ q ≠ p.

Definition same_class (ecs : list (list EqClass)) (p q : Pos) : Prop :=
  ∃ r, root_of ecs p r ∧ root_of ecs q r.

Definition roots_preserved (ecs ecs' : list (list EqClass)) : Prop :=
  ∀ p r, root_of ecs p r → root_of ecs' p r.

Definition well_formed (Width Height : Z) (ecs : list (list EqClass))
  : Prop :=
  rect Width Height ecs ∧
  ∀ p, in_bounds Width Height p → ∃ r, root_of ecs p r.

End EqClass.

(** [a % b] of C++: truncated, undefined for [b = 0]. *)
Definition c_rem (a b : Z) : option Z :=
  if decide (b = 0) then None else Some (Z.rem a b).

(** ** Generate *)

Record GenState := mkGenState {
  adj_out : Connections;
  pos2ec : list (list EqClass);
  drawn : nat;                      (* how many times rand() was called *)
  total_iterations : Z;
  productive_iterations : Z
}.

Inductive flow := Continue (s : GenState) | Break (s : GenState).

Section Generate.
Variable rng : nat → Z.
Variables Width Height : Z.
Variables sx sy fx fy : Z.
Variable mask : Mask.

Definition rand (s : GenState) : Z * GenState :=
  (rng (drawn s),
   {| adj_out := adj_out s; pos2ec := pos2ec s; drawn := S (drawn s);
      total_iterations := total_iterations s;
      productive_iterations := productive_iterations s |}).

Definition with_pos2ec (s : GenState) (ecs : list (list EqClass)) :=
  {| adj_out := adj_out s; pos2ec := ecs; drawn := drawn s;
     total_iterations := total_iterations s;
     productive_iterations := productive_iterations s |}.

(** The body shared by the two branches, from the mask test on: [p] is
    [Pos(y,x)], [d] the side of [p] on which the wall stands. *)
Definition knock (d : Dir) (p : Pos) (s : GenState) : option flow :=
  if bool_decide (p ∈ mask) then Some (Continue s) else
  a ← at2 (adj_out s) p;
  if flag d a then Some (Continue s) else
  '(ecs, same) ← EqClass.eq (pos2ec s) p (neighbor d p);
  if (same : bool) then Some (Continue (with_pos2ec s ecs)) else
  adj' ← set2 (adj_out s) p (raise_flag d a);
  ecs' ← EqClass.merge ecs p (neighbor d p);
  '(ecs'', joined) ← EqClass.eq ecs' (sy, sx) (fy, fx);
  let s' := {| adj_out := adj'; pos2ec := ecs''; drawn := drawn s;
               total_iterations := total_iterations s;
               productive_iterations := productive_iterations s + 1 |} in
  Some (if (joined : bool) then Break s' else Continue s').

(** One pass through the body of [for(;; ++total_iterations)]. *)
Definition iteration (s : GenState) : option flow :=
  let '(r, s) := rand s in
  if decide (Z.rem r 2 = 0) then
    let '(rx, s) := rand s in
    x ← c_rem rx (Width - 1);
    let '(ry, s) := rand s in
    y ← c_rem ry Height;
    knock East (y, x) s
  else
    let '(rx, s) := rand s in
    x ← c_rem rx Width;
    let '(ry, s) := rand s in
    y ← c_rem ry (Height - 1);
    knock South (y, x) s.

Definition next_iteration (s : GenState) : GenState :=
  {| adj_out := adj_out s; pos2ec := pos2ec s; drawn := drawn s;
     total_iterations := total_iterations s + 1;
     productive_iterations := productive_iterations s |}.

Fixpoint Generate_loop (fuel : nat) (s : GenState) : outcome GenState :=
  match fuel with
  | O => OutOfFuel
  | S fuel' =>
      match iteration s with
      | None => Fault
      | Some (Break s') => Returned s'
      | Some (Continue s') => Generate_loop fuel' (next_iteration s')
      end
  end.

(** [resize] with a negative count throws [std::length_error]. *)
Definition Generate_init : option GenState :=
  if decide (Height < 0 ∨ (0 < Height ∧ Width < 0)) then None else
  Some {| adj_out := resize2 Height Width Adjacency_init;
          pos2ec := EqClass.init Height Width;
          drawn := 0;
          total_iterations := 0;
          productive_iterations := 0 |}.

Definition Generate_run (fuel : nat) : outcome GenState :=
  match Generate_init with
  | None => Fault
  | Some s => Generate_loop fuel s
  end.

(** The out-parameter [adj_out] when [Generate] returns. *)
Definition Generate (fuel : nat) : outcome Connections :=
  match Generate_run fuel with
  | Returned s => Returned (adj_out s)
  | OutOfFuel => OutOfFuel
  | Fault => Fault
  end.
End Generate.

(** The state in which an iteration ends, and whether it ends the loop. *)
Definition flow_state (fl : flow) : GenState :=
  match fl with Continue s => s | Break s => s end.

Definition is_break (fl : flow) : bool :=
  match fl with Continue _ => false | Break _ => true end.

(** The states in which [Generate] can be at the top of its loop. *)
Inductive loop_head (rng : nat → Z) (Width Height sx sy fx fy : Z)
    (mask : Mask) : GenState → Prop :=
| head_first s :
    Generate_init Width Height = Some s →
    loop_head rng Width Height sx sy fx fy mask s
| head_next s s' :
    loop_head rng Width Height sx sy fx fy mask s →
    iteration rng Width Height sx sy fx fy mask s = Some (Continue s') →
    loop_head rng Width Height sx sy fx fy mask (next_iteration s').

(** ** Solve *)

(** [v.back()] together with [v.pop_back()]. *)
Fixpoint pop_back {A} (v : list A) : option (list A * A) :=
  match v with
  | [] => None
  | [a] => Some ([], a)
  | a :: v' => '(r, b) ← pop_back v'; Some (a :: r, b)
  end.

Section Solve.
Variable adj : Connections.
Variables Width Height : Z.
Variables sx sy fx fy : Z.

(** The lambda [step]. *)
Definition step (fringe : list Path) (some_path : Path) (p2 : Pos)
  : list Path :=
  if bool_decide (p2 ∈ some_path) then fringe
  else fringe ++ [some_path ++ [p2]].

(** [if (guard && adj[q.first][q.second].<flag d>) step(some_path, p2)];
    [&&] does not evaluate its right operand when [guard] is false. *)
Definition try_step (guard : bool) (q : Pos) (d : Dir)
    (some_path : Path) (p2 : Pos) (fringe : list Path)
  : option (list Path) :=
  if guard then
    a ← at2 adj q;
    Some (if flag d a then step fringe some_path p2 else fringe)
  else Some fringe.

(** The four neighbour tests at the end of the loop body. *)
Definition expand (some_path : Path) (p1 : Pos) (fringe : list Path)
  : option (list Path) :=
  let p2 := (p1.1 - 1, p1.2) in                    (* North *)
  fringe ← try_step (bool_decide (0 ≤ p2.1)) p2 South some_path p2 fringe;
  let p2 := (p1.1, p1.2 + 1) in                    (* East *)
  fringe ← try_step (bool_decide (p2.2 < Width)) p1 East some_path p2 fringe;
  let p2 := (p1.1 + 1, p1.2) in                    (* South *)
  fringe ← try_step (bool_decide (p2.1 < Height)) p1 South some_path p2 fringe;
  let p2 := (p1.1, p1.2 - 1) in                    (* West *)
  try_step (bool_decide (0 ≤ p2.2)) p2 East some_path p2 fringe.

(** [while (!fringe.empty()) ...; return false;] with the current value of
    [path_out]; the result is the returned flag and [path_out]. *)
Fixpoint Solve_loop (fuel : nat) (fringe : list Path) (path_out : Path)
  : outcome (bool * Path) :=
  match fuel with
  | O => OutOfFuel
  | S fuel' =>
      match pop_back fringe with
      | None => Returned (false, path_out)
      | Some (fringe, some_path) =>
          match pop_back some_path with
          | None => Fault
          | Some (_, p1) =>
              if bool_decide (p1.1 = fy ∧ p1.2 = fx)
              then Returned (true, some_path)
              else match expand some_path p1 fringe with
                   | None => Fault
                   | Some fringe => Solve_loop fuel' fringe path_out
                   end
          end
      end
  end.

Definition Solve (fuel : nat) (path_out : Path) : outcome (bool * Path) :=
  Solve_loop fuel [[(sy, sx)]] path_out.
End Solve.

(** ** The graph of open walls *)

(** The wall on side [d] of cell [p] is down. *)
Definition wall_open (adj : Connections) (d : Dir) (p : Pos) : Prop :=
  ∃ a, at2 adj p = Some a ∧ flag d a = true.

(** [q] is the neighbour of [p] on side [d], both are cells of the maze,
    and the wall between them is down. *)
Definition arc (adj : Connections) (Width Height : Z) (d : Dir) (p q : Pos)
  : Prop :=
  in_bounds Width Height p ∧ in_bounds Width Height q ∧
  q = neighbor d p ∧ wall_open adj d p.

(** One step through an open wall, in either direction. *)
Definition edge (adj : Connections) (Width Height : Z) (p q : Pos) : Prop :=
  ∃ d, arc adj Width Height d p q ∨ arc adj Width Height d q p.

(** Every two consecutive elements of [l] are related by [E]. *)
Fixpoint chain {V} (E : V → V → Prop) (l : list V) : Prop :=
  match l with
  | a :: t => match t with b :: _ => E a b ∧ chain E t | [] => True end
  | [] => True
  end.

Definition joins {V} (l : list V) (a b : V) : Prop :=
  head l = Some a ∧ last l = Some b.

Definition simple_path {V} (E : V → V → Prop) (l : list V) : Prop :=
  NoDup l ∧ chain E l.

(** A forest: two simple paths with the same ends are the same path. *)
Definition acyclic {V} (E : V → V → Prop) : Prop :=
  ∀ l1 l2 a b, simple_path E l1 → simple_path E l2 →
               joins l1 a b → joins l2 a b → l1 = l2.

(** [E] with one more undirected edge between [u] and [v]. *)
Definition add_edge {V} (E : V → V → Prop) (u v : V) : V → V → Prop :=
  λ a b, E a b ∨ (a = u ∧ b = v) ∨ (a = v ∧ b = u).

(** [l] goes from [x] to [y] in one step in its middle, and follows [E]
    before and after. *)
Definition crosses {V} (E : V → V → Prop) (x y : V) (l : list V) : Prop :=
  ∃ A B, l = A ++ x :: y :: B ∧ chain E (A ++ [x]) ∧ chain E (y :: B).

Definition open_path (adj : Connections) (Width Height : Z) (l : Path)
  : Prop := chain (edge adj Width Height) l.

Definition connected (adj : Connections) (Width Height : Z) (p q : Pos)
  : Prop := ∃ l, joins l p q ∧ open_path adj Width Height l.

(** The number of walls that are down. *)
Definition wall_openb (adj : Connections) (Width Height : Z)
    (d : Dir) (p : Pos) : bool :=
  bool_decide (in_bounds Width Height (neighbor d p)) &&
  match at2 adj p with Some a => flag d a | None => false end.

Definition open_walls (adj : Connections) (Width Height : Z) : nat :=
  length (filter (λ p, wall_openb adj Width Height East p = true)
                 (cells Width Height)) +
  length (filter (λ p, wall_openb adj Width Height South p = true)
                 (cells Width Height)).


(** ** What [Generate] maintains *)

(** The connectivity matrix and the union-find structure agree, and the
    open walls form a forest inside the maze. *)
Record coherent (Width Height : Z) (adj : Connections)
    (ecs : list (list EqClass)) : Prop := mkCoherent {
  coh_adj : rect Width Height adj;
  coh_ecs : EqClass.well_formed Width Height ecs;
  coh_classes : ∀ p q,
    in_bounds Width Height p → in_bounds Width Height q →
    (EqClass.same_class ecs p q ↔ connected adj Width Height p q);
  coh_forest : acyclic (edge adj Width Height);
  coh_inside : ∀ p a d,
    at2 adj p = Some a → flag d a = true →
    in_bounds Width Height (neighbor d p)
}.

(** An iteration that leaves the walls as they are. *)
Definition skipped (s : GenState) (fl : flow) : Prop :=
  is_break fl = false ∧ adj_out (flow_state fl) = adj_out s.

(** An iteration that removes the wall on side [d] of [p]. *)
Definition wall_removed (Width Height sx sy fx fy : Z) (mask : Mask)
    (d : Dir) (p : Pos) (s : GenState) (fl : flow) : Prop :=
  ∃ a, (p ∉ mask) ∧
       at2 (adj_out s) p = Some a ∧ flag d a = false ∧
       set2 (adj_out s) p (raise_flag d a) = Some (adj_out (flow_state fl)) ∧
       in_bounds Width Height p ∧ in_bounds Width Height (neighbor d p) ∧
       ¬ EqClass.same_class (pos2ec s) p (neighbor d p) ∧
       ¬ connected (adj_out s) Width Height p (neighbor d p) ∧
       in_bounds Width Height (sy, sx) ∧ in_bounds Width Height (fy, fx) ∧
       (is_break fl = true ↔
        connected (adj_out (flow_state fl)) Width Height (sy, sx) (fy, fx)).

(** ** What [Solve] maintains *)

(** A path of the fringe: it starts at the start cell, does not visit a
    cell twice, and goes through open walls only. *)
Definition good_path (adj : Connections) (Width Height sx sy : Z)
    (path : Path) : Prop :=
  head path = Some (sy, sx) ∧ simple_path (edge adj Width Height) path.

(** The number of cells that a path has not visited, and a bound on the
    number of iterations that the paths of the fringe can still cause. *)
Definition free (Width Height : Z) (path : Path) : nat :=
  length (filter (λ c, c ∉ path) (cells Width Height)).

Definition weight (Width Height : Z) (path : Path) : nat :=
  5 ^ free Width Height path.

Definition fringe_weight (Width Height : Z) (fringe : list Path) : nat :=
  sum_list_with (weight Width Height) fringe.

(** Two cells next to each other in a row or in a column. *)
Definition cardinal_step (p q : Pos) : Prop :=
  Z.abs (p.1 - q.1) + Z.abs (p.2 - q.2) = 1.

(** ** Fixed inputs for the examples *)

(** A random sequence: the numbers of [l], then zeros. *)
Definition rng_of (l : list Z) : nat → Z := λ i, default 0 (l !! i).

Definition open_cell (e s : bool) : Adjacency :=
  {| to_east := e; to_south := s |}.

(** A 2*2 maze in which (1,0) is walled in:
<<
    S   .
    # # .
    #   E
>> *)
Definition maze_two_walls : Connections :=
  [[open_cell true false; open_cell false true];
   [open_cell false false; open_cell false false]].

(** A 2*2 maze with all walls up. *)
Definition maze_no_walls : Connections :=
  [[open_cell false false; open_cell false false];
   [open_cell false false; open_cell false false]].

(** A 2*2 maze with three walls removed. *)
Definition maze_three_walls : Connections :=
  [[open_cell true false; open_cell false true];
   [open_cell true false; open_cell false false]].

(** The cell (0,1) is masked, and the wall on its west side is down. *)
Definition mask_east_cell : Mask := {[ (0, 1) ]}.

Definition maze_into_east_cell : Connections :=
  [[open_cell true true; open_cell false false];
   [open_cell true false; open_cell false false]].

(** The cell (1,0) is masked, and the wall on its north side is down. *)
Definition mask_south_cell : Mask := {[ (1, 0) ]}.

Definition maze_into_south_cell : Connections :=
  [[open_cell true true; open_cell false true];
   [open_cell false false; open_cell false false]].

(** ** Masks that cut the maze in two *)

(** A step between two neighbouring cells of the maze, neither of them
    masked. *)
Definition unmasked_step (mask : Mask) (Width Height : Z) (p q : Pos)
  : Prop :=
  in_bounds Width Height p ∧ in_bounds Width Height q ∧
  cardinal_step p q ∧ (p ∉ mask) ∧ (q ∉ mask).

(** No path through unmasked cells leads from [p] to [q]. *)
Definition mask_separates (mask : Mask) (Width Height : Z) (p q : Pos)
  : Prop :=
  ¬ ∃ l, joins l p q ∧ chain (unmasked_step mask Width Height) l.

(** A wall that [Generate] can remove: it stands on the east or south side
    of an unmasked cell [p], between [p] and its neighbour [q]. *)
Definition removable (mask : Mask) (Width Height : Z) (p q : Pos) : Prop :=
  ∃ d, in_bounds Width Height p ∧ in_bounds Width Height q ∧
       q = neighbor d p ∧ (p ∉ mask).

(** A step through a wall that [Generate] can remove, in either
    direction. *)
Definition removable_step (mask : Mask) (Width Height : Z) (p q : Pos)
  : Prop :=
  removable mask Width Height p q ∨ removable mask Width Height q p.

(** A 2*2 maze in which both neighbours of the finish (1,1) are masked. *)
Definition mask_around_finish : Mask := {[ (0, 1); (1, 0) ]}.

(** A maze of two columns and four rows; the masked cells (1,0) and (2,1)
    cut the top-left corner from the bottom-right one:
<<
    S .
    # .
    . #
    . E
>> *)
Definition mask_diagonal : Mask := {[ (1, 0); (2, 1) ]}.

Definition rng_diagonal : nat → Z :=
  rng_of [0; 0; 0;  1; 1; 0;  1; 1; 1;  0; 0; 2;  1; 0; 2;  0; 0; 3].

Definition maze_diagonal : Connections :=
  [[open_cell true false; open_cell false true];
   [open_cell false false; open_cell false true];
   [open_cell true true; open_cell false false];
   [open_cell true false; open_cell false false]].

(** ** Draw *)

(** The characters that [Draw] prints: the solid block, the space, the
    letters S and E, the dot, and the end of a line. *)
Inductive glyph := Block | Space | LetterS | LetterE | Dot | Newline.

Global Instance glyph_eq_dec : EqDecision glyph.
Proof. solve_decision. Defined.

Section Draw.
Variable adj : Connections.
Variable path : Path.
Variable mask : Mask.
Variables Width Height : Z.
Variables sx sy fx fy : Z.

(** The chain of tests that prints the cell [(y, x)]. *)
Definition draw_cell (y x : Z) : glyph :=
  if bool_decide (x = sx ∧ y = sy) then LetterS
  else if bool_decide (x = fx ∧ y = fy) then LetterE
  else if bool_decide ((y, x) ∈ path) then Dot
  else if bool_decide ((y, x) ∈ mask) then Block
  else Space.

(** [if (x+1 >= Width || !adj[y][x].to_east) printf("█"); else
    printf(" ");] *)
Definition draw_east (y x : Z) : option glyph :=
  if bool_decide (Width ≤ x + 1) then Some Block
  else a ← at2 adj (y, x); Some (if to_east a then Space else Block).

(** [if (y+1 >= Height || !adj[y][x].to_south) printf("██"); else
    printf(" █");] *)
Definition draw_south (y x : Z) : option (list glyph) :=
  if bool_decide (Height ≤ y + 1) then Some [Block; Block]
  else a ← at2 adj (y, x);
       Some (if to_south a then [Space; Block] else [Block; Block]).

(** The body of [for (int y = 0; y < Height; ++y)]: the line of the cells
    of row [y], then the line of the walls below them. *)
Definition draw_row (y : Z) : option (list glyph) :=
  cells ← mapM (λ x, e ← draw_east y x; Some [draw_cell y x; e])
               (seqZ 0 Width);
  walls ← mapM (draw_south y) (seqZ 0 Width);
  Some ([Block] ++ concat cells ++ [Newline; Block] ++ concat walls
        ++ [Newline]).

(** What [Draw] writes to the standard output; [None] when it reads
    outside [adj]. *)
Definition Draw : option (list glyph) :=
  rows ← mapM draw_row (seqZ 0 Height);
  Some (replicate (Z.to_nat (2 * Width + 1)) Block ++ [Newline]
        ++ concat rows).

(** *** The picture, line by line *)

(** The glyph between the cell [(y, x)] and its east neighbour. *)
Definition east_glyph (y x : Z) : glyph :=
  if wall_openb adj Width Height East (y, x) then Space else Block.

(** The glyph between the cell [(y, x)] and its south neighbour. *)
Definition south_glyph (y x : Z) : glyph :=
  if wall_openb adj Width Height South (y, x) then Space else Block.

Definition cell_line (y : Z) : list glyph :=
  Block :: (x ← seqZ 0 Width; [draw_cell y x; east_glyph y x]).

Definition wall_line (y : Z) : list glyph :=
  Block :: (x ← seqZ 0 Width; [south_glyph y x; Block]).

Definition picture : list (list glyph) :=
  replicate (Z.to_nat (2 * Width + 1)) Block ::
  (y ← seqZ 0 Height; [cell_line y; wall_line y]).
End Draw.

(** The lines of a picture, each followed by the end of a line. *)
Definition unlines (pic : list (list glyph)) : list glyph :=
  l ← pic; l ++ [Newline].

(** The lines of an output: each [Newline] ends one. *)
Fixpoint lines (out : list glyph) : list (list glyph) :=
  match out with
  | [] => []
  | Newline :: t => [] :: lines t
  | g :: t =>
      match lines t with
      | l :: ls => (g :: l) :: ls
      | [] => [[g]]
      end
  end.

(** The glyph in line [r], column [c] of a picture. *)
Definition glyph_at (pic : list (list glyph)) (r c : Z) : option glyph :=
  at2 pic (r, c).

(** The glyph that appears in line [r], column [c] of the terminal when
    [out] is printed; lines and columns count from 0. *)
Definition printed_at (out : option (list glyph)) (r c : Z) : option glyph :=
  o ← out; glyph_at (lines o) r c.

(** ** The counters of Generate *)

Global Instance EqClass_eq_dec : EqDecision EqClass.
Proof. solve_decision. Defined.

(** The objects of [pos2ec] that are their own representative. *)
Definition is_root (ecs : list (list EqClass)) (p : Pos) : Prop :=
  at2 ecs p = Some {| rep := p |}.

Global Instance is_root_dec ecs p : Decision (is_root ecs p).
Proof. unfold is_root. apply _. Defined.

Definition roots (Width Height : Z) (ecs : list (list EqClass)) : nat :=
  length (filter (is_root ecs) (cells Width Height)).

(** ** main *)

Section Main.
(** [PBM_BLACK] of [pbm.h], which is not among the sources. *)
Variable PBM_BLACK : Z.

(** The two loops that fill the mask from the rows [b] of the image. *)
Definition mask_of_bits (b : list (list Z)) (Width Height : Z)
  : option Mask :=
  bits ← mapM (λ p, v ← at2 b p; Some (p, v)) (cells Width Height);
  Some (list_to_set (fst <$> filter (λ pv, PBM_BLACK = pv.2) bits)).

(** The mask that [main] passes on: [image] is what [pbm_readpbm] gave
    ([cols], [rows] and the bits), or [None] when no image was named or
    none could be read. An image of another size is not used. *)
Definition load_mask (image : option (Z * Z * list (list Z)))
    (Width Height : Z) : option Mask :=
  match image with
  | None => Some ∅
  | Some (cols, rows, b) =>
      if bool_decide (rows ≠ Height ∨ cols ≠ Width) then Some ∅
      else mask_of_bits b Width Height
  end.

(** [main] from the call of [Generate] to the call of [Draw], for the
    width, height and breadcrumbs flag read from the command line and the
    mask loaded from the image: what [Draw] prints. The value that
    [Solve] returns is not looked at. *)
Definition main_body (rng : nat → Z) (Width Height : Z)
    (breadcrumbs : bool) (mask : Mask) (fuel_generate fuel_solve : nat)
  : outcome (list glyph) :=
  match Generate rng Width Height 0 0 (Width - 1) (Height - 1) mask
          fuel_generate with
  | Returned conns =>
      let solved :=
        if breadcrumbs
        then Solve conns Width Height 0 0 (Width - 1) (Height - 1)
               fuel_solve []
        else Returned (false, []) in
      match solved with
      | Returned (_, path) =>
          match Draw conns path mask Width Height 0 0 (Width - 1)
                  (Height - 1) with
          | Some out => Returned out
          | None => Fault
          end
      | OutOfFuel => OutOfFuel
      | Fault => Fault
      end
  | OutOfFuel => OutOfFuel
  | Fault => Fault
  end.
End Main.

(** ** More fixed inputs *)

(** [pos2ec] of a 2*2 maze in which (1,0) points at (0,1) and (0,1) at
    (0,0). *)
Definition ecs_chain : list (list EqClass) :=
  [[{| rep := (0, 0) |}; {| rep := (0, 0) |}];
   [{| rep := (0, 1) |}; {| rep := (1, 1) |}]].

(** The state of [Generate] on a 2*2 maze after a first pass that has
    removed the east wall of (0,0). *)
Definition state_after_east : GenState :=
  {| adj_out := [[open_cell true false; open_cell false false];
                 [open_cell false false; open_cell false false]];
     pos2ec := [[{| rep := (0, 0) |}; {| rep := (0, 0) |}];
                [{| rep := (1, 0) |}; {| rep := (1, 1) |}]];
     drawn := 3;
     total_iterations := 1;
     productive_iterations := 1 |}.

(** The top-left cell is masked. *)
Definition mask_origin : Mask := {[ (0, 0) ]}.

(** ** The order of the two searches of [operator==] *)

(** [return this->find_rep() == other.find_rep();] (line 61): C++ leaves
    open which of the two calls is made first, and each call may redirect
    objects. [EqClass.eq] makes the left call first; here [this_first]
    says which call a compiler has put first. *)
Definition eq_in_order (this_first : bool) (ecs : list (list EqClass))
    (this other : Pos) : option (list (list EqClass) * bool) :=
  if this_first then
    '(ecs1, r1) ← EqClass.find ecs this;
    '(ecs2, r2) ← EqClass.find ecs1 other;
    Some (ecs2, bool_decide (r1 = r2))
  else
    '(ecs1, r2) ← EqClass.find ecs other;
    '(ecs2, r1) ← EqClass.find ecs1 this;
    Some (ecs2, bool_decide (r1 = r2)).

(** [Generate] with the order of every evaluation of [==] left to
    [order]: [order n false] is the choice at line 92 or 111 and
    [order n true] the choice at line 121, in the pass in which [rand]
    has been called [n] times. The two calls in [merge] are initialisers
    of one declaration (lines 54-55) and so are made in the order in
    which they are written. *)
Section GenerateInOrder.
Variable order : nat → bool → bool.
Variable rng : nat → Z.
Variables Width Height : Z.
Variables sx sy fx fy : Z.
Variable mask : Mask.

Definition knock_in_order (d : Dir) (p : Pos) (s : GenState)
  : option flow :=
  if bool_decide (p ∈ mask) then Some (Continue s) else
  a ← at2 (adj_out s) p;
  if flag d a then Some (Continue s) else
  '(ecs, same) ← eq_in_order (order (drawn s) false) (pos2ec s) p
                   (neighbor d p);
  if (same : bool) then Some (Continue (with_pos2ec s ecs)) else
  adj' ← set2 (adj_out s) p (raise_flag d a);
  ecs' ← EqClass.merge ecs p (neighbor d p);
  '(ecs'', joined) ← eq_in_order (order (drawn s) true) ecs' (sy, sx)
                       (fy, fx);
  let s' := {| adj_out := adj'; pos2ec := ecs''; drawn := drawn s;
               total_iterations := total_iterations s;
               productive_iterations := productive_iterations s + 1 |} in
  Some (if (joined : bool) then Break s' else Continue s').

Definition iteration_in_order (s : GenState) : option flow :=
  let '(r, s) := rand rng s in
  if decide (Z.rem r 2 = 0) then
    let '(rx, s) := rand rng s in
    x ← c_rem rx (Width - 1);
    let '(ry, s) := rand rng s in
    y ← c_rem ry Height;
    knock_in_order East (y, x) s
  else
    let '(rx, s) := rand rng s in
    x ← c_rem rx Width;
    let '(ry, s) := rand rng s in
    y ← c_rem ry (Height - 1);
    knock_in_order South (y, x) s.

Fixpoint Generate_loop_in_order (fuel : nat) (s : GenState)
  : outcome GenState :=
  match fuel with
  | O => OutOfFuel
  | S fuel' =>
      match iteration_in_order s with
      | None => Fault
      | Some (Break s') => Returned s'
      | Some (Continue s') =>
          Generate_loop_in_order fuel' (next_iteration s')
      end
  end.

Definition Generate_in_order (fuel : nat) : outcome Connections :=
  match Generate_init Width Height with
  | None => Fault
  | Some s =>
      match Generate_loop_in_order fuel s with
      | Returned s' => Returned (adj_out s')
      | OutOfFuel => OutOfFuel
      | Fault => Fault
      end
  end.
End GenerateInOrder.

(** ** The statistic of Generate *)

(** The largest and the smallest [int]. *)
Definition INT_MAX : Z := 2147483647.
Definition INT_MIN : Z := -2147483648.

(** [100 * productive_iterations / (float)total_iterations] (line 127):
    the product is computed in [int], then divided by the total as a
    [float]. The result is the two operands of the division; [None] when
    the product does not fit an [int] or the divisor is 0. The text that
    [printf] makes of the quotient is not modelled. *)
Definition statistic (s : GenState) : option (Z * Z) :=
  let product := 100 * productive_iterations s in
  if bool_decide (INT_MIN ≤ product ≤ INT_MAX) then
    if bool_decide (total_iterations s = 0) then None
    else Some (product, total_iterations s)
  else None.

(** [Generate] from its first line to its last: the loop, then the
    statistic. *)
Definition Generate_with_statistic (rng : nat → Z)
    (Width Height sx sy fx fy : Z) (mask : Mask) (fuel : nat)
  : outcome Connections :=
  match Generate_run rng Width Height sx sy fx fy mask fuel with
  | Returned s =>
      match statistic s with
      | Some _ => Returned (adj_out s)
      | None => Fault
      end
  | OutOfFuel => OutOfFuel
  | Fault => Fault
  end.

(** The state of [Generate] on a maze of one column and three rows, at
    the top of the second pass, after a first pass that has removed the
    south wall of (0,0). *)
Definition state_one_column : GenState :=
  {| adj_out := [[open_cell false true]; [open_cell false false];
                 [open_cell false false]];
     pos2ec := [[{| rep := (0, 0) |}]; [{| rep := (0, 0) |}];
                [{| rep := (2, 0) |}]];
     drawn := 3;
     total_iterations := 1;
     productive_iterations := 1 |}.
(** ** Facts about two-dimensional vectors *)

Section GridFacts.
Context {A : Type}.
Implicit Types (g : list (list A)) (p q : Pos).

Lemma at2_Some_inv g p a :
  at2 g p = Some a ↔
  0 ≤ p.1 ∧ 0 ≤ p.2 ∧
  ∃ row, g !! Z.to_nat p.1 = Some row ∧ row !! Z.to_nat p.2 = Some a.
Proof.
  unfold at2. case_bool_decide as Hb.
  - destruct (g !! Z.to_nat p.1) as [row|] eqn:Hr; simpl.
    + split; [intros; split_and!; try tauto; eauto|].
      intros (_ & _ & row' & [= <-] & ?); done.
    + split; [done|]. intros (_ & _ & row' & [=] & ?).
  - split; [done|]. intros (? & ? & _). tauto.
Qed.

Lemma at2_in_bounds Width Height g p a :
  rect Width Height g → at2 g p = Some a → in_bounds Width Height p.
Proof.
  intros [Hh Hw] (Hy & Hx & row & Hrow & Ha)%at2_Some_inv.
  pose proof (lookup_lt_Some _ _ _ Hrow) as Hl1.
  pose proof (lookup_lt_Some _ _ _ Ha) as Hl2.
  rewrite Forall_lookup in Hw. specialize (Hw _ _ Hrow). simpl in Hw.
  unfold in_bounds. lia.
Qed.

Lemma in_bounds_at2 Width Height g p :
  rect Width Height g → in_bounds Width Height p → is_Some (at2 g p).
Proof.
  intros [Hh Hw] [Hy Hx].
  destruct (lookup_lt_is_Some_2 g (Z.to_nat p.1)) as [row Hrow]; [lia|].
  rewrite Forall_lookup in Hw. specialize (Hw _ _ Hrow). simpl in Hw.
  destruct (lookup_lt_is_Some_2 row (Z.to_nat p.2)) as [a Ha]; [lia|].
  exists a. apply at2_Some_inv. split_and!; [lia..|eauto].
Qed.

Lemma set2_is_Some g p v : is_Some (at2 g p) → is_Some (set2 g p v).
Proof. intros [a Ha]. unfold set2. rewrite Ha. eauto. Qed.

Lemma set2_Some_at2 g p v g' : set2 g p v = Some g' → is_Some (at2 g p).
Proof. unfold set2. destruct (at2 g p); [eauto|done]. Qed.

Lemma set2_rect Width Height g p v g' :
  rect Width Height g → set2 g p v = Some g' → rect Width Height g'.
Proof.
  intros [Hh Hw] Hs. unfold set2 in Hs.
  destruct (at2 g p); simplify_eq. split.
  - by rewrite length_alter.
  - apply Forall_alter; [done|]. intros row _ Hrow. simpl in *.
    rewrite Forall_lookup in Hw. by rewrite length_insert.
Qed.

Lemma at2_set2_eq g p v g' : set2 g p v = Some g' → at2 g' p = Some v.
Proof.
  unfold set2. destruct (at2 g p) as [a|] eqn:Ha; [|done]. intros [= <-].
  apply at2_Some_inv in Ha as (Hy & Hx & row & Hrow & Ha).
  apply at2_Some_inv. split_and!; [done..|].
  exists (<[Z.to_nat p.2 := v]> row). split.
  - by rewrite list_lookup_alter_eq, Hrow.
  - apply list_lookup_insert_eq. by eapply lookup_lt_Some.
Qed.

Lemma at2_set2_ne g p v g' q :
  set2 g p v = Some g' → q ≠ p → at2 g' q = at2 g q.
Proof.
  unfold set2. destruct (at2 g p) as [a|] eqn:Ha; [|done]. intros [= <-] Hne.
  apply at2_Some_inv in Ha as (Hy & Hx & row & Hrow & Ha).
  unfold at2. case_bool_decide as Hq; [|done].
  destruct (decide (Z.to_nat q.1 = Z.to_nat p.1)) as [Heq|Hneq].
  - rewrite Heq, list_lookup_alter_eq, Hrow. simpl.
    apply list_lookup_insert_ne. intros Heq'. apply Hne.
    destruct p, q; simpl in *; f_equal; lia.
  - by rewrite list_lookup_alter_ne.
Qed.

Lemma resize2_rect Width Height (v : A) :
  0 ≤ Height → (0 < Height → 0 ≤ Width) →
  rect Width Height (resize2 Height Width v).
Proof.
  intros Hh Hw. unfold resize2. split.
  - rewrite length_replicate. lia.
  - apply Forall_forall. intros row Hrow%elem_of_replicate.
    destruct Hrow as [-> Hn]. rewrite length_replicate. lia.
Qed.

Lemma at2_resize2 Width Height (v : A) p a :
  at2 (resize2 Height Width v) p = Some a → a = v.
Proof.
  intros (_ & _ & row & Hrow & Ha)%at2_Some_inv. unfold resize2 in Hrow.
  apply lookup_replicate in Hrow as [-> _].
  by apply lookup_replicate in Ha as [-> _].
Qed.

Lemma rect_length_concat Width Height g :
  rect Width Height g →
  length (concat g) = (Z.to_nat Height * Z.to_nat Width)%nat.
Proof.
  intros [<- Hw]. rewrite Nat2Z.id.
  induction Hw as [|row g Hrow _ IH]; [done|].
  simpl. rewrite length_app, IH. lia.
Qed.
End GridFacts.

(** ** Paths in a graph given by a relation *)

Section Paths.
Context {V : Type} `{EqDecision V}.
Implicit Types (E : V → V → Prop) (l : list V) (a b u v : V).

Lemma chain_cons E a b l : chain E (a :: b :: l) ↔ E a b ∧ chain E (b :: l).
Proof. done. Qed.

Lemma chain_tail E a l : chain E (a :: l) → chain E l.
Proof. destruct l; [done|]. by intros [_ ?]. Qed.

Lemma chain_mono E E' l :
  (∀ a b, E a b → E' a b) → chain E l → chain E' l.
Proof.
  intros Hsub. induction l as [|a [|b l] IH]; try done.
  intros [Hab Hl]. split; [by apply Hsub|by apply IH].
Qed.

Lemma chain_app_l E l1 l2 : chain E (l1 ++ l2) → chain E l1.
Proof.
  induction l1 as [|a [|b l1] IH]; try done.
  simpl. intros [Hab Hl]. split; [done|]. by apply IH.
Qed.

Lemma chain_app_r E l1 l2 : chain E (l1 ++ l2) → chain E l2.
Proof.
  induction l1 as [|a l1 IH]; [done|].
  intros Hc. apply IH. by eapply chain_tail.
Qed.

Lemma chain_glue E l1 a l2 :
  chain E (l1 ++ [a]) → chain E (a :: l2) → chain E (l1 ++ a :: l2).
Proof.
  induction l1 as [|b [|c l1] IH]; [done| |].
  - simpl. intros [Hba _] Hl. done.
  - intros [Hbc Hl] Hl2. split; [done|]. by apply IH.
Qed.

Lemma chain_snoc E l a b :
  last l = Some a → chain E l → E a b → chain E (l ++ [b]).
Proof.
  intros (l' & ->)%last_Some Hc Hab.
  rewrite <-(assoc_L (++)). simpl. apply chain_glue; [done|]. by split.
Qed.

Lemma chain_rtc E l a b : joins l a b → chain E l → rtc E a b.
Proof.
  revert a. induction l as [|c [|d l] IH]; intros a [Hh Hl] Hc.
  - done.
  - simpl in *. by simplify_eq.
  - simpl in Hh. simplify_eq. destruct Hc as [Had Hc].
    eapply rtc_l; [done|]. apply IH; [|done]. split; [done|].
    by rewrite last_cons_cons in Hl.
Qed.

Lemma simple_path_suffix E l1 l2 :
  simple_path E (l1 ++ l2) → simple_path E l2.
Proof.
  intros [Hnd Hc]. split; [|by eapply chain_app_r].
  by apply NoDup_app in Hnd as (_ & _ & ?).
Qed.

(** Two cells that are connected are joined by a path without repetition. *)
Lemma rtc_simple_path E a b :
  rtc E a b → ∃ l, joins l a b ∧ simple_path E l.
Proof.
  induction 1 as [a|a c b Hac _ (l & [Hh Hl] & Hsp)].
  - exists [a]. split; [done|]. split; [apply NoDup_singleton|done].
  - destruct (decide (a ∈ l)) as [Hin|Hnin].
    + apply list_elem_of_split in Hin as (l1 & l2 & ->).
      exists (a :: l2). split.
      * split; [done|]. by rewrite last_app_cons in Hl.
      * by eapply simple_path_suffix.
    + apply head_Some in Hh as (l' & ->). exists (a :: c :: l'). split.
      * split; [done|]. by rewrite last_cons_cons.
      * destruct Hsp. split; [by apply NoDup_cons|by split].
Qed.

Lemma rtc_sym E a b : (∀ x y, E x y → E y x) → rtc E a b → rtc E b a.
Proof.
  intros Hsym. induction 1 as [|a c b Hac _ IH]; [done|].
  eapply rtc_r; [done|]. by apply Hsym.
Qed.

Lemma acyclic_ext E E' :
  (∀ a b, E a b ↔ E' a b) → acyclic E → acyclic E'.
Proof.
  intros Heq Hac l1 l2 a b [Hn1 Hc1] [Hn2 Hc2] Hj1 Hj2.
  apply (Hac l1 l2 a b); try done; split; try done;
    (eapply chain_mono; [|done]); intros ??; by apply Heq.
Qed.

Lemma acyclic_empty E : (∀ a b, ¬ E a b) → acyclic E.
Proof.
  intros Hno l1 l2 a b [_ Hc1] [_ Hc2] [Hh1 Hl1] [Hh2 Hl2].
  destruct l1 as [|x [|y l1]], l2 as [|x' [|y' l2]]; simplify_eq/=; try done.
  - destruct Hc2 as [[]%Hno _].
  - destruct Hc1 as [[]%Hno _].
  - destruct Hc1 as [[]%Hno _].
Qed.

(** A path of the larger graph that misses [u] or [v] is a path of the
    smaller one. *)
Lemma chain_add_avoid E u v l :
  chain (add_edge E u v) l → u ∉ l ∨ v ∉ l → chain E l.
Proof.
  induction l as [|a [|b l] IH]; try done.
  intros [Hab Hc] Hnot. split.
  - destruct Hab as [?|[[-> ->]|[-> ->]]]; [done|exfalso..];
      destruct Hnot as [Hn|Hn]; apply Hn; repeat constructor.
  - apply IH; [done|]. destruct Hnot as [Hn|Hn]; [left|right];
      apply not_elem_of_cons in Hn; tauto.
Qed.

Lemma crosses_cons E x y a b l :
  E a b → crosses E x y (b :: l) → crosses E x y (a :: b :: l).
Proof.
  intros Hab (A & B & Heq & HA & HB).
  exists (a :: A), B. split_and!; [by rewrite Heq| |done].
  destruct A as [|c A]; simplify_eq/=; by split.
Qed.

(** A simple path of the larger graph either stays in the smaller graph or
    takes the new edge exactly once. *)
Lemma chain_add_split E u v l :
  NoDup l → chain (add_edge E u v) l →
  chain E l ∨ crosses E u v l ∨ crosses E v u l.
Proof.
  induction l as [|a [|b l] IH]; [by left..|].
  intros [Ha Hnd]%NoDup_cons [Hab Hc].
  destruct Hab as [Hab|[[-> ->]|[-> ->]]].
  - destruct (IH Hnd Hc) as [?|[?|?]].
    + left. by split.
    + right; left. by apply crosses_cons.
    + right; right. by apply crosses_cons.
  - right; left. exists [], l. split_and!; [done..|].
    apply (chain_add_avoid E u v); [done|]. by left.
  - right; right. exists [], l. split_and!; [done..|].
    apply (chain_add_avoid E u v); [done|]. by right.
Qed.

Lemma crosses_inv E x y l a b :
  crosses E x y l → NoDup l → joins l a b →
  ∃ A B, l = A ++ x :: y :: B ∧
         simple_path E (A ++ [x]) ∧ joins (A ++ [x]) a x ∧
         simple_path E (y :: B) ∧ joins (y :: B) y b.
Proof.
  intros (A & B & -> & HA & HB) Hnd [Hh Hl]. exists A, B.
  assert (A ++ x :: y :: B = (A ++ [x]) ++ y :: B) as Heq
    by (by rewrite <-(assoc_L (++))).
  rewrite Heq in Hnd. apply NoDup_app in Hnd as (HnA & _ & HnB).
  split_and!; try done.
  - split; [|apply last_snoc]. destruct A; simplify_eq/=; done.
  - split; [done|]. by rewrite Heq, last_app_cons in Hl.
Qed.

Section AddEdge.
Variables (E : V → V → Prop) (u v : V).
Hypothesis E_sym : ∀ x y, E x y → E y x.
Hypothesis E_acyclic : acyclic E.
Hypothesis apart : ¬ rtc E u v.

Lemma add_edge_no_detour x y l1 l2 a b :
  (x = u ∧ y = v) ∨ (x = v ∧ y = u) →
  chain E l1 → joins l1 a b →
  crosses E x y l2 → NoDup l2 → joins l2 a b → False.
Proof using E_sym apart.
  intros Hxy Hc1 Hj1 Hcr Hnd Hj2.
  destruct (crosses_inv _ _ _ _ _ _ Hcr Hnd Hj2)
    as (A & B & _ & [_ HA] & HjA & [_ HB] & HjB).
  assert (rtc E x y) as Hr.
  { apply (rtc_trans _ a _); [apply rtc_sym, (chain_rtc _ _ _ _ HjA HA); done|].
    apply (rtc_trans _ b _); [exact (chain_rtc _ _ _ _ Hj1 Hc1)|].
    apply rtc_sym, (chain_rtc _ _ _ _ HjB HB); done. }
  destruct Hxy as [[-> ->]|[-> ->]]; [done|].
  by apply apart, rtc_sym.
Qed.

Lemma add_edge_same_way x y l1 l2 a b :
  crosses E x y l1 → NoDup l1 → joins l1 a b →
  crosses E x y l2 → NoDup l2 → joins l2 a b → l1 = l2.
Proof using E_acyclic.
  intros Hcr1 Hnd1 Hj1 Hcr2 Hnd2 Hj2.
  destruct (crosses_inv _ _ _ _ _ _ Hcr1 Hnd1 Hj1)
    as (A1 & B1 & -> & HA1 & HjA1 & HB1 & HjB1).
  destruct (crosses_inv _ _ _ _ _ _ Hcr2 Hnd2 Hj2)
    as (A2 & B2 & -> & HA2 & HjA2 & HB2 & HjB2).
  pose proof (E_acyclic _ _ _ _ HA1 HA2 HjA1 HjA2) as HeqA.
  pose proof (E_acyclic _ _ _ _ HB1 HB2 HjB1 HjB2) as HeqB.
  apply app_inj_tail in HeqA as [-> _]. by simplify_eq.
Qed.

Lemma add_edge_opposite l1 l2 a b :
  crosses E u v l1 → NoDup l1 → joins l1 a b →
  crosses E v u l2 → NoDup l2 → joins l2 a b → False.
Proof using E_sym apart.
  intros Hcr1 Hnd1 Hj1 Hcr2 Hnd2 Hj2.
  destruct (crosses_inv _ _ _ _ _ _ Hcr1 Hnd1 Hj1)
    as (A1 & B1 & _ & [_ HA1] & HjA1 & _).
  destruct (crosses_inv _ _ _ _ _ _ Hcr2 Hnd2 Hj2)
    as (A2 & B2 & _ & [_ HA2] & HjA2 & _).
  apply apart. apply (rtc_trans _ a _).
  - apply rtc_sym; [done|]. exact (chain_rtc _ _ _ _ HjA1 HA1).
  - exact (chain_rtc _ _ _ _ HjA2 HA2).
Qed.

(** Joining two trees of a forest by one edge gives a forest. *)
Lemma acyclic_add : acyclic (add_edge E u v).
Proof using E_sym E_acyclic apart.
  intros l1 l2 a b [Hn1 Hc1] [Hn2 Hc2] Hj1 Hj2.
  destruct (chain_add_split E u v l1 Hn1 Hc1) as [H1|[H1|H1]],
           (chain_add_split E u v l2 Hn2 Hc2) as [H2|[H2|H2]].
  - by apply (E_acyclic l1 l2 a b).
  - exfalso. eapply (add_edge_no_detour u v l1 l2); eauto.
  - exfalso. eapply (add_edge_no_detour v u l1 l2); eauto.
  - exfalso. eapply (add_edge_no_detour u v l2 l1); eauto.
  - by eapply add_edge_same_way.
  - exfalso. by eapply (add_edge_opposite l1 l2).
  - exfalso. eapply (add_edge_no_detour v u l2 l1); eauto.
  - exfalso. by eapply (add_edge_opposite l2 l1).
  - by eapply add_edge_same_way.
Qed.
End AddEdge.

Lemma add_edge_sym E u v :
  (∀ x y, E x y → E y x) → ∀ x y, add_edge E u v x y → add_edge E u v y x.
Proof. intros Hs x y [?|[[-> ->]|[-> ->]]]; unfold add_edge; auto. Qed.

Lemma rtc_add_edge E u v a b :
  rtc (add_edge E u v) a b ↔
  rtc E a b ∨ (rtc E a u ∧ rtc E v b) ∨ (rtc E a v ∧ rtc E u b).
Proof.
  split.
  - induction 1 as [a|a c b Hac _ IH]; [by left|].
    destruct Hac as [Hac|[[-> ->]|[-> ->]]].
    + destruct IH as [?|[[??]|[??]]]; [left|right;left|right;right];
        try split; try done; by eapply rtc_l.
    + destruct IH as [?|[[??]|[??]]]; [right;left|right;left|left]; done.
    + destruct IH as [?|[[??]|[??]]]; [right;right|left|right;right]; done.
  - assert (∀ x y, rtc E x y → rtc (add_edge E u v) x y) as Hsub.
    { intros x y. apply rtc_subrel. intros ???. by left. }
    intros [?|[[??]|[??]]]; [by apply Hsub|..].
    + etrans; [by apply Hsub|]. eapply rtc_l; [|by apply Hsub].
      right; left; done.
    + etrans; [by apply Hsub|]. eapply rtc_l; [|by apply Hsub].
      right; right; done.
Qed.
End Paths.

(** ** The graph of a connectivity matrix *)

Section MazeGraph.
Variables Width Height : Z.
Implicit Types (adj : Connections) (p q : Pos) (d : Dir).

Lemma edge_sym adj p q : edge adj Width Height p q → edge adj Width Height q p.
Proof. intros [d [?|?]]; exists d; auto. Qed.

Lemma edge_in_bounds adj p q :
  edge adj Width Height p q →
  in_bounds Width Height p ∧ in_bounds Width Height q.
Proof. by intros [d [(? & ? & _)|(? & ? & _)]]. Qed.

Lemma neighbor_ne d p : neighbor d p ≠ p.
Proof. destruct d, p as [y x]; simpl; intros [=]; lia. Qed.

Lemma edge_irrefl adj p : ¬ edge adj Width Height p p.
Proof.
  intros [d [(_ & _ & Heq & _)|(_ & _ & Heq & _)]];
    by eapply neighbor_ne.
Qed.

(** With all walls up there is no edge. *)
Lemma edge_init w h p q :
  ¬ edge (resize2 h w Adjacency_init) Width Height p q.
Proof.
  intros [d [(_ & _ & _ & a & Ha & Hf)|(_ & _ & _ & a & Ha & Hf)]];
    apply at2_resize2 in Ha as ->; by destruct d.
Qed.

Lemma rtc_edge_init w h p q :
  rtc (edge (resize2 h w Adjacency_init) Width Height) p q → p = q.
Proof. intros [|x y z Hxy _]; [done|]. by apply edge_init in Hxy. Qed.

Lemma connected_rtc adj p q :
  connected adj Width Height p q ↔ rtc (edge adj Width Height) p q.
Proof.
  split.
  - intros (l & Hj & Hc). by eapply chain_rtc.
  - intros (l & Hj & _ & Hc)%rtc_simple_path. by exists l.
Qed.

Lemma connected_simple_path adj p q :
  connected adj Width Height p q →
  ∃ l, joins l p q ∧ simple_path (edge adj Width Height) l.
Proof. intros ?%connected_rtc. by apply rtc_simple_path. Qed.

Lemma flag_raise_flag d d' a :
  flag d' (raise_flag d a) = true ↔ flag d' a = true ∨ d' = d.
Proof.
  destruct d, d', a as [[] []]; simpl; split; auto; intros [?|?]; done.
Qed.

Lemma wall_open_raise adj adj' p a d d' x :
  at2 adj p = Some a → set2 adj p (raise_flag d a) = Some adj' →
  wall_open adj' d' x ↔ wall_open adj d' x ∨ (x = p ∧ d' = d).
Proof.
  intros Ha Hset. unfold wall_open.
  destruct (decide (x = p)) as [->|Hne].
  - rewrite (at2_set2_eq _ _ _ _ Hset), Ha. split.
    + intros (a' & [= <-] & [?|?]%flag_raise_flag); eauto.
    + intros [(a' & [= <-] & ?)|[_ ->]]; eexists; split; try done;
        apply flag_raise_flag; auto.
  - rewrite (at2_set2_ne _ _ _ _ _ Hset Hne).
    split; [by left|]. by intros [?|[? _]].
Qed.

(** Raising the flag [d] of cell [p] adds the edge from [p] to its
    neighbour on that side, and no other. *)
Lemma edge_raise adj adj' p a d :
  at2 adj p = Some a → set2 adj p (raise_flag d a) = Some adj' →
  in_bounds Width Height p → in_bounds Width Height (neighbor d p) →
  ∀ x y, edge adj' Width Height x y ↔
         add_edge (edge adj Width Height) p (neighbor d p) x y.
Proof.
  intros Ha Hset Hp Hq.
  assert (∀ d' x y, arc adj' Width Height d' x y ↔
            arc adj Width Height d' x y ∨ (d' = d ∧ x = p ∧ y = neighbor d p))
    as Harc.
  { intros d' x y. unfold arc.
    rewrite (wall_open_raise adj adj' p a d d' x Ha Hset). split.
    - intros (? & ? & ? & [?|[-> ->]]); [by left|by right].
    - intros [(? & ? & ? & ?)|(-> & -> & ->)]; split_and!; auto. }
  intros x y. unfold edge, add_edge. split.
  - intros [d' [H|H]]; apply Harc in H as [H|(-> & -> & ->)]; eauto.
  - intros [[d' [H|H]]|[[-> ->]|[-> ->]]].
    + exists d'. left. apply Harc. by left.
    + exists d'. right. apply Harc. by left.
    + exists d. left. apply Harc. by right.
    + exists d. right. apply Harc. by right.
Qed.
End MazeGraph.

(** ** The cells of the maze *)

Lemma elem_of_cells Width Height p :
  p ∈ cells Width Height ↔ in_bounds Width Height p.
Proof.
  unfold cells, in_bounds. rewrite list_elem_of_bind. split.
  - intros (y & (x & ->%list_elem_of_ret & Hx%elem_of_seqZ)%list_elem_of_bind
             & Hy%elem_of_seqZ). simpl. lia.
  - intros [Hy Hx]. exists p.1. split; [|apply elem_of_seqZ; lia].
    apply list_elem_of_bind. exists p.2.
    split; [destruct p; apply list_elem_of_ret; done|apply elem_of_seqZ; lia].
Qed.

Lemma length_bind_const {A B} (f : A → list B) (k : nat) (l : list A) :
  (∀ x, length (f x) = k) → length (l ≫= f) = (length l * k)%nat.
Proof.
  intros Hf. induction l as [|x l IH]; [done|].
  rewrite bind_cons, length_app, IH, Hf. simpl. lia.
Qed.

Lemma length_cells Width Height :
  length (cells Width Height) = (Z.to_nat Height * Z.to_nat Width)%nat.
Proof.
  unfold cells. rewrite (length_bind_const _ (Z.to_nat Width)).
  - by rewrite length_seqZ.
  - intros y. rewrite (length_bind_const _ 1%nat); [|done].
    rewrite length_seqZ. lia.
Qed.

(** A list of distinct cells is no longer than the maze is large. *)
Lemma cells_pigeonhole Width Height (l : Path) :
  NoDup l → Forall (in_bounds Width Height) l →
  (length l ≤ Z.to_nat Height * Z.to_nat Width)%nat.
Proof.
  intros Hnd Hin. rewrite <-length_cells.
  apply submseteq_length, NoDup_submseteq; [done|].
  intros p Hp. apply elem_of_cells. by eapply Forall_forall in Hin.
Qed.

(** ** Union-find *)

Section UFFacts.
Variables Width Height : Z.
Implicit Types (ecs : list (list EqClass)) (p q r : Pos).

Lemma root_of_fun ecs p r r' :
  EqClass.root_of ecs p r → EqClass.root_of ecs p r' → r = r'.
Proof.
  induction 1 as [p Hp|p q r Hp Hne _ IH]; inversion 1; simplify_eq; auto.
Qed.

Lemma root_of_self ecs p r :
  EqClass.root_of ecs p r → at2 ecs r = Some {| rep := r |}.
Proof. by induction 1. Qed.

Lemma root_of_root ecs p r : EqClass.root_of ecs p r → EqClass.root_of ecs r r.
Proof. intros ?%root_of_self. by constructor. Qed.

Lemma root_of_at2 ecs p r : EqClass.root_of ecs p r → is_Some (at2 ecs p).
Proof. inversion 1; eauto. Qed.

Lemma root_of_in_bounds ecs p r :
  rect Width Height ecs → EqClass.root_of ecs p r →
  in_bounds Width Height p ∧ in_bounds Width Height r.
Proof.
  intros Hrect Hroot. split.
  - destruct (root_of_at2 _ _ _ Hroot). by eapply at2_in_bounds.
  - destruct (root_of_at2 _ _ _ (root_of_root _ _ _ Hroot)).
    by eapply at2_in_bounds.
Qed.

Lemma same_class_refl ecs p r : EqClass.root_of ecs p r → EqClass.same_class ecs p p.
Proof. intros. by exists r. Qed.

Lemma same_class_sym ecs p q : EqClass.same_class ecs p q → EqClass.same_class ecs q p.
Proof. intros (r & ? & ?). by exists r. Qed.

Lemma same_class_trans ecs p q s :
  EqClass.same_class ecs p q → EqClass.same_class ecs q s → EqClass.same_class ecs p s.
Proof.
  intros (r & Hp & Hq) (r' & Hq' & Hs).
  rewrite (root_of_fun _ _ _ _ Hq Hq') in Hp. by exists r'.
Qed.

(** The chain of pointers from a cell that has a representative does not
    come back to the cell. *)
Lemma root_of_no_cycle ecs p r :
  EqClass.root_of ecs p r → ¬ tc (EqClass.parent ecs) p p.
Proof.
  induction 1 as [p Hp|p q r Hp Hne _ IH]; intros Htc.
  - inversion Htc as [?? [Hq Hne]|?? ? [Hq Hne] _]; simplify_eq.
  - apply IH. inversion Htc as [?? [Hq Hne']|?? ? [Hq Hne'] Htc']; simplify_eq.
    eapply tc_r; [done|]. by split.
Qed.

(** Redirecting a cell to its own representative changes no
    representative: this is one step of path compression. *)
Lemma root_of_compress ecs ecs' p r :
  EqClass.root_of ecs p r → p ≠ r → set2 ecs p {| rep := r |} = Some ecs' →
  EqClass.roots_preserved ecs ecs'.
Proof.
  intros Hpr Hne Hset q s Hq.
  assert (EqClass.root_of ecs' r r) as Hr.
  { apply EqClass.root_here. rewrite (at2_set2_ne _ _ _ _ _ Hset); [|done].
    by eapply root_of_self. }
  induction Hq as [q Hq|q q' s Hq Hne' Hq' IH].
  - assert (q ≠ p) as Hqp.
    { intros ->. apply Hne.
      apply (root_of_fun ecs p); [by apply EqClass.root_here|done]. }
    apply EqClass.root_here. by rewrite (at2_set2_ne _ _ _ _ _ Hset).
  - destruct (decide (q = p)) as [->|Hqp].
    + assert (s = r) as ->.
      { apply (root_of_fun ecs p); [by eapply EqClass.root_up|done]. }
      eapply EqClass.root_up; [by eapply at2_set2_eq|done..].
    + eapply EqClass.root_up; [|done..]. by rewrite (at2_set2_ne _ _ _ _ _ Hset).
Qed.

(** What [find_rep] returns, when it returns. *)
Lemma find_rep_sound fuel ecs p ecs' r :
  EqClass.find_rep fuel ecs p = Some (ecs', r) → rect Width Height ecs →
  EqClass.root_of ecs p r ∧ rect Width Height ecs' ∧ EqClass.roots_preserved ecs ecs'.
Proof.
  intros Hfind Hrect. revert p ecs' r Hfind.
  induction fuel as [|fuel IH]; intros p ecs' r Hfind; [done|].
  simpl in Hfind. destruct (at2 ecs p) as [[q]|] eqn:Hp; [|done].
  simpl in Hfind. case_decide as Hq.
  - destruct (EqClass.find_rep fuel ecs q) as [[ecs1 r1]|] eqn:Hrec; [|done].
    simpl in Hfind.
    destruct (set2 ecs1 p {| rep := r1 |}) as [ecs2|] eqn:Hset; [|done].
    simplify_eq/=. destruct (IH _ _ _ Hrec) as (Hq_r & Hrect1 & Hpres).
    assert (EqClass.root_of ecs p r) as Hp_r by (by eapply EqClass.root_up).
    split_and!; [done|by eapply set2_rect|].
    assert (p ≠ r) as Hpr.
    { intros ->. pose proof (root_of_self _ _ _ Hq_r) as Hr.
      simplify_eq. }
    intros x s Hx. eapply root_of_compress; [|done..| by apply Hpres].
    by apply Hpres.
  - assert (q = p) as -> by (by destruct (decide (q = p))).
    simplify_eq/=. split_and!; [by apply EqClass.root_here|done|by intros ??].
Qed.

(** [find_rep] returns when its fuel exceeds the number of cells not yet
    visited. *)
Lemma find_rep_enough fuel ecs p (visited : Path) :
  rect Width Height ecs → (∃ r, EqClass.root_of ecs p r) →
  NoDup visited → (∀ q, q ∈ visited → tc (EqClass.parent ecs) q p) →
  (Z.to_nat Height * Z.to_nat Width < length visited + fuel)%nat →
  is_Some (EqClass.find_rep fuel ecs p).
Proof.
  intros Hrect. revert p visited.
  induction fuel as [|fuel IH]; intros p visited [r Hr] Hnd Hvis Hlen.
  - exfalso. assert (Forall (in_bounds Width Height) visited) as Hin.
    { apply Forall_forall. intros q Hq%Hvis.
      assert (∃ q', EqClass.parent ecs q q') as [q' [Hq' _]]
        by (inversion Hq; eauto).
      by eapply at2_in_bounds. }
    pose proof (cells_pigeonhole _ _ _ Hnd Hin). lia.
  - simpl. inversion Hr as [? Hp|? q ? Hp Hne Hq]; simplify_eq; rewrite Hp; simpl.
    + case_decide; [done|eauto].
    + case_decide; [|done].
      destruct (IH q (p :: visited)) as [[ecs1 r1] Hrec].
      * eauto.
      * apply NoDup_cons. split; [|done]. intros Hin%Hvis.
        by apply (root_of_no_cycle ecs p r).
      * intros x [->|Hx%Hvis]%elem_of_cons; [by apply tc_once|].
        by eapply tc_r.
      * simpl. lia.
      * rewrite Hrec. simpl.
        destruct (find_rep_sound _ _ _ _ _ Hrec Hrect) as (_ & Hrect1 & _).
        destruct (set2_is_Some ecs1 p {| rep := r1 |}) as [ecs2 ->]; [|eauto].
        apply (in_bounds_at2 Width Height); [done|].
        by apply (at2_in_bounds Width Height ecs p {| rep := q |}).
Qed.

Lemma well_formed_preserved ecs ecs' :
  EqClass.well_formed Width Height ecs → rect Width Height ecs' →
  EqClass.roots_preserved ecs ecs' →
  EqClass.well_formed Width Height ecs' ∧
  ∀ p q, EqClass.same_class ecs' p q ↔ EqClass.same_class ecs p q.
Proof.
  intros [Hrect Hwf] Hrect' Hpres.
  assert (∀ p r, EqClass.root_of ecs' p r → EqClass.root_of ecs p r) as Hback.
  { intros p r Hr. destruct (Hwf p) as [r0 Hr0].
    - exact (proj1 (root_of_in_bounds _ _ _ Hrect' Hr)).
    - by rewrite (root_of_fun _ _ _ _ Hr (Hpres _ _ Hr0)). }
  split; [split; [done|]|].
  - intros p [r Hr]%Hwf. eauto.
  - intros p q. split; intros (r & ? & ?); exists r; auto.
Qed.

Lemma find_spec ecs p ecs' r :
  EqClass.find ecs p = Some (ecs', r) → EqClass.well_formed Width Height ecs →
  EqClass.root_of ecs p r ∧ EqClass.well_formed Width Height ecs' ∧
  EqClass.roots_preserved ecs ecs'.
Proof.
  intros Hfind Hwf.
  destruct (find_rep_sound _ _ _ _ _ Hfind (proj1 Hwf)) as (? & ? & ?).
  split_and!; [done| |done]. by eapply well_formed_preserved.
Qed.

Lemma find_is_Some ecs p :
  EqClass.well_formed Width Height ecs → in_bounds Width Height p →
  is_Some (EqClass.find ecs p).
Proof.
  intros [Hrect Hwf] Hp. apply (find_rep_enough _ _ _ []); auto.
  - apply NoDup_nil_2.
  - intros q []%elem_of_nil.
  - rewrite (rect_length_concat _ _ _ Hrect). simpl. lia.
Qed.

Lemma roots_reflected ecs ecs' p r :
  EqClass.well_formed Width Height ecs → rect Width Height ecs' →
  EqClass.roots_preserved ecs ecs' → EqClass.root_of ecs' p r → EqClass.root_of ecs p r.
Proof.
  intros [Hrect Hwf] Hrect' Hpres Hr. destruct (Hwf p) as [r0 Hr0].
  - exact (proj1 (root_of_in_bounds _ _ _ Hrect' Hr)).
  - by rewrite (root_of_fun _ _ _ _ Hr (Hpres _ _ Hr0)).
Qed.

(** [operator==] answers whether the two cells have the same
    representative, and changes no representative. *)
Lemma eq_spec ecs p q ecs' b :
  EqClass.eq ecs p q = Some (ecs', b) → EqClass.well_formed Width Height ecs →
  EqClass.well_formed Width Height ecs' ∧ EqClass.roots_preserved ecs ecs' ∧
  (b = true ↔ EqClass.same_class ecs p q) ∧
  in_bounds Width Height p ∧ in_bounds Width Height q.
Proof.
  unfold EqClass.eq. intros Heq Hwf.
  destruct (EqClass.find ecs p) as [[ecs1 r1]|] eqn:H1; [|done]. simpl in Heq.
  destruct (EqClass.find ecs1 q) as [[ecs2 r2]|] eqn:H2; [|done].
  simplify_eq/=.
  destruct (find_spec _ _ _ _ H1 Hwf) as (Hp & Hwf1 & Hpres1).
  destruct (find_spec _ _ _ _ H2 Hwf1) as (Hq1 & Hwf2 & Hpres2).
  pose proof (roots_reflected _ _ _ _ Hwf (proj1 Hwf1) Hpres1 Hq1) as Hq.
  split_and!; [done| | |..].
  - intros x s Hx. by apply Hpres2, Hpres1.
  - rewrite bool_decide_eq_true. split.
    + intros ->. by exists r2.
    + intros (r & Hp' & Hq').
      by rewrite (root_of_fun _ _ _ _ Hp Hp'), (root_of_fun _ _ _ _ Hq Hq').
  - exact (proj1 (root_of_in_bounds _ _ _ (proj1 Hwf) Hp)).
  - exact (proj1 (root_of_in_bounds _ _ _ (proj1 Hwf) Hq)).
Qed.

Lemma eq_is_Some ecs p q :
  EqClass.well_formed Width Height ecs →
  in_bounds Width Height p → in_bounds Width Height q →
  is_Some (EqClass.eq ecs p q).
Proof.
  intros Hwf Hp Hq. unfold EqClass.eq.
  destruct (find_is_Some _ _ Hwf Hp) as [[ecs1 r1] H1]. rewrite H1. simpl.
  destruct (find_spec _ _ _ _ H1 Hwf) as (_ & Hwf1 & _).
  destruct (find_is_Some _ _ Hwf1 Hq) as [[ecs2 r2] H2]. rewrite H2. eauto.
Qed.

(** Pointing one representative at another merges their two classes and
    leaves the others as they are. *)
Lemma root_of_link ecs ecs' r1 r2 :
  at2 ecs r1 = Some {| rep := r1 |} → at2 ecs r2 = Some {| rep := r2 |} →
  r1 ≠ r2 → set2 ecs r2 {| rep := r1 |} = Some ecs' →
  ∀ p s, EqClass.root_of ecs p s →
         EqClass.root_of ecs' p (if decide (s = r2) then r1 else s).
Proof.
  intros Hr1 Hr2 Hne Hset.
  assert (EqClass.root_of ecs' r1 r1) as Hr1'.
  { apply EqClass.root_here. by rewrite (at2_set2_ne _ _ _ _ _ Hset). }
  induction 1 as [p Hp|p q s Hp Hqp _ IH].
  - case_decide as Hd.
    + subst p. eapply EqClass.root_up; [by eapply at2_set2_eq|done..].
    + apply EqClass.root_here. by rewrite (at2_set2_ne _ _ _ _ _ Hset).
  - eapply EqClass.root_up; [|done..].
    rewrite (at2_set2_ne _ _ _ _ _ Hset); [done|].
    intros ->. simplify_eq.
Qed.

Lemma merge_spec ecs p q ecs' :
  EqClass.merge ecs p q = Some ecs' → EqClass.well_formed Width Height ecs →
  EqClass.well_formed Width Height ecs' ∧
  ∀ x y, EqClass.same_class ecs' x y ↔
         EqClass.same_class ecs x y ∨
         (EqClass.same_class ecs x p ∧ EqClass.same_class ecs q y) ∨
         (EqClass.same_class ecs x q ∧ EqClass.same_class ecs p y).
Proof.
  unfold EqClass.merge. intros Hm Hwf.
  destruct (EqClass.find ecs p) as [[ecs1 r1]|] eqn:H1; [|done]. simpl in Hm.
  destruct (EqClass.find ecs1 q) as [[ecs2 r2]|] eqn:H2; [|done]. simpl in Hm.
  destruct (find_spec _ _ _ _ H1 Hwf) as (Hp & Hwf1 & Hpres1).
  destruct (find_spec _ _ _ _ H2 Hwf1) as (Hq1 & Hwf2 & Hpres2).
  pose proof (roots_reflected _ _ _ _ Hwf (proj1 Hwf1) Hpres1 Hq1) as Hq.
  assert (EqClass.roots_preserved ecs ecs2) as Hpres
    by (intros x s Hx; by apply Hpres2, Hpres1).
  destruct (well_formed_preserved _ _ Hwf (proj1 Hwf2) Hpres) as [_ Hsame].
  case_decide as Hne.
  - (* two classes: link them *)
    set (f := λ s : Pos, if decide (s = r2) then r1 else s).
    assert (∀ x s, EqClass.root_of ecs x s → EqClass.root_of ecs' x (f s)) as Hfwd.
    { intros x s Hx. eapply root_of_link; [| |done..|by apply Hpres].
      - eapply root_of_self. by apply Hpres.
      - eapply root_of_self. by apply Hpres. }
    pose proof (set2_rect _ _ _ _ _ _ (proj1 Hwf2) Hm) as Hrect'.
    assert (∀ x s', EqClass.root_of ecs' x s' →
              ∃ s, EqClass.root_of ecs x s ∧ s' = f s) as Hbwd.
    { intros x s' Hx. destruct (proj2 Hwf x) as [s Hs].
      - exact (proj1 (root_of_in_bounds _ _ _ Hrect' Hx)).
      - exists s. split; [done|]. eapply root_of_fun; [done|by apply Hfwd]. }
    split.
    { split; [done|]. intros x [s Hs]%(proj2 Hwf). eauto. }
    intros x y. split.
    + intros (r & [sx [Hsx ->]]%Hbwd & [sy [Hsy Hr]]%Hbwd).
      unfold f in Hr. unfold EqClass.same_class.
      repeat case_decide; simplify_eq; eauto 10.
    + assert (f r1 = r1) as Hf1 by (unfold f; by case_decide).
      assert (f r2 = r1) as Hf2 by (unfold f; by case_decide).
      intros [(r & Hx & Hy)|[[(r & Hx & Hp') (r' & Hq' & Hy)]|
                              [(r & Hx & Hq') (r' & Hp' & Hy)]]].
      * exists (f r). split; by apply Hfwd.
      * exists r1. rewrite (root_of_fun _ _ _ _ Hp' Hp) in Hx.
        rewrite (root_of_fun _ _ _ _ Hq' Hq) in Hy.
        apply Hfwd in Hx, Hy. by rewrite Hf1 in Hx; rewrite Hf2 in Hy.
      * exists r1. rewrite (root_of_fun _ _ _ _ Hq' Hq) in Hx.
        rewrite (root_of_fun _ _ _ _ Hp' Hp) in Hy.
        apply Hfwd in Hx, Hy. by rewrite Hf2 in Hx; rewrite Hf1 in Hy.
  - (* one class already *)
    assert (r1 = r2) as <- by (by destruct (decide (r1 = r2))).
    simplify_eq. split; [done|]. intros x y. rewrite Hsame.
    assert (EqClass.same_class ecs p q) as Hpq by (by exists r1).
    split; [by left|]. intros [?|[[??]|[??]]]; [done|..].
    + eapply same_class_trans; [done|]. by eapply same_class_trans.
    + eapply same_class_trans; [done|].
      eapply same_class_trans; [|done]. by apply same_class_sym.
Qed.

Lemma merge_is_Some ecs p q :
  EqClass.well_formed Width Height ecs →
  in_bounds Width Height p → in_bounds Width Height q →
  is_Some (EqClass.merge ecs p q).
Proof.
  intros Hwf Hp Hq. unfold EqClass.merge.
  destruct (find_is_Some _ _ Hwf Hp) as [[ecs1 r1] H1]. rewrite H1. simpl.
  destruct (find_spec _ _ _ _ H1 Hwf) as (_ & Hwf1 & _).
  destruct (find_is_Some _ _ Hwf1 Hq) as [[ecs2 r2] H2]. rewrite H2. simpl.
  destruct (find_spec _ _ _ _ H2 Hwf1) as (Hr2 & Hwf2 & Hpres2).
  case_decide; [|eauto]. apply set2_is_Some.
  apply Hpres2 in Hr2. apply root_of_self in Hr2. eauto.
Qed.

(** [pos2ec] as [Generate] builds it. *)
Lemma at2_init p e :
  at2 (EqClass.init Height Width) p = Some e → e = {| rep := p |}.
Proof.
  intros (Hy & Hx & row & Hrow & He)%at2_Some_inv. unfold EqClass.init in Hrow.
  rewrite list_lookup_imap in Hrow.
  destruct (resize2 Height Width () !! Z.to_nat p.1) as [r|]; [|done].
  simplify_eq/=. rewrite list_lookup_imap in He.
  destruct (r !! Z.to_nat p.2); [|done]. simplify_eq/=.
  destruct p as [y x]; simpl in *. f_equal. f_equal; lia.
Qed.

Lemma init_rect :
  0 ≤ Height → (0 < Height → 0 ≤ Width) →
  rect Width Height (EqClass.init Height Width).
Proof.
  intros Hh Hw. destruct (resize2_rect Width Height () Hh Hw) as [Hl Hrows].
  unfold EqClass.init. split.
  - by rewrite length_imap.
  - apply Forall_forall. intros row (i & Hi)%list_elem_of_lookup_1.
    rewrite list_lookup_imap in Hi.
    destruct (resize2 Height Width () !! i) as [r|] eqn:Hr; [|done].
    simplify_eq/=. rewrite length_imap.
    rewrite Forall_lookup in Hrows. by apply (Hrows i).
Qed.

Lemma init_root_of p r :
  EqClass.root_of (EqClass.init Height Width) p r → r = p.
Proof.
  inversion 1 as [|? q ? Hp Hne _]; [done|]. apply at2_init in Hp.
  simplify_eq.
Qed.

Lemma init_well_formed :
  0 ≤ Height → (0 < Height → 0 ≤ Width) →
  EqClass.well_formed Width Height (EqClass.init Height Width).
Proof.
  intros Hh Hw. pose proof (init_rect Hh Hw) as Hrect. split; [done|].
  intros p Hp. exists p. apply EqClass.root_here.
  destruct (in_bounds_at2 _ _ _ _ Hrect Hp) as [e He].
  by rewrite He, (at2_init _ _ He).
Qed.
End UFFacts.

(** ** The loop of Generate *)

Lemma rtc_ext {V} (E E' : V → V → Prop) a b :
  (∀ x y, E x y ↔ E' x y) → rtc E a b ↔ rtc E' a b.
Proof.
  intros Heq. split; apply rtc_subrel; intros x y; by apply Heq.
Qed.

Section GenerateFacts.
Variable rng : nat → Z.
Variables Width Height sx sy fx fy : Z.
Variable mask : Mask.
Implicit Types (s : GenState) (fl : flow) (d : Dir) (p q : Pos).

(** Compression inside [operator==] keeps the invariant. *)
Lemma coherent_compress adj ecs ecs' :
  coherent Width Height adj ecs → EqClass.well_formed Width Height ecs' →
  EqClass.roots_preserved ecs ecs' → coherent Width Height adj ecs'.
Proof.
  intros [Hadj Hwf Hcl Hfor Hin] Hwf' Hpres.
  destruct (well_formed_preserved _ _ _ _ Hwf (proj1 Hwf') Hpres) as [_ Hsame].
  split; try done. intros p q Hp Hq. rewrite Hsame. by apply Hcl.
Qed.

(** Removing a wall between two classes and merging them keeps the
    invariant. *)
Lemma coherent_knock adj ecs adj' ecs' p a d :
  coherent Width Height adj ecs →
  at2 adj p = Some a → set2 adj p (raise_flag d a) = Some adj' →
  in_bounds Width Height (neighbor d p) →
  ¬ EqClass.same_class ecs p (neighbor d p) →
  EqClass.merge ecs p (neighbor d p) = Some ecs' →
  coherent Width Height adj' ecs'.
Proof.
  intros [Hadj Hwf Hcl Hfor Hin] Ha Hset Hq Hdiff Hmerge.
  pose proof (at2_in_bounds _ _ _ _ _ Hadj Ha) as Hp.
  pose proof (edge_raise Width Height _ _ _ _ _ Ha Hset Hp Hq) as Hedge.
  destruct (merge_spec _ _ _ _ _ _ Hmerge Hwf) as [Hwf' Hsame].
  assert (¬ rtc (edge adj Width Height) p (neighbor d p)) as Hapart.
  { intros ?%connected_rtc%Hcl; done. }
  split.
  - by eapply set2_rect.
  - done.
  - intros x y Hx Hy.
    rewrite Hsame, connected_rtc, (rtc_ext _ _ _ _ Hedge), rtc_add_edge.
    rewrite !Hcl, !connected_rtc by done. done.
  - eapply acyclic_ext; [intros x y; symmetry; apply Hedge|].
    apply acyclic_add; [apply edge_sym|done..].
  - intros x a' d' Ha' Hf. destruct (decide (x = p)) as [->|Hne].
    + rewrite (at2_set2_eq _ _ _ _ Hset) in Ha'. simplify_eq.
      apply flag_raise_flag in Hf as [Hf| ->]; [by eapply Hin|done].
    + rewrite (at2_set2_ne _ _ _ _ _ Hset Hne) in Ha'. by eapply Hin.
Qed.

Lemma knock_spec d p s fl :
  coherent Width Height (adj_out s) (pos2ec s) →
  knock sx sy fx fy mask d p s = Some fl →
  coherent Width Height (adj_out (flow_state fl)) (pos2ec (flow_state fl)) ∧
  (skipped s fl ∨ wall_removed Width Height sx sy fx fy mask d p s fl).
Proof.
  intros Hcoh Hk. unfold knock in Hk.
  case_bool_decide as Hmask; [simplify_eq; split; [done|by left]|].
  destruct (at2 (adj_out s) p) as [a|] eqn:Ha; [|done]. simpl in Hk.
  destruct (flag d a) eqn:Hflag; [simplify_eq; split; [done|by left]|].
  destruct (EqClass.eq (pos2ec s) p (neighbor d p)) as [[ecs same]|] eqn:Heq;
    [|done].
  simpl in Hk.
  destruct (eq_spec _ _ _ _ _ _ _ Heq (coh_ecs _ _ _ _ Hcoh))
    as (Hwf1 & Hpres1 & Hsame & Hp & Hq).
  pose proof (coherent_compress _ _ _ Hcoh Hwf1 Hpres1) as Hcoh1.
  destruct same.
  { simplify_eq. split; [done|by left]. }
  destruct (set2 (adj_out s) p (raise_flag d a)) as [adj'|] eqn:Hset; [|done].
  simpl in Hk.
  destruct (EqClass.merge ecs p (neighbor d p)) as [ecs'|] eqn:Hmerge; [|done].
  simpl in Hk.
  destruct (EqClass.eq ecs' (sy, sx) (fy, fx)) as [[ecs'' joined]|] eqn:Heq';
    [|done].
  simpl in Hk.
  assert (¬ EqClass.same_class (pos2ec s) p (neighbor d p)) as Hdiff.
  { intros ?%Hsame. done. }
  assert (¬ EqClass.same_class ecs p (neighbor d p)) as Hdiff1.
  { intros ?%(proj2 (well_formed_preserved _ _ _ _
                 (coh_ecs _ _ _ _ Hcoh) (proj1 Hwf1) Hpres1)). done. }
  pose proof (coherent_knock _ _ _ _ _ _ _ Hcoh1 Ha Hset Hq Hdiff1 Hmerge)
    as Hcoh2.
  destruct (eq_spec _ _ _ _ _ _ _ Heq' (coh_ecs _ _ _ _ Hcoh2))
    as (Hwf3 & Hpres3 & Hjoined & Hstart & Hfinish).
  pose proof (coherent_compress _ _ _ Hcoh2 Hwf3 Hpres3) as Hcoh3.
  assert (coherent Width Height (adj_out (flow_state fl))
            (pos2ec (flow_state fl)) ∧
          adj_out (flow_state fl) = adj' ∧ is_break fl = joined)
    as (Hres & Hadj & Hbrk).
  { destruct joined; simplify_eq; done. }
  split; [done|]. right. exists a. rewrite Hadj, Hbrk.
  split_and!; try done.
  - intros ?%(coh_classes _ _ _ _ Hcoh); done.
  - rewrite Hjoined. by apply (coh_classes _ _ _ _ Hcoh2).
Qed.

Lemma iteration_spec s fl :
  coherent Width Height (adj_out s) (pos2ec s) →
  iteration rng Width Height sx sy fx fy mask s = Some fl →
  coherent Width Height (adj_out (flow_state fl)) (pos2ec (flow_state fl)) ∧
  (skipped s fl ∨
   ∃ d p, wall_removed Width Height sx sy fx fy mask d p s fl).
Proof.
  intros Hcoh Hit. unfold iteration, rand, c_rem in Hit. simpl in Hit.
  repeat case_decide; simplify_eq/=;
    apply knock_spec in Hit as [Hcoh' [Hskip|Hrem]]; try done;
    (split; [done|]); eauto.
Qed.

(** All walls up and every cell in a class of its own. *)
Lemma init_coherent s :
  Generate_init Width Height = Some s →
  coherent Width Height (adj_out s) (pos2ec s).
Proof.
  unfold Generate_init. case_decide as Hneg; [done|]. intros [= <-]. simpl.
  assert (0 ≤ Height ∧ (0 < Height → 0 ≤ Width)) as [Hh Hw] by lia.
  split.
  - by apply resize2_rect.
  - by apply init_well_formed.
  - intros p q Hp Hq. rewrite connected_rtc. split.
    + intros (r & ->%init_root_of & ->%init_root_of). done.
    + intros <-%rtc_edge_init.
      destruct (proj2 (init_well_formed Width Height Hh Hw) p Hp) as [r Hr].
      by exists r.
  - apply acyclic_empty. intros p q. apply edge_init.
  - intros p a d ->%at2_resize2. by destruct d.
Qed.

Lemma loop_head_coherent s :
  loop_head rng Width Height sx sy fx fy mask s →
  coherent Width Height (adj_out s) (pos2ec s).
Proof.
  induction 1 as [s Hinit|s s' _ IH Hit]; [by apply init_coherent|].
  by destruct (iteration_spec _ _ IH Hit) as [? _].
Qed.

(** When the loop ends, it ends by the [break] of an iteration that
    started at the top of the loop. *)
Lemma Generate_loop_returned fuel s s' :
  Generate_loop rng Width Height sx sy fx fy mask fuel s = Returned s' →
  loop_head rng Width Height sx sy fx fy mask s →
  ∃ s0, loop_head rng Width Height sx sy fx fy mask s0 ∧
        iteration rng Width Height sx sy fx fy mask s0 = Some (Break s').
Proof.
  revert s. induction fuel as [|fuel IH]; intros s Hret Hhead; [done|].
  simpl in Hret.
  destruct (iteration rng Width Height sx sy fx fy mask s)
    as [[s1|s1]|] eqn:Hit; [|simplify_eq; eauto|done].
  eapply IH; [done|]. by eapply head_next.
Qed.

Lemma Generate_run_returned fuel s' :
  Generate_run rng Width Height sx sy fx fy mask fuel = Returned s' →
  ∃ s0, loop_head rng Width Height sx sy fx fy mask s0 ∧
        iteration rng Width Height sx sy fx fy mask s0 = Some (Break s').
Proof.
  unfold Generate_run.
  destruct (Generate_init Width Height) as [s|] eqn:Hinit; [|done].
  intros Hret. eapply Generate_loop_returned; [done|]. by apply head_first.
Qed.

Lemma Generate_returned fuel adj :
  Generate rng Width Height sx sy fx fy mask fuel = Returned adj →
  ∃ s0 s', loop_head rng Width Height sx sy fx fy mask s0 ∧
           iteration rng Width Height sx sy fx fy mask s0 = Some (Break s') ∧
           adj = adj_out s'.
Proof.
  unfold Generate.
  destruct (Generate_run rng Width Height sx sy fx fy mask fuel)
    as [s'| |] eqn:Hrun; [|done..].
  intros [= <-]. apply Generate_run_returned in Hrun as (s0 & ? & ?). eauto.
Qed.

(** The last iteration removes a wall and joins start and finish. *)
Lemma break_spec s s' :
  loop_head rng Width Height sx sy fx fy mask s →
  iteration rng Width Height sx sy fx fy mask s = Some (Break s') →
  coherent Width Height (adj_out s') (pos2ec s') ∧
  connected (adj_out s') Width Height (sy, sx) (fy, fx) ∧
  ∃ d p, wall_removed Width Height sx sy fx fy mask d p s (Break s').
Proof.
  intros Hhead Hit.
  destruct (iteration_spec _ _ (loop_head_coherent _ Hhead) Hit)
    as [Hcoh [[? _]|(d & p & Hrem)]]; [done|].
  split_and!; [done| |eauto].
  destruct Hrem as (a & _ & _ & _ & _ & _ & _ & _ & _ & _ & _ & Hbrk).
  by apply Hbrk.
Qed.

(** As long as the loop runs, start and finish are apart. *)
Lemma loop_head_apart s :
  (sy, sx) ≠ (fy, fx) →
  loop_head rng Width Height sx sy fx fy mask s →
  ¬ connected (adj_out s) Width Height (sy, sx) (fy, fx).
Proof.
  intros Hne. induction 1 as [s Hinit|s s' Hhead IH Hit].
  - pose proof (init_coherent _ Hinit) as Hcoh.
    unfold Generate_init in Hinit. case_decide; [done|]. simplify_eq/=.
    by intros ?%connected_rtc%rtc_edge_init.
  - destruct (iteration_spec _ _ (loop_head_coherent _ Hhead) Hit)
      as [_ [[_ Heq]|(d & p & a & Hrem)]]; simpl in *.
    + by rewrite Heq.
    + destruct Hrem as (_ & _ & _ & _ & _ & _ & _ & _ & _ & _ & Hbrk).
      intros ?%Hbrk. done.
Qed.

(** The walls on the east and south sides of a masked cell stay up. *)
Lemma iteration_masked s fl :
  coherent Width Height (adj_out s) (pos2ec s) →
  iteration rng Width Height sx sy fx fy mask s = Some fl →
  (∀ p a, p ∈ mask → at2 (adj_out s) p = Some a → a = Adjacency_init) →
  ∀ p a, p ∈ mask → at2 (adj_out (flow_state fl)) p = Some a →
         a = Adjacency_init.
Proof.
  intros Hcoh Hit Hold p a Hp Ha.
  destruct (iteration_spec _ _ Hcoh Hit)
    as [_ [[_ Heq]|(d & p' & a' & Hp' & _ & _ & Hset & _)]].
  - rewrite Heq in Ha. by eapply Hold.
  - rewrite (at2_set2_ne _ _ _ _ _ Hset) in Ha; [by eapply Hold|].
    by intros ->.
Qed.

Lemma loop_head_masked s :
  loop_head rng Width Height sx sy fx fy mask s →
  ∀ p a, p ∈ mask → at2 (adj_out s) p = Some a → a = Adjacency_init.
Proof.
  induction 1 as [s Hinit|s s' Hhead IH Hit].
  - unfold Generate_init in Hinit. case_decide; [done|]. simplify_eq/=.
    intros p a _. apply at2_resize2.
  - apply (iteration_masked _ _ (loop_head_coherent _ Hhead) Hit IH).
Qed.

(** What holds of the matrix that [Generate] returns. *)
Lemma Generate_returned_spec fuel adj :
  Generate rng Width Height sx sy fx fy mask fuel = Returned adj →
  rect Width Height adj ∧
  acyclic (edge adj Width Height) ∧
  connected adj Width Height (sy, sx) (fy, fx) ∧
  in_bounds Width Height (sy, sx) ∧
  (∀ p a d, at2 adj p = Some a → flag d a = true →
            in_bounds Width Height (neighbor d p)) ∧
  (∀ p a, p ∈ mask → at2 adj p = Some a → a = Adjacency_init).
Proof.
  intros (s0 & s' & Hhead & Hit & ->)%Generate_returned.
  destruct (break_spec _ _ Hhead Hit) as (Hcoh & Hconn & d & p & Hrem).
  destruct Hcoh as [Hadj _ _ Hfor Hin].
  destruct Hrem as (a & _ & _ & _ & _ & _ & _ & _ & _ & Hstart & _).
  split_and!; try done.
  apply (iteration_masked _ _ (loop_head_coherent _ Hhead) Hit).
  by apply loop_head_masked.
Qed.

(** Each iteration ends the loop exactly when it has joined start and
    finish. *)
Lemma iteration_break_iff s fl :
  (sy, sx) ≠ (fy, fx) →
  loop_head rng Width Height sx sy fx fy mask s →
  iteration rng Width Height sx sy fx fy mask s = Some fl →
  is_break fl = true ↔
  connected (adj_out (flow_state fl)) Width Height (sy, sx) (fy, fx).
Proof.
  intros Hne Hhead Hit.
  destruct (iteration_spec _ _ (loop_head_coherent _ Hhead) Hit)
    as [_ [[Hbrk Heq]|(d & p & a & Hrem)]].
  - rewrite Hbrk, Heq. split; [done|].
    intros []%loop_head_apart; done.
  - by destruct Hrem as (_ & _ & _ & _ & _ & _ & _ & _ & _ & _ & Hbrk).
Qed.

Section NoFault.
Hypothesis rng_nonneg : ∀ i, 0 ≤ rng i.
Hypothesis Width_ge : 2 ≤ Width.
Hypothesis Height_ge : 2 ≤ Height.
Hypothesis start_in : in_bounds Width Height (sy, sx).
Hypothesis finish_in : in_bounds Width Height (fy, fx).

Lemma knock_is_Some d p s :
  coherent Width Height (adj_out s) (pos2ec s) →
  in_bounds Width Height p → in_bounds Width Height (neighbor d p) →
  is_Some (knock sx sy fx fy mask d p s).
Proof using start_in finish_in.
  intros Hcoh Hp Hq. unfold knock.
  case_bool_decide; [eauto|].
  destruct (in_bounds_at2 _ _ _ _ (coh_adj _ _ _ _ Hcoh) Hp) as [a Ha].
  rewrite Ha. simpl. destruct (flag d a); [eauto|].
  destruct (eq_is_Some _ _ _ _ _ (coh_ecs _ _ _ _ Hcoh) Hp Hq)
    as [[ecs same] Heq].
  rewrite Heq. simpl. destruct same; [eauto|].
  destruct (eq_spec _ _ _ _ _ _ _ Heq (coh_ecs _ _ _ _ Hcoh))
    as (Hwf1 & _).
  destruct (set2_is_Some (adj_out s) p (raise_flag d a)) as [adj' Hset];
    [eauto|].
  rewrite Hset. simpl.
  destruct (merge_is_Some _ _ _ _ _ Hwf1 Hp Hq) as [ecs' Hmerge].
  rewrite Hmerge. simpl.
  destruct (merge_spec _ _ _ _ _ _ Hmerge Hwf1) as [Hwf2 _].
  destruct (eq_is_Some _ _ _ _ _ Hwf2 start_in finish_in)
    as [[ecs'' joined] Heq'].
  rewrite Heq'. simpl. eauto.
Qed.

Lemma iteration_is_Some s :
  coherent Width Height (adj_out s) (pos2ec s) →
  is_Some (iteration rng Width Height sx sy fx fy mask s).
Proof using rng_nonneg Width_ge Height_ge start_in finish_in.
  intros Hcoh. unfold iteration, rand, c_rem. simpl.
  pose proof (rng_nonneg (S (drawn s))) as Hx.
  pose proof (rng_nonneg (S (S (drawn s)))) as Hy.
  repeat case_decide; try lia; simpl; apply knock_is_Some; try done;
    unfold in_bounds; simpl.
  - pose proof (Z.rem_bound_pos (rng (S (drawn s))) (Width - 1)).
    pose proof (Z.rem_bound_pos (rng (S (S (drawn s)))) Height). lia.
  - pose proof (Z.rem_bound_pos (rng (S (drawn s))) (Width - 1)).
    pose proof (Z.rem_bound_pos (rng (S (S (drawn s)))) Height). lia.
  - pose proof (Z.rem_bound_pos (rng (S (drawn s))) Width).
    pose proof (Z.rem_bound_pos (rng (S (S (drawn s)))) (Height - 1)). lia.
  - pose proof (Z.rem_bound_pos (rng (S (drawn s))) Width).
    pose proof (Z.rem_bound_pos (rng (S (S (drawn s)))) (Height - 1)). lia.
Qed.

Lemma Generate_loop_no_fault fuel s :
  loop_head rng Width Height sx sy fx fy mask s →
  Generate_loop rng Width Height sx sy fx fy mask fuel s ≠ Fault.
Proof using rng_nonneg Width_ge Height_ge start_in finish_in.
  revert s. induction fuel as [|fuel IH]; intros s Hhead; [done|].
  simpl. destruct (iteration_is_Some s) as [fl Hit];
    [by apply loop_head_coherent|].
  rewrite Hit. destruct fl as [s'|s']; [|done].
  apply IH. by eapply head_next.
Qed.

(** With a maze of at least two rows and two columns, start and finish
    inside it and a stream of non-negative numbers, [Generate] never
    goes outside a vector, never divides by zero, and [find_rep] always
    comes back. *)
Lemma Generate_no_fault fuel :
  Generate rng Width Height sx sy fx fy mask fuel ≠ Fault.
Proof using rng_nonneg Width_ge Height_ge start_in finish_in.
  unfold Generate, Generate_run.
  destruct (Generate_init Width Height) as [s|] eqn:Hinit.
  - pose proof (Generate_loop_no_fault fuel s (head_first _ _ _ _ _ _ _ _ _ Hinit)).
    by destruct (Generate_loop _ _ _ _ _ _ _ _ _ _).
  - unfold Generate_init in Hinit. case_decide; [lia|done].
Qed.
End NoFault.
End GenerateFacts.

(** * The order of evaluation in [operator==] *)

(** Two matrices of one shape with the same elements are equal. *)
Lemma at2_ext {A} (Width Height : Z) (g g' : list (list A)) :
  rect Width Height g → rect Width Height g' →
  (∀ p, at2 g p = at2 g' p) → g = g'.
Proof.
  intros [Hh Hw] [Hh' Hw'] Hext. apply list_eq. intros i.
  destruct (g !! i) as [row|] eqn:Hrow.
  - destruct (lookup_lt_is_Some_2 g' i) as [row' Hrow'].
    { apply lookup_lt_Some in Hrow. lia. }
    rewrite Hrow'. f_equal. apply list_eq. intros j.
    specialize (Hext (Z.of_nat i, Z.of_nat j)). unfold at2 in Hext.
    simpl in Hext. rewrite bool_decide_eq_true_2 in Hext by lia.
    rewrite !Nat2Z.id in Hext. by rewrite Hrow, Hrow' in Hext.
  - symmetry. apply lookup_ge_None. apply lookup_ge_None in Hrow. lia.
Qed.

Lemma parent_fun (ecs : list (list EqClass)) (p q q' : Pos) :
  EqClass.parent ecs p q → EqClass.parent ecs p q' → q = q'.
Proof. intros [H1 _] [H2 _]. congruence. Qed.

Lemma root_of_rtc (ecs : list (list EqClass)) (p r : Pos) :
  EqClass.root_of ecs p r → rtc (EqClass.parent ecs) p r.
Proof.
  induction 1 as [p Hp|p q r Hp Hq _ IH]; [done|].
  by apply (rtc_l _ p q r).
Qed.

(** The objects on the way from [p] to its representative have the
    representative of [p]. *)
Lemma rtc_parent_root (ecs : list (list EqClass)) (p x r : Pos) :
  rtc (EqClass.parent ecs) p x → EqClass.root_of ecs p r →
  EqClass.root_of ecs x r.
Proof.
  induction 1 as [p|p y x Hpar _ IH]; [done|]. intros Hroot. apply IH.
  destruct Hpar as [Hp Hne].
  inversion Hroot as [p' Hp'|p' q r' Hp' Hq Hr]; subst; [congruence|].
  by assert (q = y) as <- by congruence.
Qed.

Lemma rtc_parent_at_root (ecs : list (list EqClass)) (r x : Pos) :
  at2 ecs r = Some {| rep := r |} → rtc (EqClass.parent ecs) r x → x = r.
Proof.
  intros Hr [->|(y & [Hy Hne] & _)]%rtc_inv; [done|].
  rewrite Hr in Hy. by simplify_eq.
Qed.

(** What one search writes: the objects on the way from [p] point at the
    representative, and every other object is as it was. *)
Lemma find_rep_frame (fuel : nat) (ecs g : list (list EqClass))
    (p r : Pos) :
  EqClass.find_rep fuel ecs p = Some (g, r) →
  (∀ x, rtc (EqClass.parent ecs) p x → at2 g x = Some {| rep := r |}) ∧
  (∀ x, at2 g x = at2 ecs x ∨ rtc (EqClass.parent ecs) p x).
Proof.
  revert p g r. induction fuel as [|fuel IH]; intros p g r; [done|]. simpl.
  destruct (at2 ecs p) as [[q]|] eqn:Hp; [|done]. simpl. case_decide as Hq.
  - destruct (EqClass.find_rep fuel ecs q) as [[g1 r1]|] eqn:Hfind; [|done].
    simpl. destruct (set2 g1 p {| rep := r1 |}) as [g2|] eqn:Hset; [|done].
    intros [= <- <-]. destruct (IH _ _ _ Hfind) as [Hon Hoff]. split.
    + intros x Hx. destruct (decide (x = p)) as [->|Hxp].
      { by eapply at2_set2_eq. }
      rewrite (at2_set2_ne _ _ _ _ x Hset Hxp). apply Hon.
      apply rtc_inv in Hx as [->|(y & Hpar & Hrest)]; [done|].
      by rewrite (parent_fun ecs p q y).
    + intros x. destruct (decide (x = p)) as [->|Hxp]; [by right|].
      rewrite (at2_set2_ne _ _ _ _ x Hset Hxp).
      destruct (Hoff x) as [?|Hrest]; [by left|right].
      by apply (rtc_l _ p q x).
  - intros [= <- <-]. split; [|by left].
    assert (q = p) as -> by (by destruct (decide (q = p))).
    intros x Hx. by rewrite (rtc_parent_at_root ecs p x Hp Hx).
Qed.

Section Order.
Variables Width Height : Z.

(** What two searches in a row write. *)
Lemma find_find_frame (ecs g1 g2 : list (list EqClass)) (p q rp rq : Pos) :
  EqClass.well_formed Width Height ecs →
  EqClass.find ecs p = Some (g1, rp) →
  EqClass.find g1 q = Some (g2, rq) →
  EqClass.root_of ecs p rp ∧ EqClass.root_of ecs q rq ∧
  EqClass.well_formed Width Height g2 ∧
  (∀ x, rtc (EqClass.parent ecs) p x ∨ rtc (EqClass.parent ecs) q x →
        ∃ ρ, EqClass.root_of ecs x ρ ∧ at2 g2 x = Some {| rep := ρ |}) ∧
  (∀ x, at2 g2 x = at2 ecs x ∨
        rtc (EqClass.parent ecs) p x ∨ rtc (EqClass.parent ecs) q x).
Proof.
  intros Hwf Hp Hq.
  destruct (find_spec _ _ _ _ _ _ Hp Hwf) as (Hrp & Hwf1 & Hpres1).
  destruct (find_spec _ _ _ _ _ _ Hq Hwf1) as (Hrq & Hwf2 & Hpres2).
  destruct (find_rep_frame _ _ _ _ _ Hp) as [Hon1 Hoff1].
  destruct (find_rep_frame _ _ _ _ _ Hq) as [Hon2 Hoff2].
  assert (∀ x ρ, EqClass.root_of g1 x ρ → EqClass.root_of ecs x ρ) as Hback.
  { intros x ρ. by apply (roots_reflected Width Height ecs g1 x ρ Hwf
                            (proj1 Hwf1)). }
  assert (at2 g1 rp = Some {| rep := rp |}) as Hrp1.
  { apply Hon1. by apply root_of_rtc. }
  (* the way from [q] after the first search *)
  assert (∀ a x, rtc (EqClass.parent g1) a x →
                 rtc (EqClass.parent ecs) a x ∨
                 rtc (EqClass.parent ecs) p x) as Hways.
  { intros a x. induction 1 as [a|a b x [Hab Hne] Hrest IH]; [by left|].
    destruct (Hoff1 a) as [Heq|Hpa].
    - rewrite Heq in Hab.
      destruct IH as [?|?]; [left|by right]. by apply (rtc_l _ a b x).
    - right. rewrite (Hon1 a Hpa) in Hab.
      assert (b = rp) as -> by congruence.
      rewrite (rtc_parent_at_root g1 rp x Hrp1 Hrest). by apply root_of_rtc. }
  assert (∀ a x, rtc (EqClass.parent ecs) a x →
                 rtc (EqClass.parent g1) a x ∨
                 rtc (EqClass.parent ecs) p x) as Hstays.
  { intros a x. induction 1 as [a|a b x [Hab Hne] Hrest IH]; [by left|].
    destruct (Hoff1 a) as [Heq|Hpa].
    - destruct IH as [?|?]; [left|by right].
      apply (rtc_l _ a b x); [|done]. split; [by rewrite Heq|done].
    - right. etrans; [exact Hpa|].
      apply (rtc_l _ a b x); [by split|done]. }
  split_and!; [done|by apply Hback|done| |].
  - intros x Hx.
    assert (rtc (EqClass.parent g1) q x ∨ rtc (EqClass.parent ecs) p x)
      as [Hqx|Hpx].
    { destruct Hx as [?|Hqx]; [by right|]. by apply Hstays. }
    + exists rq. split; [|by apply Hon2].
      apply Hback. by apply (rtc_parent_root g1 q x rq).
    + exists rp. split; [by apply (rtc_parent_root ecs p x rp)|].
      destruct (Hoff2 x) as [->|Hqx]; [by apply Hon1|].
      rewrite (Hon2 x Hqx). do 2 f_equal.
      apply (root_of_fun g1 x).
      * by apply (rtc_parent_root g1 q x rq).
      * apply Hpres1. by apply (rtc_parent_root ecs p x rp).
  - intros x. destruct (Hoff2 x) as [->|Hqx].
    + destruct (Hoff1 x) as [?|?]; [by left|right; by left].
    + right. destruct (Hways q x Hqx) as [?|?]; [by right|by left].
Qed.

(** The two searches can be made in either order: the same objects are
    redirected and the same representatives found. *)
Lemma find_find_comm (ecs g1 g2 g1' g2' : list (list EqClass))
    (p q rp rq rp' rq' : Pos) :
  EqClass.well_formed Width Height ecs →
  EqClass.find ecs p = Some (g1, rp) →
  EqClass.find g1 q = Some (g2, rq) →
  EqClass.find ecs q = Some (g1', rq') →
  EqClass.find g1' p = Some (g2', rp') →
  g2 = g2' ∧ rp = rp' ∧ rq = rq'.
Proof.
  intros Hwf Hp Hq Hq' Hp'.
  destruct (find_find_frame _ _ _ _ _ _ _ Hwf Hp Hq)
    as (Hrp & Hrq & Hwf2 & Hon & Hoff).
  destruct (find_find_frame _ _ _ _ _ _ _ Hwf Hq' Hp')
    as (Hrq' & Hrp' & Hwf2' & Hon' & Hoff').
  split_and!; [|by apply (root_of_fun ecs p)|by apply (root_of_fun ecs q)].
  apply (at2_ext Width Height); [apply Hwf2|apply Hwf2'|]. intros x.
  assert (rtc (EqClass.parent ecs) p x ∨ rtc (EqClass.parent ecs) q x →
          at2 g2 x = at2 g2' x) as Hsame.
  { intros Hx. destruct (Hon x Hx) as (ρ & Hρ & ->).
    destruct (Hon' x) as (ρ' & Hρ' & ->); [tauto|].
    by rewrite (root_of_fun ecs x ρ ρ'). }
  destruct (Hoff x) as [Heq|Hx]; [|by apply Hsame].
  destruct (Hoff' x) as [Heq'|Hx]; [congruence|]. apply Hsame. tauto.
Qed.

Lemma find_in_bounds (ecs g : list (list EqClass)) (p r : Pos) :
  EqClass.well_formed Width Height ecs →
  EqClass.find ecs p = Some (g, r) →
  in_bounds Width Height p ∧ EqClass.well_formed Width Height g.
Proof.
  intros Hwf Hfind.
  destruct (find_spec _ _ _ _ _ _ Hfind Hwf) as (Hr & Hwf' & _).
  split; [|done]. exact (proj1 (root_of_in_bounds _ _ _ _ _ (proj1 Hwf) Hr)).
Qed.

(** [operator==] returns the same value and leaves the same structure,
    whichever operand is evaluated first. *)
Lemma eq_in_order_irrelevant (this_first : bool)
    (ecs : list (list EqClass)) (this other : Pos) :
  EqClass.well_formed Width Height ecs →
  eq_in_order this_first ecs this other = EqClass.eq ecs this other.
Proof.
  intros Hwf. destruct this_first; [done|]. unfold eq_in_order, EqClass.eq.
  destruct (EqClass.find ecs this) as [[g1 rp]|] eqn:Hp; simpl.
  - destruct (find_in_bounds _ _ _ _ Hwf Hp) as [Hthis Hwf1].
    destruct (EqClass.find g1 other) as [[g2 rq]|] eqn:Hq; simpl.
    + destruct (find_in_bounds _ _ _ _ Hwf1 Hq) as [Hother _].
      destruct (find_is_Some _ _ _ _ Hwf Hother) as [[g1' rq'] Hq'].
      rewrite Hq'. simpl.
      destruct (find_in_bounds _ _ _ _ Hwf Hq') as [_ Hwf1'].
      destruct (find_is_Some _ _ _ _ Hwf1' Hthis) as [[g2' rp'] Hp'].
      rewrite Hp'. simpl.
      by destruct (find_find_comm _ _ _ _ _ _ _ _ _ _ _ Hwf Hp Hq Hq' Hp')
        as (-> & -> & ->).
    + destruct (EqClass.find ecs other) as [[g1' rq']|] eqn:Hq'; [|done].
      destruct (find_in_bounds _ _ _ _ Hwf Hq') as [Hother _].
      destruct (find_is_Some _ _ _ _ Hwf1 Hother) as [? Hsome]. congruence.
  - destruct (EqClass.find ecs other) as [[g1' rq']|] eqn:Hq'; [|done].
    simpl. destruct (find_in_bounds _ _ _ _ Hwf Hq') as [_ Hwf1'].
    destruct (EqClass.find g1' this) as [[g2' rp']|] eqn:Hp'; [|done].
    destruct (find_in_bounds _ _ _ _ Hwf1' Hp') as [Hthis _].
    destruct (find_is_Some _ _ _ _ Hwf Hthis) as [? Hsome]. congruence.
Qed.
End Order.

Section GenerateInOrderFacts.
Variable order : nat → bool → bool.
Variable rng : nat → Z.
Variables Width Height sx sy fx fy : Z.
Variable mask : Mask.

Lemma knock_in_order_eq (d : Dir) (p : Pos) (s : GenState) :
  EqClass.well_formed Width Height (pos2ec s) →
  knock_in_order order sx sy fx fy mask d p s = knock sx sy fx fy mask d p s.
Proof.
  intros Hwf. unfold knock_in_order, knock.
  case_bool_decide; [done|].
  destruct (at2 (adj_out s) p) as [a|]; [|done]. simpl.
  destruct (flag d a); [done|].
  rewrite (eq_in_order_irrelevant Width Height) by done.
  destruct (EqClass.eq (pos2ec s) p (neighbor d p)) as [[ecs same]|] eqn:Heq;
    [|done].
  simpl. destruct same; [done|].
  destruct (set2 (adj_out s) p (raise_flag d a)) as [adj'|]; [|done]. simpl.
  destruct (EqClass.merge ecs p (neighbor d p)) as [ecs'|] eqn:Hm; [|done].
  simpl. rewrite (eq_in_order_irrelevant Width Height); [done|].
  destruct (eq_spec _ _ _ _ _ _ _ Heq Hwf) as (Hwf1 & _).
  by destruct (merge_spec _ _ _ _ _ _ Hm Hwf1) as [Hwf2 _].
Qed.

Lemma iteration_in_order_eq (s : GenState) :
  EqClass.well_formed Width Height (pos2ec s) →
  iteration_in_order order rng Width Height sx sy fx fy mask s =
  iteration rng Width Height sx sy fx fy mask s.
Proof.
  intros Hwf. unfold iteration_in_order, iteration, rand.
  case_decide.
  - destruct (c_rem _ (Width - 1)) as [x|]; [|done]. simpl.
    destruct (c_rem _ Height) as [y|]; [|done]. simpl.
    by apply knock_in_order_eq.
  - destruct (c_rem _ Width) as [x|]; [|done]. simpl.
    destruct (c_rem _ (Height - 1)) as [y|]; [|done]. simpl.
    by apply knock_in_order_eq.
Qed.

Lemma Generate_loop_in_order_eq (fuel : nat) (s : GenState) :
  loop_head rng Width Height sx sy fx fy mask s →
  Generate_loop_in_order order rng Width Height sx sy fx fy mask fuel s =
  Generate_loop rng Width Height sx sy fx fy mask fuel s.
Proof.
  revert s. induction fuel as [|fuel IH]; intros s Hhead; [done|]. simpl.
  rewrite iteration_in_order_eq
    by apply (coh_ecs _ _ _ _ (loop_head_coherent _ _ _ _ _ _ _ _ _ Hhead)).
  destruct (iteration rng _ _ _ _ _ _ _ s) as [[s'|s']|] eqn:Hit; [|done..].
  apply IH. by eapply head_next.
Qed.

(** The matrix that [Generate] returns does not depend on the order in
    which the operands of [==] are evaluated. *)
Lemma Generate_in_order_eq (fuel : nat) :
  Generate_in_order order rng Width Height sx sy fx fy mask fuel =
  Generate rng Width Height sx sy fx fy mask fuel.
Proof.
  unfold Generate_in_order, Generate, Generate_run.
  destruct (Generate_init Width Height) as [s|] eqn:Hinit; [|done].
  rewrite Generate_loop_in_order_eq; [done|]. by apply head_first.
Qed.
End GenerateInOrderFacts.

(** ** Solve *)

Section PopBack.
Context {A : Type}.
Implicit Types (v r : list A) (x : A).

Lemma pop_back_snoc r x : pop_back (r ++ [x]) = Some (r, x).
Proof.
  induction r as [|a r IH]; [done|].
  change ((a :: r) ++ [x]) with (a :: (r ++ [x])).
  simpl. rewrite IH. by destruct r.
Qed.

Lemma pop_back_None v : pop_back v = None → v = [].
Proof.
  destruct v as [|a v] using rev_ind; [done|]. by rewrite pop_back_snoc.
Qed.

Lemma pop_back_Some v r x : pop_back v = Some (r, x) → v = r ++ [x].
Proof.
  destruct v as [|a v] using rev_ind; [done|].
  rewrite pop_back_snoc. by intros [= -> ->].
Qed.
End PopBack.

Section SolveFacts.
Variable adj : Connections.
Variables Width Height : Z.
Hypothesis adj_rect : rect Width Height adj.
Implicit Types (path : Path) (fringe : list Path) (p q : Pos).

Lemma try_step_spec (guard : bool) q d path p2 fringe :
  (guard = true → in_bounds Width Height q) →
  ∃ new, try_step adj guard q d path p2 fringe = Some (fringe ++ new) ∧
         (new = [] ∨
          new = [path ++ [p2]] ∧ guard = true ∧ wall_open adj d q ∧
          p2 ∉ path) ∧
         (guard = true → wall_open adj d q → p2 ∉ path →
          new = [path ++ [p2]]).
Proof using adj_rect.
  intros Hq. unfold try_step, step, wall_open. destruct guard.
  - destruct (in_bounds_at2 _ _ _ _ adj_rect (Hq eq_refl)) as [a Ha].
    rewrite Ha. simpl. destruct (flag d a) eqn:Hf.
    + case_bool_decide as Hin.
      * exists []. rewrite app_nil_r. split_and!; [done|by left|done].
      * exists [path ++ [p2]]. split_and!; [done| |done]. right.
        split_and!; eauto.
    + exists []. rewrite app_nil_r. split_and!; [done|by left|].
      intros _ (a' & ? & ?). simplify_eq. congruence.
  - exists []. rewrite app_nil_r. split_and!; [done|by left|done].
Qed.

(** The four neighbour tests push exactly the extensions of [path] by a
    cell that is one step through an open wall away and not yet on it. *)
Lemma expand_spec path p1 fringe :
  in_bounds Width Height p1 →
  ∃ new, expand adj Width Height path p1 fringe = Some (fringe ++ new) ∧
         (length new ≤ 4)%nat ∧
         (∀ path', path' ∈ new →
            ∃ q, path' = path ++ [q] ∧ edge adj Width Height p1 q ∧
                 q ∉ path) ∧
         (∀ q, edge adj Width Height p1 q → q ∉ path →
               path ++ [q] ∈ new).
Proof using adj_rect.
  intros Hp1. destruct p1 as [y x]. destruct Hp1 as [Hy Hx]. simpl in *.
  unfold expand. simpl.
  destruct (try_step_spec (bool_decide (0 ≤ y - 1)) (y - 1, x) South
              path (y - 1, x) fringe) as (n1 & -> & Hn1 & Hn1');
    [intros ?%bool_decide_eq_true; unfold in_bounds; simpl; lia|].
  simpl.
  destruct (try_step_spec (bool_decide (x + 1 < Width)) (y, x) East
              path (y, x + 1) (fringe ++ n1)) as (n2 & -> & Hn2 & Hn2');
    [intros _; unfold in_bounds; simpl; lia|].
  simpl.
  destruct (try_step_spec (bool_decide (y + 1 < Height)) (y, x) South
              path (y + 1, x) ((fringe ++ n1) ++ n2))
    as (n3 & -> & Hn3 & Hn3');
    [intros _; unfold in_bounds; simpl; lia|].
  simpl.
  destruct (try_step_spec (bool_decide (0 ≤ x - 1)) (y, x - 1) East
              path (y, x - 1) (((fringe ++ n1) ++ n2) ++ n3))
    as (n4 & -> & Hn4 & Hn4');
    [intros ?%bool_decide_eq_true; unfold in_bounds; simpl; lia|].
  exists (n1 ++ n2 ++ n3 ++ n4). split; [by rewrite !(assoc_L (++))|].
  assert (in_bounds Width Height (y, x)) as Hp1 by done.
  split_and!.
  - rewrite !length_app.
    destruct Hn1 as [->|[-> _]], Hn2 as [->|[-> _]],
             Hn3 as [->|[-> _]], Hn4 as [->|[-> _]]; simpl; lia.
  - intros path'. rewrite !elem_of_app. intros [Hin|[Hin|[Hin|Hin]]].
    + destruct Hn1 as [->|(-> & Hg%bool_decide_eq_true & Hw & Hnin)];
        [by apply elem_of_nil in Hin|].
      apply list_elem_of_singleton in Hin as ->.
      eexists; split_and!; [done| |done]. exists South. right.
      split_and!; [unfold in_bounds; simpl; lia|done|simpl; f_equal; lia|done].
    + destruct Hn2 as [->|(-> & Hg%bool_decide_eq_true & Hw & Hnin)];
        [by apply elem_of_nil in Hin|].
      apply list_elem_of_singleton in Hin as ->.
      eexists; split_and!; [done| |done]. exists East. left.
      split_and!; [done|unfold in_bounds; simpl in *; lia|done..].
    + destruct Hn3 as [->|(-> & Hg%bool_decide_eq_true & Hw & Hnin)];
        [by apply elem_of_nil in Hin|].
      apply list_elem_of_singleton in Hin as ->.
      eexists; split_and!; [done| |done]. exists South. left.
      split_and!; [done|unfold in_bounds; simpl in *; lia|done..].
    + destruct Hn4 as [->|(-> & Hg%bool_decide_eq_true & Hw & Hnin)];
        [by apply elem_of_nil in Hin|].
      apply list_elem_of_singleton in Hin as ->.
      eexists; split_and!; [done| |done]. exists East. right.
      split_and!; [unfold in_bounds; simpl; lia|done|simpl; f_equal; lia|done].
  - intros q [d [(_ & [Hqy Hqx] & -> & Hw)|([Hqy Hqx] & _ & Heq & Hw)]] Hnin;
      rewrite !elem_of_app; destruct d; simpl in *.
    + right; left. rewrite Hn2'; [by apply list_elem_of_singleton|..];
        try done. apply bool_decide_eq_true. lia.
    + right; right; left. rewrite Hn3'; [by apply list_elem_of_singleton|..];
        try done. apply bool_decide_eq_true. lia.
    + right; right; right. destruct q as [qy qx]. simplify_eq/=.
      replace (qx + 1 - 1) with qx in * by lia.
      rewrite Hn4'; [by apply list_elem_of_singleton|..]; try done.
      apply bool_decide_eq_true. lia.
    + left. destruct q as [qy qx]. simplify_eq/=.
      replace (qy + 1 - 1) with qy in * by lia.
      rewrite Hn1'; [by apply list_elem_of_singleton|..]; try done.
      apply bool_decide_eq_true. lia.
Qed.

(** *** The measure that bounds the search *)

Lemma free_snoc path q :
  in_bounds Width Height q → q ∉ path →
  (free Width Height (path ++ [q]) < free Width Height path)%nat.
Proof.
  intros Hq Hnin. unfold free.
  rewrite <-(list_filter_filter_l (λ c, c ∉ path ++ [q]) (λ c, c ∉ path)).
  - apply (length_filter_lt _ _ q).
    + apply list_elem_of_filter. split; [done|by apply elem_of_cells].
    + intros Hn. apply Hn, elem_of_app. right. by apply list_elem_of_singleton.
  - intros c Hc Hin. apply Hc, elem_of_app. by left.
Qed.

Lemma weight_pos path : (1 ≤ weight Width Height path)%nat.
Proof.
  unfold weight. induction (free Width Height path) as [|n IH]; simpl; lia.
Qed.

Lemma weight_snoc path q :
  in_bounds Width Height q → q ∉ path →
  (5 * weight Width Height (path ++ [q]) ≤ weight Width Height path)%nat.
Proof.
  intros Hq Hnin. pose proof (free_snoc path q Hq Hnin) as Hlt.
  unfold weight. change (5 * 5 ^ ?n)%nat with (5 ^ S n)%nat.
  apply Nat.pow_le_mono_r; lia.
Qed.

Lemma fringe_weight_new (new : list Path) (w : nat) :
  (∀ path', path' ∈ new → (5 * weight Width Height path' ≤ w)%nat) →
  (5 * fringe_weight Width Height new ≤ length new * w)%nat.
Proof.
  unfold fringe_weight. induction new as [|path' new IH]; intros Hall.
  - simpl. lia.
  - simpl. pose proof (Hall path' ltac:(left)).
    assert (5 * sum_list_with (weight Width Height) new ≤ length new * w)%nat
      by (apply IH; intros ??; apply Hall; by right).
    lia.
Qed.

(** *** The paths of the fringe *)

Section Loop.
Variables sx sy fx fy : Z.
Hypothesis start_in : in_bounds Width Height (sy, sx).

Lemma good_path_start : good_path adj Width Height sx sy [(sy, sx)].
Proof. split; [done|]. split; [apply NoDup_singleton|done]. Qed.

Lemma chain_last_in_bounds path p q :
  chain (edge adj Width Height) path → joins path p q →
  in_bounds Width Height p → in_bounds Width Height q.
Proof.
  intros Hc Hj%(chain_rtc (edge adj Width Height)) Hp; [|done].
  induction Hj as [|x y z Hxy _ IH]; [done|].
  apply IH. by apply edge_in_bounds in Hxy as [_ ?].
Qed.

Lemma good_path_last path p1 :
  good_path adj Width Height sx sy path → last path = Some p1 →
  in_bounds Width Height p1.
Proof using start_in.
  intros [Hh [_ Hc]] Hl. by eapply chain_last_in_bounds.
Qed.

Lemma good_path_snoc path p1 q :
  good_path adj Width Height sx sy path → last path = Some p1 →
  edge adj Width Height p1 q → q ∉ path →
  good_path adj Width Height sx sy (path ++ [q]).
Proof.
  intros [Hh [Hnd Hc]] Hl He Hnin. split; [|split].
  - destruct path; simplify_eq/=; done.
  - apply NoDup_app. split_and!; [done| |apply NoDup_singleton].
    intros x Hx ->%list_elem_of_singleton. done.
  - by eapply chain_snoc.
Qed.

(** One pass through the loop body, on a fringe of good paths. *)
Lemma Solve_pop fringe :
  Forall (good_path adj Width Height sx sy) fringe →
  fringe = [] ∨
  ∃ fringe' path p1 new,
    fringe = fringe' ++ [path] ∧ last path = Some p1 ∧
    good_path adj Width Height sx sy path ∧
    Forall (good_path adj Width Height sx sy) fringe' ∧
    expand adj Width Height path p1 fringe' = Some (fringe' ++ new) ∧
    Forall (good_path adj Width Height sx sy) (fringe' ++ new) ∧
    (∀ q, edge adj Width Height p1 q → q ∉ path → path ++ [q] ∈ new) ∧
    (fringe_weight Width Height (fringe' ++ new) <
     fringe_weight Width Height fringe)%nat.
Proof using adj_rect start_in.
  intros Hgood. destruct fringe as [|path fringe' _] using rev_ind;
    [by left|right].
  apply Forall_app in Hgood as [Hgood' [Hpath _]%Forall_cons].
  assert (∃ p1, last path = Some p1) as [p1 Hl].
  { destruct Hpath as [Hh _]. apply last_is_Some. by intros ->. }
  pose proof (good_path_last _ _ Hpath Hl) as Hp1.
  destruct (expand_spec path p1 fringe' Hp1)
    as (new & Hexp & Hlen & Hnew & Hall).
  exists fringe', path, p1, new. split_and!; try done.
  - apply Forall_app. split; [done|]. apply Forall_forall.
    intros path' (q & -> & He & Hnin)%Hnew. by eapply good_path_snoc.
  - unfold fringe_weight. rewrite !sum_list_with_app. simpl.
    pose proof (weight_pos path).
    pose proof (fringe_weight_new new (weight Width Height path)) as Hw.
    unfold fringe_weight in Hw.
    assert (5 * sum_list_with (weight Width Height) new ≤
            length new * weight Width Height path)%nat as Hw'.
    { apply Hw. intros path' (q & -> & He & Hnin)%Hnew.
      apply weight_snoc; [|done]. by apply edge_in_bounds in He as [_ ?]. }
    nia.
Qed.

Lemma Solve_loop_step fuel fringe' path p1 new path_out :
  last path = Some p1 →
  expand adj Width Height path p1 fringe' = Some (fringe' ++ new) →
  Solve_loop adj Width Height fx fy (S fuel) (fringe' ++ [path]) path_out =
  if bool_decide (p1.1 = fy ∧ p1.2 = fx) then Returned (true, path)
  else Solve_loop adj Width Height fx fy fuel (fringe' ++ new) path_out.
Proof.
  intros (r & ->)%last_Some Hexp. simpl.
  rewrite !pop_back_snoc. by rewrite Hexp.
Qed.

Lemma Solve_loop_empty fuel path_out :
  Solve_loop adj Width Height fx fy (S fuel) [] path_out =
  Returned (false, path_out).
Proof. done. Qed.

(** The loop always comes to an end. *)
Lemma Solve_loop_returns fuel fringe path_out :
  Forall (good_path adj Width Height sx sy) fringe →
  (fringe_weight Width Height fringe < fuel)%nat →
  ∃ r, Solve_loop adj Width Height fx fy fuel fringe path_out = Returned r.
Proof using adj_rect start_in.
  revert fringe. induction fuel as [|fuel IH]; intros fringe Hgood Hw; [lia|].
  destruct (Solve_pop fringe Hgood)
    as [->|(fringe' & path & p1 & new & -> & Hl & _ & _ & Hexp & Hgood'
            & _ & Hlt)].
  - eauto.
  - rewrite (Solve_loop_step _ _ _ _ _ _ Hl Hexp).
    case_bool_decide; [eauto|]. apply IH; [done|lia].
Qed.

(** A path that is returned is a good path that ends at the finish. *)
Lemma Solve_loop_sound fuel fringe path_out path :
  Forall (good_path adj Width Height sx sy) fringe →
  Solve_loop adj Width Height fx fy fuel fringe path_out =
    Returned (true, path) →
  good_path adj Width Height sx sy path ∧ last path = Some (fy, fx).
Proof using adj_rect start_in.
  revert fringe. induction fuel as [|fuel IH]; intros fringe Hgood; [done|].
  destruct (Solve_pop fringe Hgood)
    as [->|(fringe' & path' & p1 & new & -> & Hl & Hpath & _ & Hexp & Hgood'
            & _ & _)].
  - done.
  - rewrite (Solve_loop_step _ _ _ _ _ _ Hl Hexp).
    case_bool_decide as Hfin; [|by apply IH].
    intros [= <-]. split; [done|]. rewrite Hl. destruct p1, Hfin. simpl in *.
    by subst.
Qed.

(** A failed search leaves [path_out] alone. *)
Lemma Solve_loop_false fuel fringe path_out path :
  Solve_loop adj Width Height fx fy fuel fringe path_out =
    Returned (false, path) →
  path = path_out.
Proof.
  revert fringe. induction fuel as [|fuel IH]; intros fringe; [done|].
  simpl. destruct (pop_back fringe) as [[fringe' some_path]|];
    [|by intros [= <-]].
  destruct (pop_back some_path) as [[? p1]|]; [|done].
  case_bool_decide; [done|].
  destruct (expand _ _ _ _ _ _); [apply IH|done].
Qed.

(** Every access of the loop is inside [adj], and no path of the fringe
    is empty. *)
Lemma Solve_loop_no_fault fuel fringe path_out :
  Forall (good_path adj Width Height sx sy) fringe →
  Solve_loop adj Width Height fx fy fuel fringe path_out ≠ Fault.
Proof using adj_rect start_in.
  revert fringe. induction fuel as [|fuel IH]; intros fringe Hgood; [done|].
  destruct (Solve_pop fringe Hgood)
    as [->|(fringe' & path' & p1 & new & -> & Hl & Hpath & _ & Hexp & Hgood'
            & _ & _)].
  - done.
  - rewrite (Solve_loop_step _ _ _ _ _ _ Hl Hexp).
    case_bool_decide; [done|by apply IH].
Qed.

(** A failed search has tried every simple path to the finish that begins
    with a path of the fringe. *)
Lemma Solve_loop_complete fuel fringe path_out path l path0 :
  Forall (good_path adj Width Height sx sy) fringe →
  Solve_loop adj Width Height fx fy fuel fringe path_out =
    Returned (false, path) →
  simple_path (edge adj Width Height) l → last l = Some (fy, fx) →
  path0 ∈ fringe → path0 `prefix_of` l → False.
Proof using adj_rect start_in.
  intros Hgood Hret [Hnd Hc] Hlast. revert fringe Hgood Hret path0.
  induction fuel as [|fuel IH]; intros fringe Hgood Hret path0 Hin Hpre;
    [done|].
  destruct (Solve_pop fringe Hgood)
    as [->|(fringe' & path' & p1 & new & -> & Hl & Hpath & _ & Hexp & Hgood'
            & Hall & _)].
  - by apply elem_of_nil in Hin.
  - rewrite (Solve_loop_step _ _ _ _ _ _ Hl Hexp) in Hret.
    case_bool_decide as Hfin; [done|].
    apply elem_of_app in Hin as [Hin| ->%list_elem_of_singleton].
    + apply (IH _ Hgood' Hret path0); [|done]. apply elem_of_app. by left.
    + destruct Hpre as [rest ->]. destruct rest as [|q rest].
      * rewrite app_nil_r, Hl in Hlast. simplify_eq/=. by apply Hfin.
      * apply last_Some in Hl as [r ->].
        apply (IH _ Hgood' Hret ((r ++ [p1]) ++ [q])).
        -- apply elem_of_app. right. apply Hall.
           ++ rewrite <-!(assoc_L (++)) in Hc. simpl in Hc.
              apply chain_app_r in Hc. by destruct Hc.
           ++ apply NoDup_app in Hnd as (_ & Hdisj & _).
              intros Hq. apply (Hdisj q Hq). by left.
        -- exists rest. by rewrite <-!(assoc_L (++)).
Qed.

(** More fuel does not change the answer, and the answer [true] does not
    depend on what [path_out] held. *)
Lemma Solve_loop_mono fuel fuel' fringe path_out r :
  Solve_loop adj Width Height fx fy fuel fringe path_out = Returned r →
  (fuel ≤ fuel')%nat →
  Solve_loop adj Width Height fx fy fuel' fringe path_out = Returned r.
Proof.
  revert fuel' fringe. induction fuel as [|fuel IH]; intros fuel' fringe;
    [done|].
  intros Hret Hle. destruct fuel' as [|fuel']; [lia|]. simpl in *.
  destruct (pop_back fringe) as [[fringe' some_path]|]; [|done].
  destruct (pop_back some_path) as [[? p1]|]; [|done].
  case_bool_decide; [done|].
  destruct (expand _ _ _ _ _ _); [|done]. apply IH; [done|lia].
Qed.

Lemma Solve_loop_true_any fuel fringe path_out path_out' path :
  Solve_loop adj Width Height fx fy fuel fringe path_out =
    Returned (true, path) →
  Solve_loop adj Width Height fx fy fuel fringe path_out' =
    Returned (true, path).
Proof.
  revert fringe. induction fuel as [|fuel IH]; intros fringe; [done|].
  simpl. destruct (pop_back fringe) as [[fringe' some_path]|]; [|done].
  destruct (pop_back some_path) as [[? p1]|]; [|done].
  case_bool_decide; [done|].
  destruct (expand _ _ _ _ _ _); [apply IH|done].
Qed.

Lemma start_weight :
  (fringe_weight Width Height [[(sy, sx)]] <
   5 ^ (Z.to_nat Height * Z.to_nat Width))%nat.
Proof using start_in.
  unfold fringe_weight, weight, free. simpl. rewrite Nat.add_0_r.
  apply Nat.pow_lt_mono_r; [lia|]. rewrite <-length_cells.
  apply (length_filter_lt _ _ (sy, sx)).
  - by apply elem_of_cells.
  - intros Hn. apply Hn. by apply list_elem_of_singleton.
Qed.

(** A run of [Solve] that answers [false] shows that the finish cannot be
    reached. *)
Lemma Solve_false_apart fuel path_out path :
  Solve adj Width Height sx sy fx fy fuel path_out = Returned (false, path) →
  ¬ connected adj Width Height (sy, sx) (fy, fx).
Proof using adj_rect start_in.
  intros Hret (l & [Hh Hl] & Hsp)%connected_simple_path.
  assert (Forall (good_path adj Width Height sx sy) [[(sy, sx)]]) as Hgood.
  { apply Forall_singleton, good_path_start. }
  apply (Solve_loop_complete _ _ _ _ l [(sy, sx)] Hgood Hret Hsp Hl).
  - by apply list_elem_of_singleton.
  - apply head_Some in Hh as [l' ->]. by exists l'.
Qed.

Lemma Solve_true_path fuel path_out path :
  Solve adj Width Height sx sy fx fy fuel path_out = Returned (true, path) →
  joins path (sy, sx) (fy, fx) ∧ simple_path (edge adj Width Height) path.
Proof using adj_rect start_in.
  intros Hret.
  assert (Forall (good_path adj Width Height sx sy) [[(sy, sx)]]) as Hgood.
  { apply Forall_singleton, good_path_start. }
  by destruct (Solve_loop_sound _ _ _ _ Hgood Hret) as [[Hh Hsp] Hl].
Qed.

(** [Solve] returns, and says whether the finish can be reached. *)
Lemma Solve_decides fuel path_out :
  (5 ^ (Z.to_nat Height * Z.to_nat Width) ≤ fuel)%nat →
  ∃ b path,
    Solve adj Width Height sx sy fx fy fuel path_out = Returned (b, path) ∧
    (b = true ↔ connected adj Width Height (sy, sx) (fy, fx)).
Proof using adj_rect start_in.
  intros Hfuel.
  destruct (Solve_loop_returns fuel [[(sy, sx)]] path_out)
    as [[b path] Hret].
  { apply Forall_singleton, good_path_start. }
  { pose proof start_weight. lia. }
  exists b, path. split; [done|]. destruct b.
  - split; [intros _|done].
    destruct (Solve_true_path _ _ _ Hret) as [Hj [_ Hc]]. by exists path.
  - split; [done|]. by intros []%(Solve_false_apart _ _ _ Hret).
Qed.
End Loop.
End SolveFacts.

(** * The properties of Solve *)

Lemma chain_lookup {V} (E : V → V → Prop) (l : list V) i a b :
  chain E l → l !! i = Some a → l !! S i = Some b → E a b.
Proof.
  revert l. induction i as [|i IH]; intros [|x [|y l]] Hc Ha Hb;
    simplify_eq/=; [by destruct Hc|].
  destruct Hc as [_ Hc]. by apply (IH (y :: l)).
Qed.

Lemma edge_cardinal_step adj Width Height p q :
  edge adj Width Height p q → cardinal_step p q.
Proof.
  unfold cardinal_step.
  intros [d [(_ & _ & -> & _)|(_ & _ & -> & _)]]; destruct d; simpl; lia.
Qed.

Lemma no_walls_apart adj Width Height p q :
  (∀ d c, ¬ wall_open adj d c) →
  connected adj Width Height p q → p = q.
Proof.
  intros Hno Hc%connected_rtc. destruct Hc as [|x y z Hxy _]; [done|].
  destruct Hxy as [d [(_ & _ & _ & Hw)|(_ & _ & _ & Hw)]];
    by apply Hno in Hw.
Qed.

(** C4. For every Height*Width connectivity matrix and every start cell
    inside it, Solve returns (with fuel enough for every simple path), and
    it returns true if and only if a path of steps through open walls leads
    from start to finish; in particular it returns false when no wall is
    open and start and finish differ. *)
Theorem Solve_true_iff_connected
    (adj : Connections) (Width Height sx sy fx fy : Z)
    (fuel : nat) (path_out : Path) :
  rect Width Height adj →
  in_bounds Width Height (sy, sx) →
  (5 ^ (Z.to_nat Height * Z.to_nat Width) ≤ fuel)%nat →
  ∃ b path,
    Solve adj Width Height sx sy fx fy fuel path_out = Returned (b, path) ∧
    (b = true ↔ connected adj Width Height (sy, sx) (fy, fx)) ∧
    ((∀ d c, ¬ wall_open adj d c) → (sy, sx) ≠ (fy, fx) → b = false).
Proof.
  intros Hrect Hstart Hfuel.
  destruct (Solve_decides adj Width Height Hrect sx sy fx fy Hstart
              fuel path_out Hfuel) as (b & path & Hret & Hiff).
  exists b, path. split_and!; [done..|].
  intros Hno Hne. destruct b; [|done].
  exfalso. apply Hne. eapply no_walls_apart; [done|]. by apply Hiff.
Qed.

Lemma maze_two_walls_rect : rect 2 2 maze_two_walls.
Proof. split; [done|]. by repeat constructor. Qed.

Lemma maze_no_walls_rect : rect 2 2 maze_no_walls.
Proof. split; [done|]. by repeat constructor. Qed.

Lemma in_bounds_2_2 y x :
  bool_decide (0 ≤ y < 2 ∧ 0 ≤ x < 2) = true → in_bounds 2 2 (y, x).
Proof. intros ?%bool_decide_eq_true. done. Qed.

Lemma Solve_true_iff_connected_witness :
  ∃ b path,
    Solve maze_two_walls 2 2 0 0 1 1 625 [] = Returned (b, path) ∧
    (b = true ↔ connected maze_two_walls 2 2 (0, 0) (1, 1)) ∧
    ((∀ d c, ¬ wall_open maze_two_walls d c) → (0, 0) ≠ (1, 1) → b = false).
Proof.
  apply (Solve_true_iff_connected maze_two_walls 2 2 0 0 1 1 625 []).
  - exact maze_two_walls_rect.
  - by apply in_bounds_2_2.
  - by vm_compute.
Defined.

(** C5. When Solve returns true, the path it stores begins at start, ends
    at finish, visits no cell twice, and every two consecutive cells of it
    are one cardinal step apart, across a wall whose flag is set. *)
Theorem Solve_path_valid
    (adj : Connections) (Width Height sx sy fx fy : Z)
    (fuel : nat) (path_out path : Path) :
  rect Width Height adj →
  in_bounds Width Height (sy, sx) →
  Solve adj Width Height sx sy fx fy fuel path_out = Returned (true, path) →
  head path = Some (sy, sx) ∧ last path = Some (fy, fx) ∧ NoDup path ∧
  ∀ i p q, path !! i = Some p → path !! S i = Some q →
           cardinal_step p q ∧ edge adj Width Height p q.
Proof.
  intros Hrect Hstart Hret.
  destruct (Solve_true_path adj Width Height Hrect sx sy fx fy Hstart
              fuel path_out path Hret) as [[Hh Hl] [Hnd Hc]].
  split_and!; [done..|]. intros i p q Hp Hq.
  assert (edge adj Width Height p q) as He by (by eapply chain_lookup).
  split; [by eapply edge_cardinal_step|done].
Qed.

Lemma Solve_path_valid_witness :
  head [(0, 0); (0, 1); (1, 1)] = Some (0, 0) ∧
  last [(0, 0); (0, 1); (1, 1)] = Some (1, 1) ∧
  NoDup [(0, 0); (0, 1); (1, 1)] ∧
  ∀ i p q, [(0, 0); (0, 1); (1, 1)] !! i = Some p →
           [(0, 0); (0, 1); (1, 1)] !! S i = Some q →
           cardinal_step p q ∧ edge maze_two_walls 2 2 p q.
Proof.
  apply (Solve_path_valid maze_two_walls 2 2 0 0 1 1 10 []).
  - exact maze_two_walls_rect.
  - by apply in_bounds_2_2.
  - by vm_compute.
Defined.

(** C8. On a Height*Width matrix and from a start cell inside it, Solve
    never reads outside the matrix: each of the four neighbour tests finds
    the cell it reads, and no run of Solve ends in a fault. *)
Theorem Solve_reads_in_bounds
    (adj : Connections) (Width Height sx sy fx fy : Z) :
  rect Width Height adj →
  in_bounds Width Height (sy, sx) →
  (∀ path p1 fringe, in_bounds Width Height p1 →
     is_Some (expand adj Width Height path p1 fringe)) ∧
  (∀ fuel path_out,
     Solve adj Width Height sx sy fx fy fuel path_out ≠ Fault).
Proof.
  intros Hrect Hstart. split.
  - intros path p1 fringe Hp1.
    destruct (expand_spec adj Width Height Hrect path p1 fringe Hp1)
      as (new & -> & _). eauto.
  - intros fuel path_out. apply (Solve_loop_no_fault adj Width Height Hrect
                                   sx sy fx fy Hstart).
    apply Forall_singleton, good_path_start.
Qed.

Lemma Solve_reads_in_bounds_witness :
  (∀ path p1 fringe, in_bounds 2 2 p1 →
     is_Some (expand maze_two_walls 2 2 path p1 fringe)) ∧
  (∀ fuel path_out,
     Solve maze_two_walls 2 2 0 0 1 1 fuel path_out ≠ Fault).
Proof.
  apply (Solve_reads_in_bounds maze_two_walls 2 2 0 0 1 1).
  - exact maze_two_walls_rect.
  - by apply in_bounds_2_2.
Defined.

(** C10. When Solve returns false, [path_out] is as the caller passed it. *)
Theorem Solve_false_keeps_path_out
    (adj : Connections) (Width Height sx sy fx fy : Z)
    (fuel : nat) (path_out path : Path) :
  Solve adj Width Height sx sy fx fy fuel path_out = Returned (false, path) →
  path = path_out.
Proof. apply Solve_loop_false. Qed.

Lemma Solve_false_keeps_path_out_witness :
  Solve maze_no_walls 2 2 0 0 1 1 10 [(7, 7); (7, 8)] =
    Returned (false, [(7, 7); (7, 8)]) ∧
  [(7, 7); (7, 8)] = [(7, 7); (7, 8)].
Proof.
  split; [by vm_compute|].
  apply (Solve_false_keeps_path_out maze_no_walls 2 2 0 0 1 1 10
           [(7, 7); (7, 8)] [(7, 7); (7, 8)]).
  by vm_compute.
Defined.

(** * The properties of Generate *)

(** ** The mask *)

(** The walls on the east and on the south side of a masked cell are up in
    the matrix that Generate returns. *)
Lemma Generate_keeps_east_south_of_masked
    (rng : nat → Z) (Width Height sx sy fx fy : Z) (mask : Mask)
    (fuel : nat) (adj : Connections) (p : Pos) (a : Adjacency) :
  Generate rng Width Height sx sy fx fy mask fuel = Returned adj →
  p ∈ mask → at2 adj p = Some a →
  to_east a = false ∧ to_south a = false.
Proof.
  intros (_ & _ & _ & _ & _ & Hmask)%Generate_returned_spec Hp Ha.
  by rewrite (Hmask p a Hp Ha).
Qed.

(** C1 (the code departs from it). Generate tests the mask for the cell
    on the west or north side of the wall it has drawn, and not for the
    cell on the other side: the wall between a cell and its masked east
    or south neighbour can come down. Here (0,1) is masked and the flag
    [to_east] of (0,0) is set on return; and (1,0) is masked and the flag
    [to_south] of (0,0) is set on return. *)
Theorem Generate_opens_wall_into_masked_cell :
  (Generate (rng_of [0; 0; 0;  1; 0; 0;  0; 0; 1]) 2 2 0 0 1 1
     mask_east_cell 10 = Returned maze_into_east_cell ∧
   (0, 1) ∈ mask_east_cell ∧
   arc maze_into_east_cell 2 2 East (0, 0) (0, 1)) ∧
  (Generate (rng_of [1; 0; 0;  0; 0; 0;  1; 1; 0]) 2 2 0 0 1 1
     mask_south_cell 10 = Returned maze_into_south_cell ∧
   (1, 0) ∈ mask_south_cell ∧
   arc maze_into_south_cell 2 2 South (0, 0) (1, 0)).
Proof.
  split; (split; [by vm_compute|split; [by apply elem_of_singleton|]]).
  - split_and!; [by apply in_bounds_2_2..|done|].
    exists (open_cell true true). by split.
  - split_and!; [by apply in_bounds_2_2..|done|].
    exists (open_cell true true). by split.
Qed.

(** ** The forest *)

(** C2. At the top of each pass of the loop of Generate the union-find
    classes are the connected components of the graph of open walls, and
    that graph is a forest; a pass changes the matrix only by removing one
    wall between two cells that lie in different union-find classes (see
    [wall_removed]); and in the matrix that is returned the open walls
    form a forest in which exactly one simple path leads from start to
    finish. *)
Theorem Generate_forest
    (rng : nat → Z) (Width Height sx sy fx fy : Z) (mask : Mask) :
  (∀ s, loop_head rng Width Height sx sy fx fy mask s →
        acyclic (edge (adj_out s) Width Height) ∧
        ∀ p q, in_bounds Width Height p → in_bounds Width Height q →
               (EqClass.same_class (pos2ec s) p q ↔
                connected (adj_out s) Width Height p q)) ∧
  (∀ s fl, loop_head rng Width Height sx sy fx fy mask s →
           iteration rng Width Height sx sy fx fy mask s = Some fl →
           skipped s fl ∨
           ∃ d p, wall_removed Width Height sx sy fx fy mask d p s fl) ∧
  (∀ fuel adj,
     Generate rng Width Height sx sy fx fy mask fuel = Returned adj →
     acyclic (edge adj Width Height) ∧
     ∃ path, joins path (sy, sx) (fy, fx) ∧
             simple_path (edge adj Width Height) path ∧
             ∀ path', joins path' (sy, sx) (fy, fx) →
                      simple_path (edge adj Width Height) path' →
                      path' = path).
Proof.
  split_and!.
  - intros s Hhead.
    destruct (loop_head_coherent _ _ _ _ _ _ _ _ _ Hhead) as [_ _ Hcl Hfor _].
    by split.
  - intros s fl Hhead Hit.
    by destruct (iteration_spec _ _ _ _ _ _ _ _ _ _
                   (loop_head_coherent _ _ _ _ _ _ _ _ _ Hhead) Hit).
  - intros fuel adj (_ & Hfor & Hconn & _)%Generate_returned_spec.
    split; [done|].
    destruct (connected_simple_path _ _ _ _ _ Hconn) as (path & Hj & Hsp).
    exists path. split_and!; [done..|].
    intros path' Hj' Hsp'. by apply (Hfor path' path (sy, sx) (fy, fx)).
Qed.

Lemma Generate_forest_witness :
  acyclic (edge maze_two_walls 2 2) ∧
  ∃ path, joins path (0, 0) (1, 1) ∧
          simple_path (edge maze_two_walls 2 2) path ∧
          ∀ path', joins path' (0, 0) (1, 1) →
                   simple_path (edge maze_two_walls 2 2) path' →
                   path' = path.
Proof.
  apply (proj2 (proj2 (Generate_forest (rng_of [0; 0; 0;  1; 1; 0])
                         2 2 0 0 1 1 ∅)) 10%nat maze_two_walls).
  by vm_compute.
Defined.

(** ** When the loop ends *)

(** C3. With start and finish two different cells, a pass of the loop
    ends Generate if and only if start and finish are joined after it; on
    return a path through open walls leads from start to finish, and
    Solve finds one; and the matrix that is returned can hold cells that
    cannot be reached from start. *)
Theorem Generate_returns_when_joined
    (rng : nat → Z) (Width Height sx sy fx fy : Z) (mask : Mask) :
  (∀ s fl, (sy, sx) ≠ (fy, fx) →
           loop_head rng Width Height sx sy fx fy mask s →
           iteration rng Width Height sx sy fx fy mask s = Some fl →
           (is_break fl = true ↔
            connected (adj_out (flow_state fl)) Width Height
              (sy, sx) (fy, fx))) ∧
  (∀ fuel adj,
     Generate rng Width Height sx sy fx fy mask fuel = Returned adj →
     connected adj Width Height (sy, sx) (fy, fx) ∧
     ∀ fuel' path_out,
       (5 ^ (Z.to_nat Height * Z.to_nat Width) ≤ fuel')%nat →
       ∃ path, Solve adj Width Height sx sy fx fy fuel' path_out =
               Returned (true, path)) ∧
  (Generate (rng_of [0; 0; 0;  1; 1; 0]) 2 2 0 0 1 1 ∅ 10 =
     Returned maze_two_walls ∧
   in_bounds 2 2 (1, 0) ∧
   ¬ connected maze_two_walls 2 2 (0, 0) (1, 0)).
Proof.
  split_and!.
  - intros s fl Hne Hhead Hit. by eapply iteration_break_iff.
  - intros fuel adj (Hrect & _ & Hconn & Hstart & _)%Generate_returned_spec.
    split; [done|]. intros fuel' path_out Hfuel.
    destruct (Solve_decides adj Width Height Hrect sx sy fx fy Hstart
                fuel' path_out Hfuel) as (b & path & Hret & Hiff).
    exists path. by rewrite Hret, (proj2 Hiff Hconn).
  - by vm_compute.
  - by apply in_bounds_2_2.
  - apply (Solve_false_apart maze_two_walls 2 2 maze_two_walls_rect
             0 0 0 1 (in_bounds_2_2 0 0 eq_refl) 10 [] []).
    by vm_compute.
Qed.

Lemma Generate_returns_when_joined_witness :
  connected maze_two_walls 2 2 (0, 0) (1, 1) ∧
  ∀ fuel' path_out,
    (5 ^ (Z.to_nat 2 * Z.to_nat 2) ≤ fuel')%nat →
    ∃ path, Solve maze_two_walls 2 2 0 0 1 1 fuel' path_out =
            Returned (true, path).
Proof.
  apply (proj1 (proj2 (Generate_returns_when_joined
                         (rng_of [0; 0; 0;  1; 1; 0]) 2 2 0 0 1 1 ∅))
           10%nat maze_two_walls).
  by vm_compute.
Defined.

(** ** Two rows and two columns *)

Lemma two_by_two_shape (adj : Connections) :
  rect 2 2 adj → ∃ a b c d, adj = [[a; b]; [c; d]].
Proof.
  intros [Hl Hrows].
  destruct adj as [|r1 [|r2 [|r3 adj]]]; simpl in Hl; try lia.
  apply Forall_cons in Hrows as [H1 [H2 _]%Forall_cons].
  destruct r1 as [|a [|b [|? ?]]]; simpl in H1; try lia.
  destruct r2 as [|c [|d [|? ?]]]; simpl in H2; try lia.
  by exists a, b, c, d.
Qed.

(** The four walls of a 2*2 maze cannot all be down in a forest. *)
Lemma two_by_two_cycle :
  ¬ acyclic (edge [[open_cell true true; open_cell false true];
                   [open_cell true false; open_cell false false]] 2 2).
Proof.
  intros Hac.
  set (adj := [[open_cell true true; open_cell false true];
               [open_cell true false; open_cell false false]]) in *.
  assert (∀ d p q, bool_decide (in_bounds 2 2 p ∧ in_bounds 2 2 q ∧
                                q = neighbor d p) = true →
            (∃ a, at2 adj p = Some a ∧ flag d a = true) →
            arc adj 2 2 d p q) as Harc.
  { intros d' p q (? & ? & ?)%bool_decide_eq_true Hw. by split_and!. }
  assert ([(0, 0); (0, 1); (1, 1)] = [(0, 0); (1, 0); (1, 1)]) as Heq; [|done].
  apply (Hac _ _ (0, 0) (1, 1)); try done.
  - split; [apply (bool_decide_unpack _); by vm_compute|].
    cbn [chain]. split_and!; [..|done].
    + exists East. left. apply Harc; [done|]. by eexists.
    + exists South. left. apply Harc; [done|]. by eexists.
  - split; [apply (bool_decide_unpack _); by vm_compute|].
    cbn [chain]. split_and!; [..|done].
    + exists South. left. apply Harc; [done|]. by eexists.
    + exists East. left. apply Harc; [done|]. by eexists.
Qed.

(** The sequence of zeros draws the east wall of (0,0) again and again:
    after the first pass nothing changes, and Generate does not return. *)
Lemma iteration_zeros_idle (s : GenState) :
  at2 (adj_out s) (0, 0) = Some (open_cell true false) →
  ∃ s', iteration (λ _, 0) 2 2 0 0 1 1 ∅ s = Some (Continue s') ∧
        adj_out s' = adj_out s.
Proof.
  intros Ha. unfold iteration, rand, c_rem, knock. simpl.
  change (0 `rem` 2) with 0. change (0 `rem` (2 - 1)) with 0.
  case_bool_decide as Hin; [by apply elem_of_empty in Hin|].
  rewrite Ha. simpl. eauto.
Qed.

Lemma Generate_loop_zeros_idle (fuel : nat) (s : GenState) :
  at2 (adj_out s) (0, 0) = Some (open_cell true false) →
  Generate_loop (λ _, 0) 2 2 0 0 1 1 ∅ fuel s = OutOfFuel.
Proof.
  revert s. induction fuel as [|fuel IH]; intros s Ha; [done|].
  destruct (iteration_zeros_idle s Ha) as (s' & Hit & Hadj).
  simpl. rewrite Hit. apply IH. simpl. by rewrite Hadj.
Qed.

Lemma Generate_2x2_zeros_runs_forever (fuel : nat) :
  Generate (λ _, 0) 2 2 0 0 1 1 ∅ fuel = OutOfFuel.
Proof.
  destruct fuel as [|fuel]; [done|].
  unfold Generate, Generate_run, Generate_init.
  case_decide; [lia|].
  change (Generate_loop ?r ?w ?h ?a ?b ?c ?d ?m (S fuel) ?s)
    with (match iteration r w h a b c d m s with
          | None => Fault
          | Some (Break s') => Returned s'
          | Some (Continue s') =>
              Generate_loop r w h a b c d m fuel (next_iteration s')
          end).
  destruct (iteration _ _ _ _ _ _ _ _ _) as [[s1|s1]|] eqn:Hit;
    vm_compute in Hit; simplify_eq.
  by rewrite Generate_loop_zeros_idle.
Qed.

(** C6 (as stated it fails). The sequence 0,0,0, 1,1,0 removes the east
    wall of (0,0) and then the south wall of (0,1): start and finish are
    joined and Generate returns with two walls removed, not three. And on
    the sequence of zeros Generate does not return at all. *)
Lemma Generate_2x2_not_three_walls :
  (Generate (rng_of [0; 0; 0;  1; 1; 0]) 2 2 0 0 1 1 ∅ 10 =
     Returned maze_two_walls ∧
   open_walls maze_two_walls 2 2 = 2%nat) ∧
  (∀ fuel, Generate (λ _, 0) 2 2 0 0 1 1 ∅ fuel = OutOfFuel).
Proof.
  split; [split; by vm_compute|]. apply Generate_2x2_zeros_runs_forever.
Qed.

(** C6 (amended). On a 2*2 maze with start (0,0), finish (1,1) and an
    empty mask, for every random sequence on which Generate returns, it
    has removed two or three of the four inner walls, and Solve finds on
    the result a path of exactly three cells. *)
Theorem Generate_2x2_walls_and_path
    (rng : nat → Z) (fuel : nat) (adj : Connections) :
  Generate rng 2 2 0 0 1 1 ∅ fuel = Returned adj →
  (open_walls adj 2 2 = 2%nat ∨ open_walls adj 2 2 = 3%nat) ∧
  ∃ path, length path = 3%nat ∧
          ∀ fuel' path_out,
            (10 ≤ fuel')%nat →
            Solve adj 2 2 0 0 1 1 fuel' path_out = Returned (true, path).
Proof.
  intros (Hrect & Hfor & Hconn & Hstart & Hin & _)%Generate_returned_spec.
  destruct (two_by_two_shape adj Hrect) as ([aE aS] & [bE bS] & [cE cS]
                                            & [dE dS] & ->).
  assert (bE = false) as ->.
  { destruct bE; [|done].
    destruct (Hin (0, 1) _ East eq_refl eq_refl) as [_ ?]. simpl in *. lia. }
  assert (dE = false) as ->.
  { destruct dE; [|done].
    destruct (Hin (1, 1) _ East eq_refl eq_refl) as [_ ?]. simpl in *. lia. }
  assert (cS = false) as ->.
  { destruct cS; [|done].
    destruct (Hin (1, 0) _ South eq_refl eq_refl) as [? _]. simpl in *. lia. }
  assert (dS = false) as ->.
  { destruct dS; [|done].
    destruct (Hin (1, 1) _ South eq_refl eq_refl) as [? _]. simpl in *. lia. }
  assert (∀ path,
            Solve_loop [[mkAdjacency aE aS; mkAdjacency false bS];
                        [mkAdjacency cE false; mkAdjacency false false]]
              2 2 1 1 10 [[(0, 0)]] [] = Returned (true, path) →
            ∀ fuel' path_out, (10 ≤ fuel')%nat →
              Solve [[mkAdjacency aE aS; mkAdjacency false bS];
                     [mkAdjacency cE false; mkAdjacency false false]]
                2 2 0 0 1 1 fuel' path_out = Returned (true, path))
    as Hany.
  { intros path Hret fuel' path_out Hle. unfold Solve.
    apply (Solve_loop_true_any _ _ _ _ _ _ _ []).
    by apply (Solve_loop_mono _ _ _ _ _ 10). }
  destruct aE, aS, bS, cE;
    first
      [ (* start and finish are apart: Generate has not returned this *)
        exfalso;
        refine (Solve_false_apart _ 2 2 Hrect 0 0 1 1 Hstart 10 [] [] _ Hconn);
        by vm_compute
      | (* all four walls are down: not a forest *)
        exfalso; by apply two_by_two_cycle
      | split; [vm_compute; auto|];
        first [ exists [(0, 0); (0, 1); (1, 1)];
                (split; [done|]); apply Hany; by vm_compute
              | exists [(0, 0); (1, 0); (1, 1)];
                (split; [done|]); apply Hany; by vm_compute ] ].
Qed.

Lemma Generate_2x2_walls_and_path_witness :
  (open_walls maze_three_walls 2 2 = 2%nat ∨
   open_walls maze_three_walls 2 2 = 3%nat) ∧
  ∃ path, length path = 3%nat ∧
          ∀ fuel' path_out,
            (10 ≤ fuel')%nat →
            Solve maze_three_walls 2 2 0 0 1 1 fuel' path_out =
              Returned (true, path).
Proof.
  apply (Generate_2x2_walls_and_path
           (rng_of [0; 0; 0;  0; 0; 1;  1; 1; 0]) 10).
  by vm_compute.
Defined.

(** ** A mask that cuts start from finish *)

Lemma chain_stays_in {V} (E : V → V → Prop) (P : V → Prop) l a b :
  (∀ x y, P x → E x y → P y) →
  chain E l → joins l a b → P a → P b.
Proof.
  intros Hstep Hc Hj%(chain_rtc E); [|done].
  induction Hj as [|x y z Hxy _ IH]; [done|]. intros Hx. eauto.
Qed.

Lemma mask_diagonal_separates : mask_separates mask_diagonal 2 4 (0, 0) (3, 1).
Proof.
  intros (l & Hj & Hc).
  set (P := λ p : Pos, p = (0, 0) ∨ p = (0, 1) ∨ p = (1, 1)).
  assert (P (3, 1)) as [?|[?|?]]; [|done..].
  apply (chain_stays_in (unmasked_step mask_diagonal 2 4) P l (0, 0) (3, 1));
    [|done|done|by left].
  intros x [qy qx] Hx ([[??] [??]] & [[??] [??]] & Hcard & _ & Hq).
  unfold cardinal_step in Hcard. simpl in *.
  assert (qy = 0 ∨ qy = 1 ∨ qy = 2 ∨ qy = 3) as Hqy by lia.
  assert (qx = 0 ∨ qx = 1) as Hqx by lia.
  unfold P in *.
  destruct Hx as [-> |[-> | ->]], Hqy as [-> |[-> |[-> | ->]]],
           Hqx as [-> | ->];
    simpl in Hcard; try lia; auto;
    exfalso; apply Hq; unfold mask_diagonal; set_solver.
Qed.

(** C7 (the code departs from it). The masked cells (1,0) and (2,1) cut
    the start (0,0) from the finish (3,1), neither of them masked, and
    Generate returns: the path it has opened enters the masked cell (2,1)
    from the north and leaves it to the west, through the two walls of a
    masked cell that the mask test leaves out. *)
Theorem Generate_returns_across_mask :
  mask_separates mask_diagonal 2 4 (0, 0) (3, 1) ∧
  ((0, 0) ∉ mask_diagonal) ∧ ((3, 1) ∉ mask_diagonal) ∧
  Generate rng_diagonal 2 4 0 0 1 3 mask_diagonal 10 =
    Returned maze_diagonal ∧
  Solve maze_diagonal 2 4 0 0 1 3 20 [] =
    Returned (true, [(0, 0); (0, 1); (1, 1); (2, 1); (2, 0); (3, 0); (3, 1)]) ∧
  (2, 1) ∈ mask_diagonal.
Proof.
  split_and!.
  - exact mask_diagonal_separates.
  - by intros [?%elem_of_singleton|?%elem_of_singleton]%elem_of_union.
  - by intros [?%elem_of_singleton|?%elem_of_singleton]%elem_of_union.
  - by vm_compute.
  - by vm_compute.
  - apply elem_of_union. right. by apply elem_of_singleton.
Qed.

(** What does hold: when start and finish are cut from each other in the
    graph of the walls that Generate can remove, Generate never returns. *)
Lemma Generate_edges_removable
    (rng : nat → Z) (Width Height sx sy fx fy : Z) (mask : Mask)
    (fuel : nat) (adj : Connections) (p q : Pos) :
  Generate rng Width Height sx sy fx fy mask fuel = Returned adj →
  edge adj Width Height p q → removable_step mask Width Height p q.
Proof.
  intros (_ & _ & _ & _ & _ & Hmask)%Generate_returned_spec.
  assert (∀ d x y, arc adj Width Height d x y →
            removable mask Width Height x y) as Harc.
  { intros d x y (Hx & Hy & -> & a & Ha & Hf). exists d.
    split_and!; try done. intros Hin.
    rewrite (Hmask x a Hin Ha) in Hf. by destruct d. }
  intros [d [?|?]]; [left|right]; by eapply Harc.
Qed.

Lemma Generate_never_returns_when_cut
    (rng : nat → Z) (Width Height sx sy fx fy : Z) (mask : Mask)
    (fuel : nat) (adj : Connections) :
  (¬ ∃ l, joins l (sy, sx) (fy, fx) ∧
          chain (removable_step mask Width Height) l) →
  Generate rng Width Height sx sy fx fy mask fuel ≠ Returned adj.
Proof.
  intros Hcut Hret. apply Hcut.
  pose proof (Generate_returned_spec _ _ _ _ _ _ _ _ _ _ Hret)
    as (_ & _ & (l & Hj & Hc) & _).
  exists l. split; [done|]. eapply chain_mono; [|done].
  intros p q. by apply (Generate_edges_removable _ _ _ _ _ _ _ _ _ _ _ _ Hret).
Qed.

(** With both neighbours of the finish masked, every random sequence of
    non-negative numbers keeps Generate in its loop for ever. *)
Lemma Generate_runs_forever_around_finish (rng : nat → Z) (fuel : nat) :
  (∀ i, 0 ≤ rng i) →
  Generate rng 2 2 0 0 1 1 mask_around_finish fuel = OutOfFuel.
Proof.
  intros Hrng.
  pose proof (Generate_no_fault rng 2 2 0 0 1 1 mask_around_finish Hrng
                ltac:(done) ltac:(done) (in_bounds_2_2 0 0 eq_refl)
                (in_bounds_2_2 1 1 eq_refl) fuel) as Hnofault.
  destruct (Generate rng 2 2 0 0 1 1 mask_around_finish fuel)
    as [adj| |] eqn:Hgen; [exfalso|done..].
  refine (Generate_never_returns_when_cut _ _ _ _ _ _ _ _ _ _ _ Hgen).
  intros (l & Hj & Hc).
  set (P := λ p : Pos, p ≠ (1, 1)).
  apply (chain_stays_in (removable_step mask_around_finish 2 2) P
           l (0, 0) (1, 1)); [|done..].
  unfold P. intros x y Hx Hstep ->.
  destruct Hstep as [(d & _ & _ & Heq & Hm)|(d & _ & [[??] [??]] & Heq & _)].
  - apply Hm. unfold mask_around_finish.
    destruct d, x as [y x]; simplify_eq/=.
    + replace x with 0 by lia. apply elem_of_union. right.
      by apply elem_of_singleton.
    + replace y with 0 by lia. apply elem_of_union. left.
      by apply elem_of_singleton.
  - destruct d; subst x; simpl in *; lia.
Qed.

(** ** Determinism *)

Lemma iteration_ext (rng1 rng2 : nat → Z) (Width Height sx sy fx fy : Z)
    (mask : Mask) (s : GenState) :
  (∀ i, rng1 i = rng2 i) →
  iteration rng1 Width Height sx sy fx fy mask s =
  iteration rng2 Width Height sx sy fx fy mask s.
Proof. intros Hext. unfold iteration, rand. by rewrite !Hext. Qed.

Lemma Generate_loop_ext (rng1 rng2 : nat → Z)
    (Width Height sx sy fx fy : Z) (mask : Mask) (fuel : nat) (s : GenState) :
  (∀ i, rng1 i = rng2 i) →
  Generate_loop rng1 Width Height sx sy fx fy mask fuel s =
  Generate_loop rng2 Width Height sx sy fx fy mask fuel s.
Proof.
  intros Hext. revert s. induction fuel as [|fuel IH]; intros s; [done|].
  simpl. rewrite (iteration_ext rng1 rng2) by done.
  destruct (iteration rng2 _ _ _ _ _ _ _ _) as [[s'|s']|]; auto.
Qed.

(** C9. Two runs of Generate that draw the same random numbers, on the
    same width, height, start, finish and mask, return the same
    connectivity matrix, whichever operand of [==] each run evaluates
    first at each comparison of two classes. *)
Theorem Generate_deterministic
    (order1 order2 : nat → bool → bool) (rng1 rng2 : nat → Z)
    (Width Height sx sy fx fy : Z) (mask : Mask) (fuel : nat) :
  (∀ i, rng1 i = rng2 i) →
  Generate_in_order order1 rng1 Width Height sx sy fx fy mask fuel =
  Generate_in_order order2 rng2 Width Height sx sy fx fy mask fuel.
Proof.
  intros Hext. rewrite !Generate_in_order_eq.
  unfold Generate, Generate_run.
  destruct (Generate_init Width Height) as [s|]; [|done].
  by rewrite (Generate_loop_ext rng1 rng2).
Qed.

Lemma Generate_deterministic_witness :
  (∀ i, rng_of [0; 0; 0;  1; 1; 0] i = rng_of [0; 0; 0;  1; 1; 0;  0; 0] i) ∧
  Generate_in_order (λ _ _, true) (rng_of [0; 0; 0;  1; 1; 0])
    2 2 0 0 1 1 ∅ 10 =
  Generate_in_order (λ _ late, late) (rng_of [0; 0; 0;  1; 1; 0;  0; 0])
    2 2 0 0 1 1 ∅ 10.
Proof.
  assert (∀ i, rng_of [0; 0; 0;  1; 1; 0] i =
               rng_of [0; 0; 0;  1; 1; 0;  0; 0] i) as Hext.
  { intros i. do 8 (destruct i as [|i]; [done|]). done. }
  split; [exact Hext|].
  apply (Generate_deterministic _ _ _ _ 2 2 0 0 1 1 ∅ 10 Hext).
Defined.

(** * More about the code *)

(** ** The class EqClass *)

Lemma find_rep_points_at fuel (ecs ecs' : list (list EqClass)) (p r : Pos) :
  EqClass.find_rep fuel ecs p = Some (ecs', r) →
  at2 ecs' p = Some {| rep := r |}.
Proof.
  destruct fuel as [|fuel]; [done|]. simpl.
  destruct (at2 ecs p) as [[q]|] eqn:Hp; [|done]. simpl. case_decide as Hq.
  - destruct (EqClass.find_rep fuel ecs q) as [[ecs1 r1]|]; [|done]. simpl.
    destruct (set2 ecs1 p {| rep := r1 |}) as [ecs2|] eqn:Hset; [|done].
    intros [= <- <-]. by eapply at2_set2_eq.
  - intros [= <- <-]. by destruct (decide (q = p)) as [->|].
Qed.

(** X1. On a structure in which every cell has a representative,
    [find_rep] returns the representative of its cell, leaves the cell
    pointing straight at it, and changes the representative of no cell. *)
Theorem find_rep_keeps_representatives
    (Width Height : Z) (ecs ecs' : list (list EqClass)) (p r : Pos) :
  EqClass.well_formed Width Height ecs →
  EqClass.find ecs p = Some (ecs', r) →
  EqClass.root_of ecs p r ∧
  at2 ecs' p = Some {| rep := r |} ∧
  EqClass.well_formed Width Height ecs' ∧
  ∀ q s, EqClass.root_of ecs' q s ↔ EqClass.root_of ecs q s.
Proof.
  intros Hwf Hfind.
  destruct (find_spec _ _ _ _ _ _ Hfind Hwf) as (Hr & Hwf' & Hpres).
  split_and!; [done|by eapply find_rep_points_at|done|].
  intros q s. split; [|by apply Hpres].
  by apply (roots_reflected Width Height ecs ecs' q s Hwf (proj1 Hwf')).
Qed.

(** X2. On such a structure [find_rep] comes back for every cell of the
    maze, and for no position outside it. *)
Theorem find_rep_returns_iff_in_bounds
    (Width Height : Z) (ecs : list (list EqClass)) (p : Pos) :
  EqClass.well_formed Width Height ecs →
  is_Some (EqClass.find ecs p) ↔ in_bounds Width Height p.
Proof.
  intros Hwf. split; [|by apply find_is_Some].
  intros [[ecs' r] Hfind].
  destruct (find_spec _ _ _ _ _ _ Hfind Hwf) as (Hr & _).
  exact (proj1 (root_of_in_bounds _ _ _ _ _ (proj1 Hwf) Hr)).
Qed.

(** X3. [merge] of two cells of the maze returns, and afterwards two
    cells are in one class exactly when they were before or when one was
    with [this] and the other with [other]. *)
Theorem merge_joins_two_classes
    (Width Height : Z) (ecs : list (list EqClass)) (this other : Pos) :
  EqClass.well_formed Width Height ecs →
  in_bounds Width Height this → in_bounds Width Height other →
  ∃ ecs', EqClass.merge ecs this other = Some ecs' ∧
          EqClass.well_formed Width Height ecs' ∧
          ∀ x y, EqClass.same_class ecs' x y ↔
                 EqClass.same_class ecs x y ∨
                 (EqClass.same_class ecs x this ∧
                  EqClass.same_class ecs other y) ∨
                 (EqClass.same_class ecs x other ∧
                  EqClass.same_class ecs this y).
Proof.
  intros Hwf Hthis Hother.
  destruct (merge_is_Some _ _ _ _ _ Hwf Hthis Hother) as [ecs' Hm].
  exists ecs'. split; [done|]. by apply (merge_spec _ _ _ _ _ _ Hm).
Qed.

(** X4. [operator==] on two cells of the maze returns, answers whether
    the two cells have the same representative, and changes the class of
    no cell. *)
Theorem eq_decides_same_class
    (Width Height : Z) (ecs : list (list EqClass)) (this other : Pos) :
  EqClass.well_formed Width Height ecs →
  in_bounds Width Height this → in_bounds Width Height other →
  ∃ ecs' b, EqClass.eq ecs this other = Some (ecs', b) ∧
            (b = true ↔ EqClass.same_class ecs this other) ∧
            EqClass.well_formed Width Height ecs' ∧
            ∀ x y, EqClass.same_class ecs' x y ↔ EqClass.same_class ecs x y.
Proof.
  intros Hwf Hthis Hother.
  destruct (eq_is_Some _ _ _ _ _ Hwf Hthis Hother) as [[ecs' b] Heq].
  destruct (eq_spec _ _ _ _ _ _ _ Heq Hwf) as (Hwf' & Hpres & Hb & _).
  exists ecs', b. split_and!; try done.
  by apply (well_formed_preserved _ _ _ _ Hwf (proj1 Hwf') Hpres).
Qed.

(** X5. After [this.merge(other)], [this == other] is true. *)
Theorem merge_then_eq
    (Width Height : Z) (ecs ecs' : list (list EqClass)) (this other : Pos) :
  EqClass.well_formed Width Height ecs →
  EqClass.merge ecs this other = Some ecs' →
  ∃ ecs'', EqClass.eq ecs' this other = Some (ecs'', true).
Proof.
  intros Hwf Hm.
  destruct (merge_spec _ _ _ _ _ _ Hm Hwf) as [Hwf' Hsame].
  assert (in_bounds Width Height this ∧ in_bounds Width Height other)
    as [Hthis Hother].
  { unfold EqClass.merge in Hm.
    destruct (EqClass.find ecs this) as [[ecs1 r1]|] eqn:H1; [|done].
    simpl in Hm.
    destruct (EqClass.find ecs1 other) as [[ecs2 r2]|] eqn:H2; [|done].
    destruct (find_spec _ _ _ _ _ _ H1 Hwf) as (Hr1 & Hwf1 & _).
    destruct (find_spec _ _ _ _ _ _ H2 Hwf1) as (Hr2 & _).
    split.
    - exact (proj1 (root_of_in_bounds _ _ _ _ _ (proj1 Hwf) Hr1)).
    - exact (proj1 (root_of_in_bounds _ _ _ _ _ (proj1 Hwf1) Hr2)). }
  destruct (eq_is_Some _ _ _ _ _ Hwf' Hthis Hother) as [[ecs'' b] Heq].
  destruct (eq_spec _ _ _ _ _ _ _ Heq Hwf') as (_ & _ & Hb & _).
  exists ecs''. rewrite Heq. do 2 f_equal. apply Hb, Hsame.
  destruct (proj2 Hwf this Hthis) as [r1 Hr1].
  destruct (proj2 Hwf other Hother) as [r2 Hr2].
  right; left. split; [by exists r1|by exists r2].
Qed.

(** X6. In [pos2ec] as [Generate] builds it every cell of the maze is a
    class of its own. *)
Theorem init_classes_are_singletons (Width Height : Z) (p q : Pos) :
  0 ≤ Height → 0 ≤ Width →
  EqClass.same_class (EqClass.init Height Width) p q ↔
  p = q ∧ in_bounds Width Height p.
Proof.
  intros Hh Hw.
  pose proof (init_well_formed Width Height Hh (λ _, Hw)) as Hwf. split.
  - intros (r & Hp & Hq).
    pose proof (proj1 (root_of_in_bounds _ _ _ _ _ (proj1 Hwf) Hp)).
    apply init_root_of in Hp, Hq. by subst.
  - intros [<- Hp]. destruct (proj2 Hwf p Hp) as [r Hr]. by exists r.
Qed.

(** The witnesses: [pos2ec] of a 2*2 maze. *)
Lemma init_2_2_well_formed : EqClass.well_formed 2 2 (EqClass.init 2 2).
Proof. by apply init_well_formed. Qed.

Lemma ecs_chain_well_formed : EqClass.well_formed 2 2 ecs_chain.
Proof.
  assert (EqClass.root_of ecs_chain (0, 0) (0, 0)) as H00
    by (by apply EqClass.root_here).
  assert (EqClass.root_of ecs_chain (0, 1) (0, 0)) as H01
    by (by apply (EqClass.root_up _ _ (0, 0))).
  assert (EqClass.root_of ecs_chain (1, 0) (0, 0)) as H10
    by (by apply (EqClass.root_up _ _ (0, 1))).
  assert (EqClass.root_of ecs_chain (1, 1) (1, 1)) as H11
    by (by apply EqClass.root_here).
  split; [split; [done|by repeat constructor]|].
  intros [y x] [Hy Hx]. simpl in *.
  assert ((y = 0 ∨ y = 1) ∧ (x = 0 ∨ x = 1)) as [[-> | ->] [-> | ->]] by lia;
    eauto.
Qed.

Lemma find_rep_keeps_representatives_witness :
  EqClass.root_of ecs_chain (1, 0) (0, 0) ∧
  at2 [[{| rep := (0, 0) |}; {| rep := (0, 0) |}];
       [{| rep := (0, 0) |}; {| rep := (1, 1) |}]] (1, 0)
    = Some {| rep := (0, 0) |} ∧
  EqClass.well_formed 2 2
    [[{| rep := (0, 0) |}; {| rep := (0, 0) |}];
     [{| rep := (0, 0) |}; {| rep := (1, 1) |}]] ∧
  ∀ q s, EqClass.root_of
           [[{| rep := (0, 0) |}; {| rep := (0, 0) |}];
            [{| rep := (0, 0) |}; {| rep := (1, 1) |}]] q s ↔
         EqClass.root_of ecs_chain q s.
Proof.
  apply (find_rep_keeps_representatives 2 2 ecs_chain
           [[{| rep := (0, 0) |}; {| rep := (0, 0) |}];
            [{| rep := (0, 0) |}; {| rep := (1, 1) |}]] (1, 0) (0, 0)).
  - exact ecs_chain_well_formed.
  - by vm_compute.
Defined.

Lemma find_rep_returns_iff_in_bounds_witness :
  is_Some (EqClass.find (EqClass.init 2 2) (1, 1)) ↔ in_bounds 2 2 (1, 1).
Proof.
  apply (find_rep_returns_iff_in_bounds 2 2 (EqClass.init 2 2) (1, 1)).
  exact init_2_2_well_formed.
Defined.

Lemma merge_joins_two_classes_witness :
  ∃ ecs', EqClass.merge (EqClass.init 2 2) (0, 0) (0, 1) = Some ecs' ∧
          EqClass.well_formed 2 2 ecs' ∧
          ∀ x y, EqClass.same_class ecs' x y ↔
                 EqClass.same_class (EqClass.init 2 2) x y ∨
                 (EqClass.same_class (EqClass.init 2 2) x (0, 0) ∧
                  EqClass.same_class (EqClass.init 2 2) (0, 1) y) ∨
                 (EqClass.same_class (EqClass.init 2 2) x (0, 1) ∧
                  EqClass.same_class (EqClass.init 2 2) (0, 0) y).
Proof.
  apply (merge_joins_two_classes 2 2 (EqClass.init 2 2) (0, 0) (0, 1)).
  - exact init_2_2_well_formed.
  - by apply in_bounds_2_2.
  - by apply in_bounds_2_2.
Defined.

Lemma eq_decides_same_class_witness :
  ∃ ecs' b, EqClass.eq (EqClass.init 2 2) (0, 0) (0, 1) = Some (ecs', b) ∧
            (b = true ↔ EqClass.same_class (EqClass.init 2 2) (0, 0) (0, 1)) ∧
            EqClass.well_formed 2 2 ecs' ∧
            ∀ x y, EqClass.same_class ecs' x y ↔
                   EqClass.same_class (EqClass.init 2 2) x y.
Proof.
  apply (eq_decides_same_class 2 2 (EqClass.init 2 2) (0, 0) (0, 1)).
  - exact init_2_2_well_formed.
  - by apply in_bounds_2_2.
  - by apply in_bounds_2_2.
Defined.

Lemma merge_then_eq_witness :
  ∃ ecs'', EqClass.eq [[{| rep := (0, 0) |}; {| rep := (0, 0) |}];
                       [{| rep := (1, 0) |}; {| rep := (1, 1) |}]]
             (0, 0) (0, 1) = Some (ecs'', true).
Proof.
  apply (merge_then_eq 2 2 (EqClass.init 2 2)).
  - exact init_2_2_well_formed.
  - by vm_compute.
Defined.

Lemma init_classes_are_singletons_witness :
  EqClass.same_class (EqClass.init 2 2) (0, 1) (0, 1) ↔
  (0, 1) = (0, 1) ∧ in_bounds 2 2 (0, 1).
Proof. apply (init_classes_are_singletons 2 2 (0, 1) (0, 1)); lia. Defined.

(** ** Generate: the counters *)

Lemma NoDup_cells (Width Height : Z) : NoDup (cells Width Height).
Proof.
  unfold cells. apply NoDup_bind; [| |apply NoDup_seqZ].
  - intros y1 y2 p _ _
      (x1 & ->%list_elem_of_ret & _)%list_elem_of_bind
      (x2 & [= -> _]%list_elem_of_ret & _)%list_elem_of_bind. done.
  - intros y _. apply NoDup_bind; [| |apply NoDup_seqZ].
    + intros x1 x2 p _ _ ->%list_elem_of_ret [= ->]%list_elem_of_ret. done.
    + intros x _. apply NoDup_singleton.
Qed.

Lemma filter_iff_elem {A} (P Q : A → Prop)
    `{!∀ x, Decision (P x), !∀ x, Decision (Q x)} (l : list A) :
  (∀ y, y ∈ l → (P y ↔ Q y)) → filter P l = filter Q l.
Proof.
  induction l as [|a l IH]; intros Hall; [done|].
  rewrite !filter_cons.
  assert (filter P l = filter Q l) as ->
    by (apply IH; intros y Hy; apply Hall; by right).
  destruct (decide (P a)) as [Hp|Hp].
  - rewrite decide_True; [done|]. apply Hall; [by left|done].
  - rewrite decide_False; [done|]. intros Hq. apply Hp, Hall; [by left|done].
Qed.

(** Two filters of a list without repetition that agree everywhere but at
    one element keep one element more or less. *)
Lemma length_filter_but_one {A} (P Q : A → Prop)
    `{!∀ x, Decision (P x), !∀ x, Decision (Q x)} (l : list A) (x : A) :
  NoDup l → x ∈ l → P x → ¬ Q x → (∀ y, y ≠ x → (Q y ↔ P y)) →
  S (length (filter Q l)) = length (filter P l).
Proof.
  intros Hnd Hin HP HQ Hsame.
  induction Hnd as [|a l Ha Hnd IH]; [by apply elem_of_nil in Hin|].
  apply elem_of_cons in Hin as [<-|Hin].
  - rewrite filter_cons_False, filter_cons_True by done. simpl. do 2 f_equal.
    apply filter_iff_elem.
    intros y Hy. apply Hsame. by intros ->.
  - assert (a ≠ x) as Hne by (by intros ->).
    rewrite !filter_cons. destruct (decide (Q a)) as [Hq|Hq].
    + rewrite decide_True by (by apply Hsame). simpl. f_equal. by apply IH.
    + rewrite decide_False by (by rewrite <-Hsame). by apply IH.
Qed.

Section Counters.
Variables Width Height : Z.
Implicit Types (ecs : list (list EqClass)) (adj : Connections) (p q : Pos).

Lemma roots_ext ecs ecs' :
  (∀ x, is_root ecs' x ↔ is_root ecs x) →
  roots Width Height ecs' = roots Width Height ecs.
Proof. intros Hx. unfold roots. f_equal. by apply list_filter_iff. Qed.

(** Path compression makes no object a representative and leaves every
    representative one. *)
Lemma find_rep_is_root fuel ecs p ecs' r :
  rect Width Height ecs → EqClass.find_rep fuel ecs p = Some (ecs', r) →
  ∀ x, is_root ecs' x ↔ is_root ecs x.
Proof.
  intros Hrect. revert p ecs' r.
  induction fuel as [|fuel IH]; intros p ecs' r Hfind x; [done|].
  simpl in Hfind. destruct (at2 ecs p) as [[q]|] eqn:Hp; [|done].
  simpl in Hfind. case_decide as Hq.
  - destruct (EqClass.find_rep fuel ecs q) as [[ecs1 r1]|] eqn:Hrec; [|done].
    simpl in Hfind.
    destruct (set2 ecs1 p {| rep := r1 |}) as [ecs2|] eqn:Hset; [|done].
    simplify_eq/=.
    destruct (find_rep_sound Width Height _ _ _ _ _ Hrec Hrect)
      as (Hqr%root_of_self & _ & _).
    unfold is_root. destruct (decide (x = p)) as [->|Hne].
    + rewrite (at2_set2_eq _ _ _ _ Hset), Hp. split; intros [= ?]; [|done].
      simplify_eq.
    + rewrite (at2_set2_ne _ _ _ _ _ Hset Hne). apply (IH _ _ _ Hrec).
  - by simplify_eq/=.
Qed.

Lemma find_is_root ecs p ecs' r :
  rect Width Height ecs → EqClass.find ecs p = Some (ecs', r) →
  ∀ x, is_root ecs' x ↔ is_root ecs x.
Proof. apply find_rep_is_root. Qed.

Lemma eq_roots ecs p q ecs' b :
  EqClass.well_formed Width Height ecs →
  EqClass.eq ecs p q = Some (ecs', b) →
  roots Width Height ecs' = roots Width Height ecs.
Proof.
  intros Hwf Heq. unfold EqClass.eq in Heq.
  destruct (EqClass.find ecs p) as [[ecs1 r1]|] eqn:H1; [|done].
  simpl in Heq.
  destruct (EqClass.find ecs1 q) as [[ecs2 r2]|] eqn:H2; [|done].
  simplify_eq/=.
  destruct (find_spec _ _ _ _ _ _ H1 Hwf) as (_ & Hwf1 & _).
  apply roots_ext. intros x.
  rewrite (find_is_root _ _ _ _ (proj1 Hwf1) H2 x).
  apply (find_is_root _ _ _ _ (proj1 Hwf) H1 x).
Qed.

(** [merge] of two classes turns one representative into an ordinary
    object. *)
Lemma merge_roots ecs p q ecs' :
  EqClass.well_formed Width Height ecs →
  ¬ EqClass.same_class ecs p q →
  EqClass.merge ecs p q = Some ecs' →
  S (roots Width Height ecs') = roots Width Height ecs.
Proof.
  intros Hwf Hdiff Hm. unfold EqClass.merge in Hm.
  destruct (EqClass.find ecs p) as [[ecs1 r1]|] eqn:H1; [|done].
  simpl in Hm.
  destruct (EqClass.find ecs1 q) as [[ecs2 r2]|] eqn:H2; [|done].
  simpl in Hm.
  destruct (find_spec _ _ _ _ _ _ H1 Hwf) as (Hp & Hwf1 & Hpres1).
  destruct (find_spec _ _ _ _ _ _ H2 Hwf1) as (Hq1 & Hwf2 & Hpres2).
  pose proof (roots_reflected _ _ _ _ _ _ Hwf (proj1 Hwf1) Hpres1 Hq1) as Hq.
  case_decide as Hne; [|exfalso; apply Hdiff; exists r1; split; [done|]].
  2: { by assert (r1 = r2) as -> by (by destruct (decide (r1 = r2))). }
  assert (roots Width Height ecs = roots Width Height ecs2) as ->.
  { symmetry. apply roots_ext. intros x.
    rewrite (find_is_root _ _ _ _ (proj1 Hwf1) H2 x).
    apply (find_is_root _ _ _ _ (proj1 Hwf) H1 x). }
  pose proof (root_of_self _ _ _ (Hpres2 _ _ Hq1)) as Hr2.
  unfold roots. apply (length_filter_but_one _ _ _ r2).
  - apply NoDup_cells.
  - apply elem_of_cells. by eapply at2_in_bounds; [apply Hwf2|].
  - done.
  - unfold is_root. rewrite (at2_set2_eq _ _ _ _ Hm). intros [= ?]. done.
  - intros y Hy. unfold is_root. by rewrite (at2_set2_ne _ _ _ _ _ Hm Hy).
Qed.

Lemma wall_openb_raise adj adj' p a d d' x :
  at2 adj p = Some a → set2 adj p (raise_flag d a) = Some adj' →
  in_bounds Width Height (neighbor d p) →
  wall_openb adj' Width Height d' x = true ↔
  wall_openb adj Width Height d' x = true ∨ (x = p ∧ d' = d).
Proof.
  intros Ha Hset Hq. unfold wall_openb.
  rewrite !andb_true_iff, !bool_decide_eq_true.
  destruct (decide (x = p)) as [->|Hne].
  - rewrite (at2_set2_eq _ _ _ _ Hset), Ha, flag_raise_flag. split.
    + intros [? [?|?]]; auto.
    + intros [[? ?]|[_ ->]]; auto.
  - rewrite (at2_set2_ne _ _ _ _ _ Hset Hne). split; [by left|].
    by intros [?|[? _]].
Qed.

(** Removing one wall inside the maze adds one to the number of open
    walls. *)
Lemma open_walls_raise adj adj' p a d :
  rect Width Height adj →
  at2 adj p = Some a → flag d a = false →
  set2 adj p (raise_flag d a) = Some adj' →
  in_bounds Width Height (neighbor d p) →
  open_walls adj' Width Height = S (open_walls adj Width Height).
Proof.
  intros Hrect Ha Hf Hset Hq. unfold open_walls.
  pose proof (at2_in_bounds _ _ _ _ _ Hrect Ha) as Hp.
  assert (wall_openb adj Width Height d p ≠ true) as Hclosed.
  { unfold wall_openb. rewrite Ha, Hf. by rewrite andb_false_r. }
  assert (∀ d', d' ≠ d →
            filter (λ x, wall_openb adj' Width Height d' x = true)
                   (cells Width Height) =
            filter (λ x, wall_openb adj Width Height d' x = true)
                   (cells Width Height)) as Hother.
  { intros d' Hd. apply list_filter_iff. intros x.
    rewrite (wall_openb_raise _ _ _ _ _ d' x Ha Hset Hq). split; [|by left].
    by intros [?|[_ ?]]. }
  assert (S (length (filter (λ x, wall_openb adj Width Height d x = true)
                            (cells Width Height))) =
          length (filter (λ x, wall_openb adj' Width Height d x = true)
                         (cells Width Height))) as Hthis.
  { apply (length_filter_but_one _ _ _ p).
    - apply NoDup_cells.
    - by apply elem_of_cells.
    - apply (wall_openb_raise _ _ _ _ _ d p Ha Hset Hq). by right.
    - done.
    - intros y Hy. rewrite (wall_openb_raise _ _ _ _ _ d y Ha Hset Hq).
      split; [by left|]. by intros [?|[? _]]. }
  destruct d.
  - rewrite (Hother South) by done. lia.
  - rewrite (Hother East) by done. lia.
Qed.
End Counters.

Section CounterFacts.
Variable rng : nat → Z.
Variables Width Height sx sy fx fy : Z.
Variable mask : Mask.
Implicit Types (s : GenState) (fl : flow) (d : Dir) (p : Pos).

(** What one pass does to the counters: it either leaves the walls, the
    classes and [productive_iterations] alone, or removes one wall, merges
    two classes and counts one productive pass. *)
Lemma knock_counters d p s fl :
  coherent Width Height (adj_out s) (pos2ec s) →
  knock sx sy fx fy mask d p s = Some fl →
  drawn (flow_state fl) = drawn s ∧
  total_iterations (flow_state fl) = total_iterations s ∧
  ((is_break fl = false ∧
    productive_iterations (flow_state fl) = productive_iterations s ∧
    open_walls (adj_out (flow_state fl)) Width Height =
      open_walls (adj_out s) Width Height ∧
    roots Width Height (pos2ec (flow_state fl)) =
      roots Width Height (pos2ec s)) ∨
   (productive_iterations (flow_state fl) = productive_iterations s + 1 ∧
    open_walls (adj_out (flow_state fl)) Width Height =
      S (open_walls (adj_out s) Width Height) ∧
    S (roots Width Height (pos2ec (flow_state fl))) =
      roots Width Height (pos2ec s))).
Proof.
  intros Hcoh Hk. unfold knock in Hk.
  case_bool_decide as Hmask; [simplify_eq; split_and!; try done; by left|].
  destruct (at2 (adj_out s) p) as [a|] eqn:Ha; [|done]. simpl in Hk.
  destruct (flag d a) eqn:Hflag;
    [simplify_eq; split_and!; try done; by left|].
  destruct (EqClass.eq (pos2ec s) p (neighbor d p)) as [[ecs same]|] eqn:Heq;
    [|done].
  simpl in Hk.
  pose proof (coh_ecs _ _ _ _ Hcoh) as Hwf.
  destruct (eq_spec _ _ _ _ _ _ _ Heq Hwf) as (Hwf1 & Hpres1 & Hsame & Hp & Hq).
  pose proof (eq_roots _ _ _ _ _ _ _ Hwf Heq) as Hroots1.
  destruct same.
  { simplify_eq. split_and!; try done. by left. }
  destruct (set2 (adj_out s) p (raise_flag d a)) as [adj'|] eqn:Hset; [|done].
  simpl in Hk.
  destruct (EqClass.merge ecs p (neighbor d p)) as [ecs'|] eqn:Hmerge; [|done].
  simpl in Hk.
  destruct (EqClass.eq ecs' (sy, sx) (fy, fx)) as [[ecs'' joined]|] eqn:Heq';
    [|done].
  simpl in Hk.
  assert (¬ EqClass.same_class ecs p (neighbor d p)) as Hdiff1.
  { intros ?%(proj2 (well_formed_preserved _ _ _ _ Hwf (proj1 Hwf1) Hpres1)).
    by apply Hsame in H. }
  destruct (merge_spec _ _ _ _ _ _ Hmerge Hwf1) as [Hwf2 _].
  pose proof (merge_roots _ _ _ _ _ _ Hwf1 Hdiff1 Hmerge) as Hroots2.
  pose proof (eq_roots _ _ _ _ _ _ _ Hwf2 Heq') as Hroots3.
  pose proof (open_walls_raise _ _ _ _ _ _ _ (coh_adj _ _ _ _ Hcoh)
                Ha Hflag Hset Hq) as Hwalls.
  destruct joined; simplify_eq/=; split_and!; try done; right;
    split_and!; try done; congruence.
Qed.

Lemma iteration_counters s fl :
  coherent Width Height (adj_out s) (pos2ec s) →
  iteration rng Width Height sx sy fx fy mask s = Some fl →
  drawn (flow_state fl) = (3 + drawn s)%nat ∧
  total_iterations (flow_state fl) = total_iterations s ∧
  ((is_break fl = false ∧
    productive_iterations (flow_state fl) = productive_iterations s ∧
    open_walls (adj_out (flow_state fl)) Width Height =
      open_walls (adj_out s) Width Height ∧
    roots Width Height (pos2ec (flow_state fl)) =
      roots Width Height (pos2ec s)) ∨
   (productive_iterations (flow_state fl) = productive_iterations s + 1 ∧
    open_walls (adj_out (flow_state fl)) Width Height =
      S (open_walls (adj_out s) Width Height) ∧
    S (roots Width Height (pos2ec (flow_state fl))) =
      roots Width Height (pos2ec s))).
Proof.
  intros Hcoh Hit. unfold iteration, rand, c_rem in Hit. simpl in Hit.
  repeat case_decide; simplify_eq/=;
    apply knock_counters in Hit as (Hd & Ht & Hrest); done.
Qed.

Lemma open_walls_init :
  open_walls (resize2 Height Width Adjacency_init) Width Height = 0%nat.
Proof.
  assert (∀ d, filter (λ p, wall_openb (resize2 Height Width Adjacency_init)
                              Width Height d p = true)
                      (cells Width Height) = []) as Hnone.
  { intros d. induction (cells Width Height) as [|p l IH]; [done|].
    rewrite filter_cons_False; [done|]. unfold wall_openb.
    destruct (at2 _ p) as [a|] eqn:Ha; [|by rewrite andb_false_r].
    apply at2_resize2 in Ha as ->.
    assert (flag d Adjacency_init = false) as -> by (by destruct d).
    by rewrite andb_false_r. }
  unfold open_walls. by rewrite !Hnone.
Qed.

Lemma roots_init :
  0 ≤ Height → (0 < Height → 0 ≤ Width) →
  roots Width Height (EqClass.init Height Width) =
  length (cells Width Height).
Proof.
  intros Hh Hw. unfold roots. f_equal.
  pose proof (init_well_formed Width Height Hh Hw) as [Hrect _].
  assert (∀ l, Forall (in_bounds Width Height) l →
            filter (is_root (EqClass.init Height Width)) l = l) as Hall.
  { induction 1 as [|p l Hp _ IH]; [done|].
    rewrite filter_cons_True; [by rewrite IH|]. unfold is_root.
    destruct (in_bounds_at2 _ _ _ _ Hrect Hp) as [e He].
    by rewrite He, (at2_init _ _ _ _ He). }
  apply Hall, Forall_forall. intros p. apply elem_of_cells.
Qed.

(** At the top of the loop: three draws for each pass so far, as many
    productive passes as open walls, and one class less for each of
    them. *)
Lemma loop_head_counters s :
  loop_head rng Width Height sx sy fx fy mask s →
  Z.of_nat (drawn s) = 3 * total_iterations s ∧
  productive_iterations s = Z.of_nat (open_walls (adj_out s) Width Height) ∧
  0 ≤ productive_iterations s ≤ total_iterations s ∧
  (roots Width Height (pos2ec s) + open_walls (adj_out s) Width Height =
   length (cells Width Height))%nat.
Proof.
  induction 1 as [s Hinit|s s' Hhead IH Hit].
  - unfold Generate_init in Hinit. case_decide as Hneg; [done|].
    simplify_eq/=. rewrite open_walls_init, roots_init by lia. lia.
  - destruct (iteration_counters _ _ (loop_head_coherent _ _ _ _ _ _ _ _ _ Hhead)
                Hit) as (Hd & Ht & [(_ & Hp & Hw & Hr)|(Hp & Hw & Hr)]);
      simpl in *; lia.
Qed.

Lemma return_counters fuel s :
  Generate_run rng Width Height sx sy fx fy mask fuel = Returned s →
  Z.of_nat (drawn s) = 3 * (total_iterations s + 1) ∧
  productive_iterations s = Z.of_nat (open_walls (adj_out s) Width Height) ∧
  1 ≤ productive_iterations s ≤ total_iterations s + 1 ∧
  (roots Width Height (pos2ec s) + open_walls (adj_out s) Width Height =
   length (cells Width Height))%nat.
Proof.
  intros (s0 & Hhead & Hit)%Generate_run_returned.
  pose proof (loop_head_coherent _ _ _ _ _ _ _ _ _ Hhead) as Hcoh.
  destruct (loop_head_counters _ Hhead) as (Hd0 & Hp0 & Ht0 & Hr0).
  destruct (iteration_counters _ _ Hcoh Hit)
    as (Hd & Ht & [(Hb & _)|(Hp & Hw & Hr)]); [done|].
  simpl in *. lia.
Qed.
End CounterFacts.

(** ** Generate: what it never does *)

Lemma rng_of_nonneg (l : list Z) :
  Forall (λ z, 0 ≤ z) l → ∀ i, 0 ≤ rng_of l i.
Proof.
  intros Hl i. unfold rng_of. destruct (l !! i) as [z|] eqn:Hz; [|done].
  simpl. by eapply (Forall_lookup_1 _ l i z).
Qed.

Lemma return_has_root
    (rng : nat → Z) (Width Height sx sy fx fy : Z) (mask : Mask)
    (fuel : nat) (s : GenState) :
  Generate_run rng Width Height sx sy fx fy mask fuel = Returned s →
  (1 ≤ roots Width Height (pos2ec s))%nat.
Proof.
  intros (s0 & Hhead & Hit)%Generate_run_returned.
  destruct (break_spec _ _ _ _ _ _ _ _ _ _ Hhead Hit)
    as (Hcoh & _ & d & p & a & Hrem).
  destruct Hrem as (_ & _ & _ & _ & _ & _ & _ & _ & Hstart & _).
  destruct (proj2 (coh_ecs _ _ _ _ Hcoh) _ Hstart) as [r Hr].
  assert (r ∈ filter (is_root (pos2ec s)) (cells Width Height)) as Hin.
  { apply list_elem_of_filter. split; [by eapply root_of_self|].
    apply elem_of_cells.
    exact (proj2 (root_of_in_bounds _ _ _ _ _ (proj1 (coh_ecs _ _ _ _ Hcoh)) Hr)). }
  unfold roots. destruct (filter _ _); [by apply elem_of_nil in Hin|].
  simpl. lia.
Qed.

Lemma loop_head_first_pass
    (rng : nat → Z) (Width Height sx sy fx fy : Z) (mask : Mask)
    (s : GenState) :
  loop_head rng Width Height sx sy fx fy mask s →
  total_iterations s = 0 → Generate_init Width Height = Some s.
Proof.
  intros Hhead Hzero. destruct Hhead as [s Hinit|s s' Hhead Hit]; [done|].
  pose proof (loop_head_coherent _ _ _ _ _ _ _ _ _ Hhead) as Hcoh.
  destruct (iteration_counters _ _ _ _ _ _ _ _ _ _ Hcoh Hit) as (_ & Ht & _).
  destruct (loop_head_counters _ _ _ _ _ _ _ _ _ Hhead) as (_ & _ & Hp & _).
  simpl in *. lia.
Qed.

Lemma rtc_one_edge {V} (E : V → V → Prop) (u v a b : V) :
  (∀ x y, E x y → (x = u ∧ y = v) ∨ (x = v ∧ y = u)) →
  rtc E a b → a = b ∨ E a b.
Proof.
  intros Hone. induction 1 as [a|a c b Hac _ IH]; [by left|].
  destruct IH as [->|Hcb]; [by right|]. left.
  destruct (Hone _ _ Hac) as [[-> ->]|[-> ->]],
    (Hone _ _ Hcb) as [[? ?]|[? ?]]; congruence.
Qed.

(** The loop ends in its first pass only when the wall removed there
    stands between start and finish, or when they are one cell. *)
Lemma first_pass_break
    (rng : nat → Z) (Width Height sx sy fx fy : Z) (mask : Mask)
    (fuel : nat) (s : GenState) :
  Generate_run rng Width Height sx sy fx fy mask fuel = Returned s →
  total_iterations s = 0 →
  (sy, sx) = (fy, fx) ∨ cardinal_step (sy, sx) (fy, fx).
Proof.
  intros (s0 & Hhead & Hit)%Generate_run_returned Hzero.
  pose proof (loop_head_coherent _ _ _ _ _ _ _ _ _ Hhead) as Hcoh.
  destruct (iteration_counters _ _ _ _ _ _ _ _ _ _ Hcoh Hit) as (_ & Ht & _).
  simpl in Ht. rewrite Hzero in Ht.
  pose proof (loop_head_first_pass _ _ _ _ _ _ _ _ _ Hhead (eq_sym Ht))
    as Hinit.
  destruct (break_spec _ _ _ _ _ _ _ _ _ _ Hhead Hit)
    as (_ & Hconn & d & p & a & _ & Ha & _ & Hset & Hp & Hq & _).
  simpl in Hset. apply connected_rtc in Hconn.
  unfold Generate_init in Hinit. case_decide; [done|]. simplify_eq/=.
  destruct (rtc_one_edge _ p (neighbor d p) _ _ (λ x y Hxy,
              match proj1 (edge_raise _ _ _ _ _ _ _ Ha Hset Hp Hq x y) Hxy
              with
              | or_introl Hinit => match edge_init _ _ _ _ _ _ Hinit with end
              | or_intror Hnew => Hnew
              end) Hconn) as [?|Hedge]; [by left|right].
  by eapply edge_cardinal_step.
Qed.

Lemma return_productive_bound
    (rng : nat → Z) (Width Height sx sy fx fy : Z) (mask : Mask)
    (fuel : nat) (s : GenState) :
  Generate_run rng Width Height sx sy fx fy mask fuel = Returned s →
  1 ≤ productive_iterations s <
    Z.of_nat (Z.to_nat Height * Z.to_nat Width).
Proof.
  intros Hret. pose proof (return_has_root _ _ _ _ _ _ _ _ _ _ Hret) as Hroot.
  destruct (return_counters _ _ _ _ _ _ _ _ _ _ Hret) as (_ & Hp & Ht & Hsum).
  rewrite length_cells in Hsum. lia.
Qed.

(** X7. On a maze of at least two rows and two columns, with start and
    finish inside it and random numbers that are not negative, the loop
    of Generate never reads or writes outside a vector and never takes a
    remainder by zero, however long it runs. If moreover the maze has at
    most INT_MAX/100 cells, start and finish are different and not next
    to each other, and the run has at most INT_MAX passes, so that no
    counter overflows, then the statistic after the loop does not divide
    by zero either. *)
Theorem Generate_stays_in_bounds
    (rng : nat → Z) (Width Height sx sy fx fy : Z) (mask : Mask)
    (fuel : nat) :
  (∀ i, 0 ≤ rng i) → 2 ≤ Width → 2 ≤ Height →
  in_bounds Width Height (sy, sx) → in_bounds Width Height (fy, fx) →
  Generate rng Width Height sx sy fx fy mask fuel ≠ Fault ∧
  ((sy, sx) ≠ (fy, fx) → ¬ cardinal_step (sy, sx) (fy, fx) →
   100 * (Width * Height) ≤ INT_MAX → Z.of_nat fuel ≤ INT_MAX →
   Generate_with_statistic rng Width Height sx sy fx fy mask fuel ≠ Fault).
Proof.
  intros Hrng Hw Hh Hstart Hfinish.
  pose proof (Generate_no_fault rng Width Height sx sy fx fy mask Hrng Hw Hh
                Hstart Hfinish fuel) as Hloop.
  split; [done|]. intros Hne Hfar Hsize _.
  unfold Generate_with_statistic. unfold Generate in Hloop.
  destruct (Generate_run _ _ _ _ _ _ _ _ _) as [s| |] eqn:Hret; [|done..].
  pose proof (return_productive_bound _ _ _ _ _ _ _ _ _ _ Hret) as Hprod.
  unfold statistic, INT_MIN. unfold INT_MAX in *.
  rewrite bool_decide_eq_true_2 by nia.
  rewrite bool_decide_eq_false_2; [done|]. intros Hzero.
  destruct (first_pass_break _ _ _ _ _ _ _ _ _ _ Hret Hzero); done.
Qed.

Lemma Generate_stays_in_bounds_witness :
  (∀ i, 0 ≤ rng_of [0; 0; 0;  1; 1; 0] i) ∧
  (0, 0) ≠ (1, 1) ∧ (¬ cardinal_step (0, 0) (1, 1)) ∧
  Generate (rng_of [0; 0; 0;  1; 1; 0]) 2 2 0 0 1 1 ∅ 10 ≠ Fault ∧
  Generate_with_statistic (rng_of [0; 0; 0;  1; 1; 0]) 2 2 0 0 1 1 ∅ 10
    ≠ Fault.
Proof.
  assert (∀ i, 0 ≤ rng_of [0; 0; 0;  1; 1; 0] i) as Hrng.
  { apply rng_of_nonneg. by repeat constructor. }
  assert ((0, 0) ≠ (1, 1)) as Hne by done.
  assert (¬ cardinal_step (0, 0) (1, 1)) as Hfar by (by vm_compute).
  destruct (Generate_stays_in_bounds _ 2 2 0 0 1 1 ∅ 10 Hrng)
    as [Hloop Hwhole]; [done|done|by apply in_bounds_2_2..|].
  split_and!; [done..|].
  apply Hwhole; [done|done|by vm_compute|by vm_compute].
Defined.

(** Every state at the top of a pass is reached by [Generate] after some
    number of passes. *)
Lemma loop_head_reached
    (rng : nat → Z) (Width Height sx sy fx fy : Z) (mask : Mask)
    (s : GenState) :
  loop_head rng Width Height sx sy fx fy mask s →
  ∃ k, ∀ fuel,
    Generate_run rng Width Height sx sy fx fy mask (k + fuel) =
    Generate_loop rng Width Height sx sy fx fy mask fuel s.
Proof.
  induction 1 as [s Hinit|s s' _ [k IH] Hit].
  - exists 0%nat. intros fuel. unfold Generate_run. by rewrite Hinit.
  - exists (S k). intros fuel.
    replace (S k + fuel)%nat with (k + S fuel)%nat by lia.
    rewrite IH. simpl. by rewrite Hit.
Qed.

Lemma fault_from_loop_head
    (rng : nat → Z) (Width Height sx sy fx fy : Z) (mask : Mask)
    (s : GenState) :
  loop_head rng Width Height sx sy fx fy mask s →
  iteration rng Width Height sx sy fx fy mask s = None →
  ∃ k, ∀ fuel, (k < fuel)%nat →
    Generate rng Width Height sx sy fx fy mask fuel = Fault.
Proof.
  intros [k Hk]%loop_head_reached Hit. exists k. intros fuel Hfuel.
  replace fuel with (k + S (fuel - S k))%nat by lia.
  unfold Generate. rewrite Hk. simpl. by rewrite Hit.
Qed.

(** X8. On a maze of one column every pass of the loop that draws an east
    wall divides by zero in [rand() % (Width-1)], and on a maze of one
    row every pass that draws a south wall divides by zero in
    [rand() % (Height-1)], or before that in [rand() % Width] when Width
    is 0: whichever pass it is, the pass does not end, and neither does
    any run of Generate that is long enough to come to it. *)
Theorem Generate_thin_maze_divides_by_zero
    (rng : nat → Z) (Width Height sx sy fx fy : Z) (mask : Mask)
    (s : GenState) :
  loop_head rng Width Height sx sy fx fy mask s →
  (Width = 1 → Z.rem (rng (drawn s)) 2 = 0 →
   c_rem (rng (S (drawn s))) (Width - 1) = None ∧
   iteration rng Width Height sx sy fx fy mask s = None ∧
   ∃ k, ∀ fuel, (k < fuel)%nat →
     Generate rng Width Height sx sy fx fy mask fuel = Fault) ∧
  (Height = 1 → Z.rem (rng (drawn s)) 2 ≠ 0 →
   ((Width = 0 ∧ c_rem (rng (S (drawn s))) Width = None) ∨
    (Width ≠ 0 ∧ c_rem (rng (S (S (drawn s)))) (Height - 1) = None)) ∧
   iteration rng Width Height sx sy fx fy mask s = None ∧
   ∃ k, ∀ fuel, (k < fuel)%nat →
     Generate rng Width Height sx sy fx fy mask fuel = Fault).
Proof.
  intros Hhead. split; intros -> Hdraw.
  - assert (iteration rng 1 Height sx sy fx fy mask s = None) as Hit.
    { unfold iteration, rand. simpl. by rewrite decide_True by done. }
    split_and!; [done|done|]. by apply (fault_from_loop_head _ _ _ _ _ _ _ _ s).
  - assert (iteration rng Width 1 sx sy fx fy mask s = None) as Hit.
    { unfold iteration, rand. simpl. rewrite decide_False by done.
      by destruct (c_rem _ Width). }
    split_and!; [|done|].
    { destruct (decide (Width = 0)) as [->|?]; [by left|by right]. }
    by apply (fault_from_loop_head _ _ _ _ _ _ _ _ s).
Qed.

Lemma state_one_column_head :
  loop_head (rng_of [1; 0; 0;  0; 0; 0]) 1 3 0 0 0 2 ∅ state_one_column.
Proof.
  refine (head_next _ _ _ _ _ _ _ _ _
            {| adj_out := adj_out state_one_column;
               pos2ec := pos2ec state_one_column;
               drawn := 3; total_iterations := 0;
               productive_iterations := 1 |} (head_first _ _ _ _ _ _ _ _ _ _) _);
    by vm_compute.
Qed.

Lemma Generate_thin_maze_divides_by_zero_witness :
  c_rem (rng_of [1; 0; 0;  0; 0; 0] (S (drawn state_one_column))) (1 - 1)
    = None ∧
  iteration (rng_of [1; 0; 0;  0; 0; 0]) 1 3 0 0 0 2 ∅ state_one_column
    = None ∧
  ∃ k, ∀ fuel, (k < fuel)%nat →
    Generate (rng_of [1; 0; 0;  0; 0; 0]) 1 3 0 0 0 2 ∅ fuel = Fault.
Proof.
  apply (proj1 (Generate_thin_maze_divides_by_zero
                  (rng_of [1; 0; 0;  0; 0; 0]) 1 3 0 0 0 2 ∅
                  state_one_column state_one_column_head));
    by vm_compute.
Defined.

(** X9. When Generate returns, the left-over of the mask test: the flags
    [to_east] and [to_south] of every masked cell are false. *)
Theorem Generate_masked_cell_keeps_own_flags
    (rng : nat → Z) (Width Height sx sy fx fy : Z) (mask : Mask)
    (fuel : nat) (adj : Connections) (p : Pos) (a : Adjacency) :
  Generate rng Width Height sx sy fx fy mask fuel = Returned adj →
  p ∈ mask → at2 adj p = Some a →
  to_east a = false ∧ to_south a = false.
Proof.
  intros (_ & _ & _ & _ & _ & Hmask)%Generate_returned_spec Hp Ha.
  by rewrite (Hmask p a Hp Ha).
Qed.

Lemma Generate_masked_cell_keeps_own_flags_witness :
  to_east (open_cell false false) = false ∧
  to_south (open_cell false false) = false.
Proof.
  apply (Generate_masked_cell_keeps_own_flags
           (rng_of [0; 0; 0;  1; 0; 0;  0; 0; 1]) 2 2 0 0 1 1
           mask_east_cell 10 maze_into_east_cell (0, 1)).
  - by vm_compute.
  - by apply elem_of_singleton.
  - done.
Defined.

(** X10. The matrix that Generate returns has Height rows of Width cells,
    and no flag in it points out of the maze: [to_east] is false in the
    last column and [to_south] is false in the last row. *)
Theorem Generate_matrix_shape
    (rng : nat → Z) (Width Height sx sy fx fy : Z) (mask : Mask)
    (fuel : nat) (adj : Connections) :
  Generate rng Width Height sx sy fx fy mask fuel = Returned adj →
  rect Width Height adj ∧
  ∀ y x a, at2 adj (y, x) = Some a →
           (x = Width - 1 → to_east a = false) ∧
           (y = Height - 1 → to_south a = false).
Proof.
  intros (Hrect & _ & _ & _ & Hin & _)%Generate_returned_spec.
  split; [done|]. intros y x a Ha. split; intros ->.
  - destruct (to_east a) eqn:Hf; [|done].
    destruct (Hin _ _ East Ha Hf) as [_ ?]. simpl in *. lia.
  - destruct (to_south a) eqn:Hf; [|done].
    destruct (Hin _ _ South Ha Hf) as [? _]. simpl in *. lia.
Qed.

Lemma Generate_matrix_shape_witness :
  rect 2 2 maze_two_walls ∧
  ∀ y x a, at2 maze_two_walls (y, x) = Some a →
           (x = 2 - 1 → to_east a = false) ∧
           (y = 2 - 1 → to_south a = false).
Proof.
  apply (Generate_matrix_shape (rng_of [0; 0; 0;  1; 1; 0])
           2 2 0 0 1 1 ∅ 10).
  by vm_compute.
Defined.

(** X11. When no chain of walls that Generate can remove (the walls on
    the east and south side of unmasked cells) leads from start to
    finish, Generate never returns: it stays in its loop for ever. *)
Theorem Generate_loops_forever_when_cut
    (rng : nat → Z) (Width Height sx sy fx fy : Z) (mask : Mask)
    (fuel : nat) :
  (∀ i, 0 ≤ rng i) → 2 ≤ Width → 2 ≤ Height →
  in_bounds Width Height (sy, sx) → in_bounds Width Height (fy, fx) →
  (¬ ∃ l, joins l (sy, sx) (fy, fx) ∧
          chain (removable_step mask Width Height) l) →
  Generate rng Width Height sx sy fx fy mask fuel = OutOfFuel.
Proof.
  intros Hrng Hw Hh Hstart Hfinish Hcut.
  pose proof (Generate_no_fault rng Width Height sx sy fx fy mask
                Hrng Hw Hh Hstart Hfinish fuel) as Hnofault.
  destruct (Generate rng Width Height sx sy fx fy mask fuel)
    as [adj| |] eqn:Hgen; [exfalso|done..].
  apply Hcut.
  pose proof (Generate_returned_spec _ _ _ _ _ _ _ _ _ _ Hgen)
    as (_ & _ & (l & Hj & Hc) & _).
  exists l. split; [done|]. eapply chain_mono; [|done].
  intros p q. by apply (Generate_edges_removable _ _ _ _ _ _ _ _ _ _ _ _ Hgen).
Qed.

(** No removable wall touches a masked top-left cell. *)
Lemma origin_masked_cut (Width Height fx fy : Z) (mask : Mask) :
  (0, 0) ∈ mask → (fy, fx) ≠ (0, 0) →
  ¬ ∃ l, joins l (0, 0) (fy, fx) ∧
         chain (removable_step mask Width Height) l.
Proof.
  intros Hmask Hne (l & Hj & Hc). apply Hne.
  apply (chain_stays_in (removable_step mask Width Height)
           (λ p, p = (0, 0)) l (0, 0) (fy, fx)); [|done..].
  intros x y -> [(d & _ & _ & _ & Hm)|(d & [[??] [??]] & _ & Heq & _)];
    [done|].
  destruct d, y as [yy yx]; simplify_eq/=; lia.
Qed.

(** With both neighbours of the finish (1,1) masked, no removable wall
    leads to it. *)
Lemma around_finish_cut :
  ¬ ∃ l, joins l (0, 0) (1, 1) ∧
         chain (removable_step mask_around_finish 2 2) l.
Proof.
  intros (l & Hj & Hc).
  apply (chain_stays_in (removable_step mask_around_finish 2 2)
           (λ p, p ≠ (1, 1)) l (0, 0) (1, 1)); [|done..].
  intros x y Hx Hstep ->.
  destruct Hstep as [(d & _ & _ & Heq & Hm)|(d & _ & [[??] [??]] & Heq & _)].
  - apply Hm. unfold mask_around_finish.
    destruct d, x as [y x]; simplify_eq/=.
    + replace x with 0 by lia. apply elem_of_union. right.
      by apply elem_of_singleton.
    + replace y with 0 by lia. apply elem_of_union. left.
      by apply elem_of_singleton.
  - destruct d; subst x; simpl in *; lia.
Qed.

Lemma Generate_loops_forever_when_cut_witness :
  (∀ i, 0 ≤ rng_of [1; 2; 3] i) ∧
  Generate (rng_of [1; 2; 3]) 2 2 0 0 1 1 mask_around_finish 7 = OutOfFuel.
Proof.
  assert (∀ i, 0 ≤ rng_of [1; 2; 3] i) as Hrng.
  { apply rng_of_nonneg. by repeat constructor. }
  split; [done|].
  apply (Generate_loops_forever_when_cut _ 2 2 0 0 1 1 mask_around_finish 7
           Hrng); [done|done|by apply in_bounds_2_2..|].
  exact around_finish_cut.
Defined.

(** X12. When the start is the top-left cell, as in [main], and that cell
    is masked, Generate never returns, whatever the rest of the mask. *)
Theorem Generate_loops_forever_when_origin_masked
    (rng : nat → Z) (Width Height fx fy : Z) (mask : Mask) (fuel : nat) :
  (∀ i, 0 ≤ rng i) → 2 ≤ Width → 2 ≤ Height →
  in_bounds Width Height (fy, fx) → (fy, fx) ≠ (0, 0) →
  (0, 0) ∈ mask →
  Generate rng Width Height 0 0 fx fy mask fuel = OutOfFuel.
Proof.
  intros Hrng Hw Hh Hfinish Hne Hmask.
  assert (in_bounds Width Height (0, 0)) as Hstart
    by (unfold in_bounds; simpl; lia).
  pose proof (Generate_no_fault rng Width Height 0 0 fx fy mask
                Hrng Hw Hh Hstart Hfinish fuel) as Hnofault.
  destruct (Generate rng Width Height 0 0 fx fy mask fuel)
    as [adj| |] eqn:Hgen; [exfalso|done..].
  apply (origin_masked_cut Width Height fx fy mask Hmask Hne).
  pose proof (Generate_returned_spec _ _ _ _ _ _ _ _ _ _ Hgen)
    as (_ & _ & (l & Hj & Hc) & _).
  exists l. split; [done|]. eapply chain_mono; [|done].
  intros p q. by apply (Generate_edges_removable _ _ _ _ _ _ _ _ _ _ _ _ Hgen).
Qed.

Lemma Generate_loops_forever_when_origin_masked_witness :
  (∀ i, 0 ≤ rng_of [0; 0; 0;  1; 1; 0] i) ∧
  Generate (rng_of [0; 0; 0;  1; 1; 0]) 2 2 0 0 1 1 mask_origin 9 =
    OutOfFuel.
Proof.
  assert (∀ i, 0 ≤ rng_of [0; 0; 0;  1; 1; 0] i) as Hrng.
  { apply rng_of_nonneg. by repeat constructor. }
  split; [done|].
  apply (Generate_loops_forever_when_origin_masked _ 2 2 1 1 mask_origin 9
           Hrng); [done|done|by apply in_bounds_2_2|done|].
  by apply elem_of_singleton.
Defined.

(** X13. When Generate returns after fewer than INT_MAX passes, so that
    no counter has overflowed, [productive_iterations] is the number of
    open walls of the matrix, [rand] has been called three times for each
    pass, and, the last pass not being counted in [total_iterations],
    [productive_iterations] is at least 1 and at most
    [total_iterations + 1]; both counters are within the range of
    [int]. *)
Theorem Generate_counters
    (rng : nat → Z) (Width Height sx sy fx fy : Z) (mask : Mask)
    (fuel : nat) (s : GenState) :
  Generate_run rng Width Height sx sy fx fy mask fuel = Returned s →
  total_iterations s < INT_MAX →
  productive_iterations s = Z.of_nat (open_walls (adj_out s) Width Height) ∧
  Z.of_nat (drawn s) = 3 * (total_iterations s + 1) ∧
  1 ≤ productive_iterations s ≤ total_iterations s + 1 ∧
  0 ≤ total_iterations s ∧ productive_iterations s ≤ INT_MAX.
Proof.
  intros (Hd & Hp & Ht & _)%return_counters Hint. split_and!; try done; lia.
Qed.

Lemma Generate_counters_witness :
  ∃ s, Generate_run (rng_of [0; 0; 0;  1; 1; 0]) 2 2 0 0 1 1 ∅ 10 =
         Returned s ∧
       productive_iterations s = Z.of_nat (open_walls (adj_out s) 2 2) ∧
       Z.of_nat (drawn s) = 3 * (total_iterations s + 1) ∧
       1 ≤ productive_iterations s ≤ total_iterations s + 1 ∧
       0 ≤ total_iterations s ∧ productive_iterations s ≤ INT_MAX.
Proof.
  eexists. split; [by vm_compute|].
  apply (Generate_counters (rng_of [0; 0; 0;  1; 1; 0]) 2 2 0 0 1 1 ∅ 10).
  - by vm_compute.
  - by vm_compute.
Defined.

(** X14. Generate removes fewer walls than the maze has cells: the
    matrix it returns has at most Width*Height - 1 open walls. *)
Theorem Generate_walls_bound
    (rng : nat → Z) (Width Height sx sy fx fy : Z) (mask : Mask)
    (fuel : nat) (adj : Connections) :
  Generate rng Width Height sx sy fx fy mask fuel = Returned adj →
  (open_walls adj Width Height < Z.to_nat Height * Z.to_nat Width)%nat.
Proof.
  unfold Generate.
  destruct (Generate_run rng Width Height sx sy fx fy mask fuel)
    as [s| |] eqn:Hrun; [|done..].
  intros [= <-].
  pose proof (return_has_root _ _ _ _ _ _ _ _ _ _ Hrun).
  destruct (return_counters _ _ _ _ _ _ _ _ _ _ Hrun) as (_ & _ & _ & Hsum).
  rewrite length_cells in Hsum. lia.
Qed.

Lemma Generate_walls_bound_witness :
  (open_walls maze_three_walls 2 2 < Z.to_nat 2 * Z.to_nat 2)%nat.
Proof.
  apply (Generate_walls_bound (rng_of [0; 0; 0;  0; 0; 1;  1; 1; 0])
           2 2 0 0 1 1 ∅ 10).
  by vm_compute.
Defined.

(** A pass of the loop lowers no flag. *)
Lemma iteration_keeps_open
    (rng : nat → Z) (Width Height sx sy fx fy : Z) (mask : Mask)
    (s : GenState) (fl : flow) (d : Dir) (p : Pos) :
  coherent Width Height (adj_out s) (pos2ec s) →
  iteration rng Width Height sx sy fx fy mask s = Some fl →
  wall_open (adj_out s) d p → wall_open (adj_out (flow_state fl)) d p.
Proof.
  intros Hcoh Hit Hopen.
  destruct (iteration_spec _ _ _ _ _ _ _ _ _ _ Hcoh Hit)
    as [_ [[_ ->]|(d' & p' & a & _ & Ha & _ & Hset & _)]]; [done|].
  apply (wall_open_raise _ _ _ _ _ d p Ha Hset). by left.
Qed.

(** X15. Generate never puts a wall back: a wall that is open at the top
    of some pass of the loop is open in the matrix of the state in which
    the loop ends. *)
Theorem Generate_never_closes_a_wall
    (rng : nat → Z) (Width Height sx sy fx fy : Z) (mask : Mask)
    (fuel : nat) (s s' : GenState) (d : Dir) (p : Pos) :
  loop_head rng Width Height sx sy fx fy mask s →
  Generate_loop rng Width Height sx sy fx fy mask fuel s = Returned s' →
  wall_open (adj_out s) d p → wall_open (adj_out s') d p.
Proof.
  revert s. induction fuel as [|fuel IH]; intros s Hhead Hret Hopen; [done|].
  simpl in Hret.
  destruct (iteration rng Width Height sx sy fx fy mask s)
    as [[s1|s1]|] eqn:Hit; [| |done].
  - apply (IH (next_iteration s1)); [by eapply head_next|done|].
    apply (iteration_keeps_open _ _ _ _ _ _ _ _ _ _ _ _
             (loop_head_coherent _ _ _ _ _ _ _ _ _ Hhead) Hit Hopen).
  - simplify_eq.
    apply (iteration_keeps_open _ _ _ _ _ _ _ _ _ _ _ _
             (loop_head_coherent _ _ _ _ _ _ _ _ _ Hhead) Hit Hopen).
Qed.

Lemma state_after_east_head :
  loop_head (rng_of [0; 0; 0;  1; 1; 0]) 2 2 0 0 1 1 ∅ state_after_east.
Proof.
  refine (head_next _ _ _ _ _ _ _ _ _
            {| adj_out := adj_out state_after_east;
               pos2ec := pos2ec state_after_east;
               drawn := 3; total_iterations := 0;
               productive_iterations := 1 |} (head_first _ _ _ _ _ _ _ _ _ _) _);
    by vm_compute.
Qed.

Lemma Generate_never_closes_a_wall_witness :
  wall_open (adj_out state_after_east) East (0, 0) ∧
  wall_open maze_two_walls East (0, 0).
Proof.
  assert (wall_open (adj_out state_after_east) East (0, 0)) as Hopen
    by (by eexists).
  split; [done|].
  apply (Generate_never_closes_a_wall (rng_of [0; 0; 0;  1; 1; 0])
           2 2 0 0 1 1 ∅ 5 state_after_east
           {| adj_out := maze_two_walls;
              pos2ec := [[{| rep := (0, 0) |}; {| rep := (0, 0) |}];
                         [{| rep := (1, 0) |}; {| rep := (0, 0) |}]];
              drawn := 6; total_iterations := 1;
              productive_iterations := 2 |} East (0, 0)).
  - exact state_after_east_head.
  - by vm_compute.
  - exact Hopen.
Defined.

(** X30. When the loop of Generate ends in its first pass, the statistic
    that follows divides by [(float)total_iterations] with
    [total_iterations] 0; this happens only when one wall has been
    removed and start and finish are one cell or next to each other. *)
Theorem Generate_statistic_divides_by_zero
    (rng : nat → Z) (Width Height sx sy fx fy : Z) (mask : Mask)
    (fuel : nat) (s : GenState) :
  Generate_run rng Width Height sx sy fx fy mask fuel = Returned s →
  total_iterations s = 0 →
  statistic s = None ∧
  Generate_with_statistic rng Width Height sx sy fx fy mask fuel = Fault ∧
  productive_iterations s = 1 ∧
  ((sy, sx) = (fy, fx) ∨ cardinal_step (sy, sx) (fy, fx)).
Proof.
  intros Hret Hzero.
  destruct (return_counters _ _ _ _ _ _ _ _ _ _ Hret) as (_ & _ & Hp & _).
  assert (statistic s = None) as Hstat.
  { unfold statistic. case_bool_decide; [|done].
    by rewrite bool_decide_eq_true_2. }
  split_and!; [done| |lia|by eapply first_pass_break].
  unfold Generate_with_statistic. by rewrite Hret, Hstat.
Qed.

Lemma Generate_statistic_divides_by_zero_witness :
  ∃ s, Generate_run (rng_of [1; 0; 0]) 2 2 0 0 0 1 ∅ 10 = Returned s ∧
       statistic s = None ∧
       Generate_with_statistic (rng_of [1; 0; 0]) 2 2 0 0 0 1 ∅ 10 = Fault ∧
       productive_iterations s = 1 ∧
       ((0, 0) = (1, 0) ∨ cardinal_step (0, 0) (1, 0)).
Proof.
  eexists. split; [by vm_compute|].
  apply (Generate_statistic_divides_by_zero (rng_of [1; 0; 0]) 2 2 0 0 0 1 ∅
           10).
  - by vm_compute.
  - by vm_compute.
Defined.

(** ** Solve *)

Lemma chain_all_in_bounds (adj : Connections) (Width Height : Z)
    (l : Path) (p : Pos) :
  chain (edge adj Width Height) l → head l = Some p →
  in_bounds Width Height p → Forall (in_bounds Width Height) l.
Proof.
  revert p. induction l as [|a l IH]; intros p Hc Hh Hp; [done|].
  simpl in Hh. simplify_eq. constructor; [done|].
  destruct l as [|b l]; [done|]. cbn [chain] in Hc. destruct Hc as [Hab Hc].
  apply (IH b); [done..|]. by apply edge_in_bounds in Hab as [_ ?].
Qed.

(** X16. A path that Solve returns stays inside the maze and has at most
    Width*Height cells. *)
Theorem Solve_path_inside
    (adj : Connections) (Width Height sx sy fx fy : Z)
    (fuel : nat) (path_out path : Path) :
  rect Width Height adj →
  in_bounds Width Height (sy, sx) →
  Solve adj Width Height sx sy fx fy fuel path_out = Returned (true, path) →
  Forall (in_bounds Width Height) path ∧
  (length path ≤ Z.to_nat Height * Z.to_nat Width)%nat.
Proof.
  intros Hrect Hstart Hret.
  destruct (Solve_true_path adj Width Height Hrect sx sy fx fy Hstart
              fuel path_out path Hret) as [[Hh _] [Hnd Hc]].
  assert (Forall (in_bounds Width Height) path) as Hin
    by (by eapply chain_all_in_bounds).
  split; [done|]. by apply cells_pigeonhole.
Qed.

Lemma Solve_path_inside_witness :
  Forall (in_bounds 2 2) [(0, 0); (0, 1); (1, 1)] ∧
  (length [(0, 0); (0, 1); (1, 1)] ≤ Z.to_nat 2 * Z.to_nat 2)%nat.
Proof.
  apply (Solve_path_inside maze_two_walls 2 2 0 0 1 1 10 []).
  - exact maze_two_walls_rect.
  - by apply in_bounds_2_2.
  - by vm_compute.
Defined.

(** X17. Solve finds a path from start to finish exactly when it finds
    one from finish to start, although only the east and south side of
    each cell are stored. *)
Theorem Solve_symmetric
    (adj : Connections) (Width Height sx sy fx fy : Z)
    (fuel : nat) (path_out : Path) :
  rect Width Height adj →
  in_bounds Width Height (sy, sx) → in_bounds Width Height (fy, fx) →
  (5 ^ (Z.to_nat Height * Z.to_nat Width) ≤ fuel)%nat →
  ∃ b there back,
    Solve adj Width Height sx sy fx fy fuel path_out = Returned (b, there) ∧
    Solve adj Width Height fx fy sx sy fuel path_out = Returned (b, back).
Proof.
  intros Hrect Hstart Hfinish Hfuel.
  destruct (Solve_decides adj Width Height Hrect sx sy fx fy Hstart
              fuel path_out Hfuel) as (b & there & Hret & Hiff).
  destruct (Solve_decides adj Width Height Hrect fx fy sx sy Hfinish
              fuel path_out Hfuel) as (b' & back & Hret' & Hiff').
  exists b, there, back. split; [done|]. rewrite Hret'. do 2 f_equal.
  assert (connected adj Width Height (sy, sx) (fy, fx) ↔
          connected adj Width Height (fy, fx) (sy, sx)) as Hsym.
  { rewrite !connected_rtc. split; apply rtc_sym, edge_sym. }
  destruct b, b'; try done.
  - exact (proj2 Hiff' (proj1 Hsym (proj1 Hiff eq_refl))).
  - symmetry. exact (proj2 Hiff (proj2 Hsym (proj1 Hiff' eq_refl))).
Qed.

Lemma Solve_symmetric_witness :
  ∃ b there back,
    Solve maze_two_walls 2 2 0 0 1 1 625 [] = Returned (b, there) ∧
    Solve maze_two_walls 2 2 1 1 0 0 625 [] = Returned (b, back).
Proof.
  apply (Solve_symmetric maze_two_walls 2 2 0 0 1 1 625 []).
  - exact maze_two_walls_rect.
  - by apply in_bounds_2_2.
  - by apply in_bounds_2_2.
  - by vm_compute.
Defined.

(** X18. With the finish outside the maze, Solve returns false and leaves
    [path_out] as it was. *)
Theorem Solve_finish_outside
    (adj : Connections) (Width Height sx sy fx fy : Z)
    (fuel : nat) (path_out : Path) :
  rect Width Height adj →
  in_bounds Width Height (sy, sx) → ¬ in_bounds Width Height (fy, fx) →
  (5 ^ (Z.to_nat Height * Z.to_nat Width) ≤ fuel)%nat →
  Solve adj Width Height sx sy fx fy fuel path_out =
    Returned (false, path_out).
Proof.
  intros Hrect Hstart Hfinish Hfuel.
  destruct (Solve_decides adj Width Height Hrect sx sy fx fy Hstart
              fuel path_out Hfuel) as (b & path & Hret & Hiff).
  destruct b.
  - exfalso. apply Hfinish.
    destruct (proj1 Hiff eq_refl) as (l & Hj & Hc).
    by eapply chain_last_in_bounds.
  - by rewrite Hret, (Solve_loop_false _ _ _ _ _ _ _ _ _ Hret).
Qed.

Lemma Solve_finish_outside_witness :
  (¬ in_bounds 2 2 (1, 2)) ∧
  Solve maze_two_walls 2 2 0 0 2 1 625 [(5, 5)] = Returned (false, [(5, 5)]).
Proof.
  assert (¬ in_bounds 2 2 (1, 2)) as Hout
    by (intros [_ [_ ?]]; simpl in *; lia).
  split; [done|].
  apply (Solve_finish_outside maze_two_walls 2 2 0 0 2 1 625 [(5, 5)]).
  - exact maze_two_walls_rect.
  - by apply in_bounds_2_2.
  - exact Hout.
  - by vm_compute.
Defined.

(** X19. On a matrix that Generate has returned, Solve, called with the
    same start and finish, returns true with the only simple path through
    open walls that leads from start to finish. *)
Theorem Solve_after_Generate
    (rng : nat → Z) (Width Height sx sy fx fy : Z) (mask : Mask)
    (fuel fuel' : nat) (adj : Connections) (path_out : Path) :
  Generate rng Width Height sx sy fx fy mask fuel = Returned adj →
  (5 ^ (Z.to_nat Height * Z.to_nat Width) ≤ fuel')%nat →
  ∃ path,
    Solve adj Width Height sx sy fx fy fuel' path_out =
      Returned (true, path) ∧
    ∀ path', joins path' (sy, sx) (fy, fx) →
             simple_path (edge adj Width Height) path' → path' = path.
Proof.
  intros (Hrect & Hfor & Hconn & Hstart & _)%Generate_returned_spec Hfuel.
  destruct (Solve_decides adj Width Height Hrect sx sy fx fy Hstart
              fuel' path_out Hfuel) as (b & path & Hret & Hiff).
  rewrite (proj2 Hiff Hconn) in Hret. exists path. split; [done|].
  destruct (Solve_true_path adj Width Height Hrect sx sy fx fy Hstart
              fuel' path_out path Hret) as [Hj Hsp].
  intros path' Hj' Hsp'. by apply (Hfor path' path (sy, sx) (fy, fx)).
Qed.

Lemma Solve_after_Generate_witness :
  ∃ path,
    Solve maze_two_walls 2 2 0 0 1 1 625 [] = Returned (true, path) ∧
    ∀ path', joins path' (0, 0) (1, 1) →
             simple_path (edge maze_two_walls 2 2) path' → path' = path.
Proof.
  apply (Solve_after_Generate (rng_of [0; 0; 0;  1; 1; 0]) 2 2 0 0 1 1 ∅
           10 625 maze_two_walls []).
  - by vm_compute.
  - by vm_compute.
Defined.

(** ** Draw *)

Lemma lines_app_line (l rest : list glyph) :
  Newline ∉ l → lines (l ++ Newline :: rest) = l :: lines rest.
Proof.
  induction l as [|g l IH]; intros Hl; [done|].
  apply not_elem_of_cons in Hl as [Hg Hl].
  change ((g :: l) ++ Newline :: rest) with (g :: (l ++ Newline :: rest)).
  destruct g; try done; simpl; by rewrite (IH Hl).
Qed.

Lemma lines_unlines (pic : list (list glyph)) :
  Forall (λ l, Newline ∉ l) pic → lines (unlines pic) = pic.
Proof.
  induction 1 as [|l pic Hl _ IH]; [done|].
  unfold unlines in *. rewrite bind_cons, <-(assoc_L (++)). simpl.
  by rewrite (lines_app_line _ _ Hl), IH.
Qed.

Lemma unlines_app (a b : list (list glyph)) :
  unlines (a ++ b) = unlines a ++ unlines b.
Proof. unfold unlines. by rewrite bind_app. Qed.

Lemma mapM_total {A B} (f : A → option B) (g : A → B) (l : list A) :
  (∀ x, x ∈ l → f x = Some (g x)) → mapM f l = Some (g <$> l).
Proof.
  induction l as [|x l IH]; intros Hf; [done|].
  simpl. rewrite (Hf x) by (by left). simpl.
  rewrite IH; [done|]. intros y Hy. apply Hf. by right.
Qed.

Lemma concat_fmap_bind {A B} (f : A → list B) (l : list A) :
  concat (f <$> l) = l ≫= f.
Proof.
  induction l as [|x l IH]; [done|]. by rewrite fmap_cons, bind_cons, <-IH.
Qed.

Lemma bind_pair_lookup {A B} (f g : A → B) (l : list A) (i : nat) :
  (l ≫= λ x, [f x; g x]) !! (2 * i)%nat = f <$> l !! i ∧
  (l ≫= λ x, [f x; g x]) !! (2 * i + 1)%nat = g <$> l !! i.
Proof.
  revert i. induction l as [|x l IH]; intros i; [done|].
  rewrite bind_cons. destruct i as [|i]; [done|].
  replace (2 * S i)%nat with (S (S (2 * i))) by lia.
  replace (S (S (2 * i)) + 1)%nat with (S (S (2 * i + 1))) by lia.
  simpl. apply IH.
Qed.

Lemma bind_pair_length {A B} (f g : A → B) (l : list A) :
  length (l ≫= λ x, [f x; g x]) = (2 * length l)%nat.
Proof. rewrite (length_bind_const _ 2%nat); [lia|done]. Qed.

Lemma wall_openb_arc (adj : Connections) (Width Height : Z) (d : Dir)
    (p : Pos) :
  in_bounds Width Height p →
  wall_openb adj Width Height d p = true ↔
  arc adj Width Height d p (neighbor d p).
Proof.
  intros Hp. unfold wall_openb, arc, wall_open.
  rewrite andb_true_iff, bool_decide_eq_true. split.
  - intros [Hq Ha]. destruct (at2 adj p) as [a|]; [|done]. eauto 10.
  - intros (_ & Hq & _ & a & -> & Ha). done.
Qed.

Section DrawFacts.
Variable adj : Connections.
Variable path : Path.
Variable mask : Mask.
Variables Width Height : Z.
Variables sx sy fx fy : Z.
Hypothesis adj_rect : rect Width Height adj.

Local Abbreviation cell := (draw_cell path mask sx sy fx fy).
Local Abbreviation east := (east_glyph adj Width Height).
Local Abbreviation south := (south_glyph adj Width Height).
Local Abbreviation cline := (cell_line adj path mask Width Height sx sy fx fy).
Local Abbreviation wline := (wall_line adj Width Height).
Local Abbreviation pic := (picture adj path mask Width Height sx sy fx fy).

Lemma draw_east_glyph y x :
  in_bounds Width Height (y, x) →
  draw_east adj Width y x = Some (east y x).
Proof using adj_rect.
  intros Hp. unfold draw_east, east_glyph, wall_openb.
  destruct (in_bounds_at2 _ _ _ _ adj_rect Hp) as [a Ha]. rewrite Ha.
  destruct Hp as [Hy Hx]. simpl in *.
  case_bool_decide as Hw.
  - rewrite bool_decide_eq_false_2; [done|].
    intros [_ ?]. simpl in *. lia.
  - rewrite bool_decide_eq_true_2; [done|].
    split; simpl; lia.
Qed.

Lemma draw_south_glyph y x :
  in_bounds Width Height (y, x) →
  draw_south adj Height y x = Some [south y x; Block].
Proof using adj_rect.
  intros Hp. unfold draw_south, south_glyph, wall_openb.
  destruct (in_bounds_at2 _ _ _ _ adj_rect Hp) as [a Ha]. rewrite Ha.
  destruct Hp as [Hy Hx]. simpl in *.
  case_bool_decide as Hh.
  - rewrite bool_decide_eq_false_2; [done|].
    intros [? _]. simpl in *. lia.
  - rewrite bool_decide_eq_true_2; [by destruct (to_south a)|].
    split; simpl; lia.
Qed.

Lemma draw_row_lines y :
  0 ≤ y < Height →
  draw_row adj path mask Width Height sx sy fx fy y =
    Some (unlines [cline y; wline y]).
Proof using adj_rect.
  intros Hy. unfold draw_row.
  rewrite (mapM_total (draw_south adj Height y) (λ x, [south y x; Block])).
  2:{ intros x Hx%elem_of_seqZ. apply draw_south_glyph. split; simpl; lia. }
  rewrite (mapM_total _ (λ x, [cell y x; east y x])).
  2:{ intros x Hx%elem_of_seqZ. cbv beta. rewrite draw_east_glyph; [done|].
      split; simpl; lia. }
  simpl. rewrite !concat_fmap_bind. unfold unlines. simpl.
  unfold cell_line, wall_line.
  by rewrite app_nil_r, <-!(assoc_L (++)).
Qed.

Lemma Draw_picture :
  Draw adj path mask Width Height sx sy fx fy = Some (unlines pic).
Proof using adj_rect.
  unfold Draw.
  rewrite (mapM_total _ (λ y, unlines [cline y; wline y])).
  2:{ intros y Hy%elem_of_seqZ. cbv beta. apply draw_row_lines. lia. }
  cbn [mbind option_bind]. f_equal. unfold picture.
  unfold unlines at 2. rewrite bind_cons, <-!(assoc_L (++)).
  do 2 f_equal. rewrite concat_fmap_bind.
  generalize (seqZ 0 Height). intros l.
  induction l as [|y l IH]; [done|].
  rewrite !bind_cons, IH. unfold unlines. by rewrite bind_app.
Qed.

Lemma cell_not_newline y x : cell y x ≠ Newline.
Proof. unfold draw_cell. by repeat case_bool_decide. Qed.

Lemma east_not_newline y x : east y x ≠ Newline.
Proof. unfold east_glyph. by destruct (wall_openb _ _ _ _ _). Qed.

Lemma south_not_newline y x : south y x ≠ Newline.
Proof. unfold south_glyph. by destruct (wall_openb _ _ _ _ _). Qed.

Lemma pic_no_newline : Forall (λ l, Newline ∉ l) pic.
Proof.
  unfold picture. constructor.
  - by intros [? _]%elem_of_replicate.
  - apply Forall_forall. intros l (y & Hl & _)%list_elem_of_bind.
    apply elem_of_cons in Hl as [->|Hl];
      [|apply elem_of_cons in Hl as [->|Hl]; [|by apply elem_of_nil in Hl]].
    + unfold cell_line. intros [?|(x & Hg & _)%list_elem_of_bind]%elem_of_cons;
        [done|].
      apply elem_of_cons in Hg as [Hg|Hg]; [by eapply cell_not_newline|].
      apply elem_of_cons in Hg as [Hg|Hg]; [by eapply east_not_newline|].
      by apply elem_of_nil in Hg.
    + unfold wall_line. intros [?|(x & Hg & _)%list_elem_of_bind]%elem_of_cons;
        [done|].
      apply elem_of_cons in Hg as [Hg|Hg]; [by eapply south_not_newline|].
      apply elem_of_cons in Hg as [Hg|Hg]; [done|].
      by apply elem_of_nil in Hg.
Qed.

(** What [Draw] prints, seen as a picture. *)
Lemma printed_at_Draw r c :
  printed_at (Draw adj path mask Width Height sx sy fx fy) r c =
    glyph_at pic r c.
Proof using adj_rect.
  unfold printed_at. rewrite Draw_picture. cbn [mbind option_bind].
  by rewrite (lines_unlines _ pic_no_newline).
Qed.

Lemma Height_nonneg : 0 ≤ Height.
Proof using adj_rect. destruct adj_rect as [<- _]. lia. Qed.

Lemma Width_nonneg : 0 < Height → 0 ≤ Width.
Proof using adj_rect.
  destruct adj_rect as [Hh Hw]. intros Hpos.
  destruct adj as [|row ?]; [simpl in *; lia|].
  apply Forall_cons in Hw as [<- _]. lia.
Qed.

Lemma pic_lines (y : Z) :
  0 ≤ y < Height →
  pic !! Z.to_nat (2 * y + 1) = Some (cline y) ∧
  pic !! Z.to_nat (2 * y + 2) = Some (wline y).
Proof.
  intros Hy. unfold picture.
  replace (Z.to_nat (2 * y + 1)) with (S (2 * Z.to_nat y)) by lia.
  replace (Z.to_nat (2 * y + 2)) with (S (2 * Z.to_nat y + 1)) by lia.
  cbn [lookup list_lookup].
  destruct (bind_pair_lookup
              (cell_line adj path mask Width Height sx sy fx fy)
              (wall_line adj Width Height) (seqZ 0 Height) (Z.to_nat y))
    as [H1 H2].
  split; [refine (eq_trans H1 _)|refine (eq_trans H2 _)];
    rewrite lookup_seqZ_lt by lia;
    by replace (0 + Z.of_nat (Z.to_nat y)) with y by lia.
Qed.

Lemma cline_glyphs (y x : Z) :
  0 ≤ x < Width →
  cline y !! Z.to_nat (2 * x + 1) = Some (cell y x) ∧
  cline y !! Z.to_nat (2 * x + 2) = Some (east y x).
Proof.
  intros Hx. unfold cell_line.
  replace (Z.to_nat (2 * x + 1)) with (S (2 * Z.to_nat x)) by lia.
  replace (Z.to_nat (2 * x + 2)) with (S (2 * Z.to_nat x + 1)) by lia.
  cbn [lookup list_lookup].
  destruct (bind_pair_lookup (draw_cell path mask sx sy fx fy y)
              (east_glyph adj Width Height y) (seqZ 0 Width) (Z.to_nat x))
    as [H1 H2].
  split; [refine (eq_trans H1 _)|refine (eq_trans H2 _)];
    rewrite lookup_seqZ_lt by lia;
    by replace (0 + Z.of_nat (Z.to_nat x)) with x by lia.
Qed.

Lemma wline_glyphs (y x : Z) :
  0 ≤ x < Width →
  wline y !! Z.to_nat (2 * x + 1) = Some (south y x) ∧
  wline y !! Z.to_nat (2 * x + 2) = Some Block.
Proof.
  intros Hx. unfold wall_line.
  replace (Z.to_nat (2 * x + 1)) with (S (2 * Z.to_nat x)) by lia.
  replace (Z.to_nat (2 * x + 2)) with (S (2 * Z.to_nat x + 1)) by lia.
  cbn [lookup list_lookup].
  destruct (bind_pair_lookup (south_glyph adj Width Height y)
              (λ _, Block) (seqZ 0 Width) (Z.to_nat x))
    as [H1 H2].
  split; [refine (eq_trans H1 _)|refine (eq_trans H2 _)];
    rewrite lookup_seqZ_lt by lia;
    by replace (0 + Z.of_nat (Z.to_nat x)) with x by lia.
Qed.

Lemma glyph_at_row (pc : list (list glyph)) (r c : Z) (row : list glyph) :
  0 ≤ r → 0 ≤ c → pc !! Z.to_nat r = Some row →
  glyph_at pc r c = row !! Z.to_nat c.
Proof.
  intros Hr Hc Hrow. unfold glyph_at, at2. simpl.
  rewrite bool_decide_eq_true_2 by done. by rewrite Hrow.
Qed.

Lemma glyph_cell (y x : Z) :
  in_bounds Width Height (y, x) →
  glyph_at pic (2 * y + 1) (2 * x + 1) = Some (cell y x).
Proof.
  intros [Hy Hx]. simpl in *.
  rewrite (glyph_at_row _ _ _ (cline y)); [|lia..|by apply pic_lines].
  by apply cline_glyphs.
Qed.

Lemma glyph_east (y x : Z) :
  in_bounds Width Height (y, x) →
  glyph_at pic (2 * y + 1) (2 * x + 2) = Some (east y x).
Proof.
  intros [Hy Hx]. simpl in *.
  rewrite (glyph_at_row _ _ _ (cline y)); [|lia..|by apply pic_lines].
  by apply cline_glyphs.
Qed.

Lemma glyph_south (y x : Z) :
  in_bounds Width Height (y, x) →
  glyph_at pic (2 * y + 2) (2 * x + 1) = Some (south y x).
Proof.
  intros [Hy Hx]. simpl in *.
  rewrite (glyph_at_row _ _ _ (wline y)); [|lia..|by apply pic_lines].
  by apply wline_glyphs.
Qed.

Lemma glyph_pillar (y x : Z) :
  in_bounds Width Height (y, x) →
  glyph_at pic (2 * y + 2) (2 * x + 2) = Some Block.
Proof.
  intros [Hy Hx]. simpl in *.
  rewrite (glyph_at_row _ _ _ (wline y)); [|lia..|by apply pic_lines].
  by apply wline_glyphs.
Qed.

Lemma glyph_top (c : Z) :
  0 ≤ c ≤ 2 * Width → glyph_at pic 0 c = Some Block.
Proof.
  intros Hc.
  rewrite (glyph_at_row _ _ _ (replicate (Z.to_nat (2 * Width + 1)) Block));
    [|lia..|done].
  apply lookup_replicate. split; [done|lia].
Qed.

Lemma glyph_left (r : Z) :
  0 ≤ Width → 0 ≤ r ≤ 2 * Height → glyph_at pic r 0 = Some Block.
Proof.
  intros Hw Hr. destruct (decide (r = 0)) as [->|Hr0].
  { apply glyph_top. lia. }
  destruct (Z.Even_or_Odd r) as [[k ->]|[k ->]].
  - replace (2 * k) with (2 * (k - 1) + 2) by lia.
    rewrite (glyph_at_row _ _ _ (wline (k - 1))); [done|lia..|].
    apply pic_lines. lia.
  - rewrite (glyph_at_row _ _ _ (cline k)); [done|lia..|].
    apply pic_lines. lia.
Qed.

Lemma glyph_step (d : Dir) (p : Pos) :
  in_bounds Width Height p →
  glyph_at pic (p.1 + (neighbor d p).1 + 1) (p.2 + (neighbor d p).2 + 1) =
    Some (if wall_openb adj Width Height d p then Space else Block).
Proof.
  destruct p as [y x]. intros Hp. destruct d; simpl.
  - replace (y + y + 1) with (2 * y + 1) by lia.
    replace (x + (x + 1) + 1) with (2 * x + 2) by lia. by apply glyph_east.
  - replace (y + (y + 1) + 1) with (2 * y + 2) by lia.
    replace (x + x + 1) with (2 * x + 1) by lia. by apply glyph_south.
Qed.

Lemma edge_wall_openb (d : Dir) (p : Pos) :
  in_bounds Width Height p →
  edge adj Width Height p (neighbor d p) ↔
  wall_openb adj Width Height d p = true.
Proof.
  intros Hp. rewrite (wall_openb_arc _ _ _ _ _ Hp). split; [|by exists d; left].
  intros [d' [Harc|Harc]].
  - assert (d' = d) as ->; [|done].
    destruct Harc as (_ & _ & Hq & _).
    destruct p, d, d'; simplify_eq/=; try done; lia.
  - destruct Harc as (_ & _ & Hq & _).
    destruct p, d, d'; simplify_eq/=; lia.
Qed.

(** The glyph between two neighbouring cells. *)
Lemma glyph_between (p q : Pos) :
  in_bounds Width Height p → in_bounds Width Height q → cardinal_step p q →
  ∃ g, glyph_at pic (p.1 + q.1 + 1) (p.2 + q.2 + 1) = Some g ∧
       (edge adj Width Height p q → g = Space) ∧
       (¬ edge adj Width Height p q → g = Block).
Proof.
  intros Hp Hq Hstep.
  assert (∃ d, q = neighbor d p ∨ p = neighbor d q) as [d [->| ->]].
  { destruct p as [py px], q as [qy qx]. unfold cardinal_step in Hstep.
    simpl in Hstep.
    destruct (decide (qy = py + 1)); [exists South; left; simpl; f_equal; lia|].
    destruct (decide (qx = px + 1)); [exists East; left; simpl; f_equal; lia|].
    destruct (decide (py = qy + 1));
      [exists South; right; simpl; f_equal; lia|].
    exists East; right; simpl; f_equal; lia. }
  - exists (if wall_openb adj Width Height d p then Space else Block).
    split; [by apply glyph_step|].
    pose proof (edge_wall_openb d p Hp) as He.
    destruct (wall_openb _ _ _ _ _); split; intros Hedge; try done.
    + destruct Hedge. by apply He.
    + by apply He in Hedge.
  - exists (if wall_openb adj Width Height d q then Space else Block).
    split.
    { rewrite <-(glyph_step d q Hq). f_equal; lia. }
    pose proof (edge_wall_openb d q Hq) as He.
    destruct (wall_openb _ _ _ _ _); split; intros Hedge; try done.
    + destruct Hedge. by apply edge_sym, He.
    + by apply edge_sym, He in Hedge.
Qed.

Lemma length_cline (y : Z) : length (cline y) = S (2 * Z.to_nat Width).
Proof.
  unfold cell_line. cbn [length]. by rewrite bind_pair_length, length_seqZ.
Qed.

Lemma length_wline (y : Z) : length (wline y) = S (2 * Z.to_nat Width).
Proof.
  unfold wall_line. cbn [length].
  by rewrite (bind_pair_length _ (λ _, Block)), length_seqZ.
Qed.

Lemma length_pic : length pic = S (2 * Z.to_nat Height).
Proof.
  unfold picture. cbn [length].
  by rewrite (bind_pair_length
                (cell_line adj path mask Width Height sx sy fx fy)
                (wall_line adj Width Height)), length_seqZ.
Qed.

Lemma pic_line_lengths :
  0 ≤ Width → Forall (λ l, length l = Z.to_nat (2 * Width + 1)) pic.
Proof.
  intros Hw. unfold picture. constructor.
  - by rewrite length_replicate.
  - apply Forall_forall. intros l (y & Hl & _)%list_elem_of_bind.
    apply elem_of_cons in Hl as [->|Hl];
      [|apply elem_of_cons in Hl as [->|Hl]; [|by apply elem_of_nil in Hl]].
    + rewrite length_cline. lia.
    + rewrite length_wline. lia.
Qed.

(** Every glyph of the picture: a block, or what one cell or one wall
    shows. *)
Lemma pic_inv (r c : Z) (g : glyph) :
  glyph_at pic r c = Some g →
  g = Block ∨
  ∃ y x, in_bounds Width Height (y, x) ∧
         ((r = 2 * y + 1 ∧ c = 2 * x + 1 ∧ g = cell y x) ∨
          (r = 2 * y + 1 ∧ c = 2 * x + 2 ∧ g = east y x) ∨
          (r = 2 * y + 2 ∧ c = 2 * x + 1 ∧ g = south y x)).
Proof.
  intros (Hr & Hc & row & Hrow & Hg)%at2_Some_inv. simpl in *.
  pose proof (lookup_lt_Some _ _ _ Hrow) as Hlr. rewrite length_pic in Hlr.
  pose proof (lookup_lt_Some _ _ _ Hg) as Hlc.
  destruct (decide (r = 0)) as [->|Hr0].
  { left. simpl in Hrow. simplify_eq.
    by apply lookup_replicate in Hg as [-> _]. }
  assert (∃ y, 0 ≤ y < Height ∧ (r = 2 * y + 1 ∨ r = 2 * y + 2))
    as (y & Hy & Hry).
  { destruct (Z.Even_or_Odd r) as [[k ->]|[k ->]].
    - exists (k - 1). lia.
    - exists k. lia. }
  destruct (pic_lines y Hy) as [Hcl Hwl].
  assert (length row = S (2 * Z.to_nat Width)) as Hlen.
  { destruct Hry as [-> | ->]; simplify_eq.
    - apply length_cline.
    - apply length_wline. }
  destruct (decide (c = 0)) as [->|Hc0].
  { left. destruct Hry as [-> | ->]; simplify_eq; simpl in Hg; congruence. }
  assert (∃ x, 0 ≤ x < Width ∧ (c = 2 * x + 1 ∨ c = 2 * x + 2))
    as (x & Hx & Hcx).
  { destruct (Z.Even_or_Odd c) as [[k ->]|[k ->]].
    - exists (k - 1). lia.
    - exists k. lia. }
  destruct (cline_glyphs y x Hx) as [Hc1 Hc2].
  destruct (wline_glyphs y x Hx) as [Hw1 Hw2].
  destruct Hry as [-> | ->], Hcx as [-> | ->]; simplify_eq;
    [right; exists y, x; split; [done|]; auto..|by left].
Qed.
End DrawFacts.

Lemma draw_cell_cases (path : Path) (mask : Mask) (sx sy fx fy y x : Z) :
  draw_cell path mask sx sy fx fy y x =
    if decide ((y, x) = (sy, sx)) then LetterS
    else if decide ((y, x) = (fy, fx)) then LetterE
    else if decide ((y, x) ∈ path) then Dot
    else if decide ((y, x) ∈ mask) then Block else Space.
Proof.
  assert (∀ a b c d : Z, a = c ∧ b = d ↔ (b, a) = (d, c)) as Hpair.
  { intros. split; [by intros [-> ->]|by intros [= -> ->]]. }
  unfold draw_cell.
  rewrite (bool_decide_ext _ _ (Hpair x y sx sy)),
    (bool_decide_ext _ _ (Hpair x y fx fy)), !bool_decide_decide.
  by repeat case_decide.
Qed.

Lemma wall_openb_outside (adj : Connections) (Width Height : Z) (d : Dir)
    (p : Pos) :
  ¬ in_bounds Width Height (neighbor d p) →
  wall_openb adj Width Height d p = false.
Proof.
  intros Hq. unfold wall_openb. by rewrite bool_decide_eq_false_2.
Qed.

(** X20. On a Height*Width matrix, with 2*Width+1 in the range of [int],
    Draw reads no element outside the matrix, and prints 2*Height+1 lines
    of 2*Width+1 glyphs each. *)
Theorem Draw_shape
    (adj : Connections) (path : Path) (mask : Mask)
    (Width Height sx sy fx fy : Z) :
  rect Width Height adj → 0 ≤ Width → 2 * Width + 1 ≤ INT_MAX →
  ∃ out, Draw adj path mask Width Height sx sy fx fy = Some out ∧
         Z.of_nat (length (lines out)) = 2 * Height + 1 ∧
         Forall (λ l, Z.of_nat (length l) = 2 * Width + 1) (lines out).
Proof.
  intros Hrect Hw _. eexists. split; [by apply Draw_picture|].
  rewrite (lines_unlines _ (pic_no_newline _ _ _ _ _ _ _ _ _)).
  rewrite length_pic. pose proof (Height_nonneg _ _ _ Hrect).
  split; [lia|].
  eapply Forall_impl; [by apply pic_line_lengths|].
  intros l Hl. simpl in Hl. lia.
Qed.

Lemma Draw_shape_witness :
  ∃ out, Draw maze_two_walls [(0, 0); (0, 1); (1, 1)] ∅ 2 2 0 0 1 1
           = Some out ∧
         Z.of_nat (length (lines out)) = 2 * 2 + 1 ∧
         Forall (λ l, Z.of_nat (length l) = 2 * 2 + 1) (lines out).
Proof.
  apply (Draw_shape maze_two_walls [(0, 0); (0, 1); (1, 1)] ∅ 2 2 0 0 1 1).
  - exact maze_two_walls_rect.
  - lia.
  - by vm_compute.
Defined.

(** X21. Between two neighbouring cells p and q of the maze, in line
    p.1+q.1+1 and column p.2+q.2+1, Draw prints a space when the wall
    between them is down and a block when it stands. *)
Theorem Draw_shows_walls
    (adj : Connections) (path : Path) (mask : Mask)
    (Width Height sx sy fx fy : Z) (p q : Pos) :
  rect Width Height adj →
  in_bounds Width Height p → in_bounds Width Height q → cardinal_step p q →
  (edge adj Width Height p q →
   printed_at (Draw adj path mask Width Height sx sy fx fy)
     (p.1 + q.1 + 1) (p.2 + q.2 + 1) = Some Space) ∧
  (¬ edge adj Width Height p q →
   printed_at (Draw adj path mask Width Height sx sy fx fy)
     (p.1 + q.1 + 1) (p.2 + q.2 + 1) = Some Block).
Proof.
  intros Hrect Hp Hq Hstep. rewrite printed_at_Draw by done.
  destruct (glyph_between adj path mask Width Height sx sy fx fy p q
              Hp Hq Hstep) as (g & -> & Hopen & Hclosed).
  split; intros Hedge; f_equal; auto.
Qed.

Lemma Draw_shows_walls_witness :
  (edge maze_two_walls 2 2 (0, 0) (0, 1) →
   printed_at (Draw maze_two_walls [] ∅ 2 2 0 0 1 1) 1 2 = Some Space) ∧
  (¬ edge maze_two_walls 2 2 (0, 0) (0, 1) →
   printed_at (Draw maze_two_walls [] ∅ 2 2 0 0 1 1) 1 2 = Some Block).
Proof.
  apply (Draw_shows_walls maze_two_walls [] ∅ 2 2 0 0 1 1 (0, 0) (0, 1)).
  - exact maze_two_walls_rect.
  - by apply in_bounds_2_2.
  - by apply in_bounds_2_2.
  - by vm_compute.
Defined.

(** X22. With start and finish inside the maze, Draw prints the S once,
    at the start, and the E once, at the finish; when start and finish
    are the same cell it prints no E. *)
Theorem Draw_marks_start_and_finish
    (adj : Connections) (path : Path) (mask : Mask)
    (Width Height sx sy fx fy : Z) (r c : Z) :
  rect Width Height adj →
  in_bounds Width Height (sy, sx) → in_bounds Width Height (fy, fx) →
  (printed_at (Draw adj path mask Width Height sx sy fx fy) r c
     = Some LetterS ↔ r = 2 * sy + 1 ∧ c = 2 * sx + 1) ∧
  (printed_at (Draw adj path mask Width Height sx sy fx fy) r c
     = Some LetterE ↔
   (sy, sx) ≠ (fy, fx) ∧ r = 2 * fy + 1 ∧ c = 2 * fx + 1).
Proof.
  intros Hrect Hs Hf. rewrite printed_at_Draw by done. split; split.
  - intros [?|(y & x & Hp & [(-> & -> & Hg)|[(_ & _ & Hg)|(_ & _ & Hg)]])]%pic_inv;
      [done|..].
    + rewrite draw_cell_cases in Hg. repeat case_decide; simplify_eq. lia.
    + unfold east_glyph in Hg. by destruct (wall_openb _ _ _ _ _).
    + unfold south_glyph in Hg. by destruct (wall_openb _ _ _ _ _).
  - intros [-> ->]. rewrite glyph_cell by done. rewrite draw_cell_cases.
    by rewrite decide_True.
  - intros [?|(y & x & Hp & [(-> & -> & Hg)|[(_ & _ & Hg)|(_ & _ & Hg)]])]%pic_inv;
      [done|..].
    + rewrite draw_cell_cases in Hg. repeat case_decide; simplify_eq.
      split; [congruence|lia].
    + unfold east_glyph in Hg. by destruct (wall_openb _ _ _ _ _).
    + unfold south_glyph in Hg. by destruct (wall_openb _ _ _ _ _).
  - intros (Hne & -> & ->). rewrite glyph_cell by done.
    rewrite draw_cell_cases. rewrite decide_False, decide_True; congruence.
Qed.

Lemma Draw_marks_start_and_finish_witness :
  (printed_at (Draw maze_two_walls [] ∅ 2 2 0 0 1 1) 1 1
     = Some LetterS ↔ 1 = 2 * 0 + 1 ∧ 1 = 2 * 0 + 1) ∧
  (printed_at (Draw maze_two_walls [] ∅ 2 2 0 0 1 1) 1 1
     = Some LetterE ↔
   (0, 0) ≠ (1, 1) ∧ 1 = 2 * 1 + 1 ∧ 1 = 2 * 1 + 1).
Proof.
  apply (Draw_marks_start_and_finish maze_two_walls [] ∅ 2 2 0 0 1 1 1 1).
  - exact maze_two_walls_rect.
  - by apply in_bounds_2_2.
  - by apply in_bounds_2_2.
Defined.

(** X23. Draw prints a dot exactly at the cells of the maze that are on
    the path and are neither the start nor the finish, whether or not
    they are masked. *)
Theorem Draw_dots
    (adj : Connections) (path : Path) (mask : Mask)
    (Width Height sx sy fx fy : Z) (r c : Z) :
  rect Width Height adj →
  printed_at (Draw adj path mask Width Height sx sy fx fy) r c = Some Dot ↔
  ∃ y x, in_bounds Width Height (y, x) ∧ (y, x) ∈ path ∧
         (y, x) ≠ (sy, sx) ∧ (y, x) ≠ (fy, fx) ∧
         r = 2 * y + 1 ∧ c = 2 * x + 1.
Proof.
  intros Hrect. rewrite printed_at_Draw by done. split.
  - intros [?|(y & x & Hp & [(-> & -> & Hg)|[(_ & _ & Hg)|(_ & _ & Hg)]])]%pic_inv;
      [done|..].
    + rewrite draw_cell_cases in Hg. repeat case_decide; simplify_eq.
      by exists y, x.
    + unfold east_glyph in Hg. by destruct (wall_openb _ _ _ _ _).
    + unfold south_glyph in Hg. by destruct (wall_openb _ _ _ _ _).
  - intros (y & x & Hp & Hin & Hs & Hf & -> & ->).
    rewrite glyph_cell by done. rewrite draw_cell_cases.
    by repeat case_decide.
Qed.

Lemma Draw_dots_witness :
  printed_at (Draw maze_two_walls [(0, 0); (0, 1); (1, 1)] {[ (0, 1) ]}
                2 2 0 0 1 1) 1 3 = Some Dot ↔
  ∃ y x, in_bounds 2 2 (y, x) ∧ (y, x) ∈ [(0, 0); (0, 1); (1, 1)] ∧
         (y, x) ≠ (0, 0) ∧ (y, x) ≠ (1, 1) ∧
         1 = 2 * y + 1 ∧ 3 = 2 * x + 1.
Proof.
  apply (Draw_dots maze_two_walls [(0, 0); (0, 1); (1, 1)] {[ (0, 1) ]}
           2 2 0 0 1 1 1 3).
  exact maze_two_walls_rect.
Defined.

(** X24. Whatever the flags of the matrix are, and with 2*Width+1 in the
    range of [int], Draw prints a block all along the border of the
    picture and on every crossing of an even line with an even column. *)
Theorem Draw_frame
    (adj : Connections) (path : Path) (mask : Mask)
    (Width Height sx sy fx fy : Z) (r c : Z) :
  rect Width Height adj → 0 ≤ Width → 2 * Width + 1 ≤ INT_MAX →
  0 ≤ r ≤ 2 * Height → 0 ≤ c ≤ 2 * Width →
  r = 0 ∨ c = 0 ∨ r = 2 * Height ∨ c = 2 * Width ∨
    (Z.even r = true ∧ Z.even c = true) →
  printed_at (Draw adj path mask Width Height sx sy fx fy) r c = Some Block.
Proof.
  intros Hrect Hw _ Hr Hc Hwhere. rewrite printed_at_Draw by done.
  destruct (decide (r = 0)) as [->|Hr0]; [by apply glyph_top|].
  destruct (decide (c = 0)) as [->|Hc0]; [by apply glyph_left|].
  assert (∃ y, 0 ≤ y < Height ∧ (r = 2 * y + 1 ∨ r = 2 * y + 2))
    as (y & Hy & Hry).
  { destruct (Z.Even_or_Odd r) as [[k ->]|[k ->]].
    - exists (k - 1). lia.
    - exists k. lia. }
  assert (∃ x, 0 ≤ x < Width ∧ (c = 2 * x + 1 ∨ c = 2 * x + 2))
    as (x & Hx & Hcx).
  { destruct (Z.Even_or_Odd c) as [[k ->]|[k ->]].
    - exists (k - 1). lia.
    - exists k. lia. }
  assert (in_bounds Width Height (y, x)) as Hp by done.
  destruct Hry as [-> | ->], Hcx as [-> | ->].
  - exfalso. destruct Hwhere as [?|[?|[?|[?|[He _]]]]]; try lia.
    apply Z.even_spec in He as [k Hk]. lia.
  - rewrite glyph_east by done. unfold east_glyph.
    destruct Hwhere as [?|[?|[?|[?|[He _]]]]]; try lia.
    + rewrite wall_openb_outside; [done|]. intros [_ ?]. simpl in *. lia.
    + apply Z.even_spec in He as [k Hk]. lia.
  - rewrite glyph_south by done. unfold south_glyph.
    destruct Hwhere as [?|[?|[?|[?|[_ He]]]]]; try lia.
    + rewrite wall_openb_outside; [done|]. intros [? _]. simpl in *. lia.
    + apply Z.even_spec in He as [k Hk]. lia.
  - by apply glyph_pillar.
Qed.

Lemma Draw_frame_witness :
  printed_at (Draw maze_no_walls [] ∅ 2 2 0 0 1 1) 3 4 = Some Block.
Proof.
  apply (Draw_frame maze_no_walls [] ∅ 2 2 0 0 1 1 3 4).
  - exact maze_no_walls_rect.
  - lia.
  - by vm_compute.
  - lia.
  - lia.
  - right; right; right; left. lia.
Defined.

(** X25. Draw, given the path that Solve has returned, shows a trail from
    S to E: every cell of the path shows S, E or a dot, and between every
    two consecutive cells of the path there is a space. *)
Theorem Draw_trail
    (adj : Connections) (mask : Mask) (Width Height sx sy fx fy : Z)
    (fuel : nat) (path_out path : Path) :
  rect Width Height adj →
  in_bounds Width Height (sy, sx) →
  Solve adj Width Height sx sy fx fy fuel path_out = Returned (true, path) →
  (∀ p, p ∈ path →
     printed_at (Draw adj path mask Width Height sx sy fx fy)
       (2 * p.1 + 1) (2 * p.2 + 1) =
     Some (if decide (p = (sy, sx)) then LetterS
           else if decide (p = (fy, fx)) then LetterE else Dot)) ∧
  (∀ i p q, path !! i = Some p → path !! S i = Some q →
     printed_at (Draw adj path mask Width Height sx sy fx fy)
       (p.1 + q.1 + 1) (p.2 + q.2 + 1) = Some Space).
Proof.
  intros Hrect Hstart Hret.
  destruct (Solve_true_path adj Width Height Hrect sx sy fx fy Hstart
              fuel path_out path Hret) as [[Hh Hl] [Hnd Hc]].
  assert (Forall (in_bounds Width Height) path) as Hin
    by (by eapply chain_all_in_bounds).
  rewrite Forall_forall in Hin. split.
  - intros [y x] Hp. rewrite printed_at_Draw by done. simpl.
    rewrite glyph_cell by (by apply Hin). rewrite draw_cell_cases.
    by repeat case_decide.
  - intros i p q Hp Hq. rewrite printed_at_Draw by done.
    pose proof (chain_lookup _ _ _ _ _ Hc Hp Hq) as Hedge.
    destruct (glyph_between adj path mask Width Height sx sy fx fy p q)
      as (g & -> & Hopen & _).
    + apply Hin. by eapply list_elem_of_lookup_2.
    + apply Hin. by eapply list_elem_of_lookup_2.
    + by eapply edge_cardinal_step.
    + f_equal. by apply Hopen.
Qed.

Lemma Draw_trail_witness :
  (∀ p, p ∈ [(0, 0); (0, 1); (1, 1)] →
     printed_at (Draw maze_two_walls [(0, 0); (0, 1); (1, 1)] ∅
                   2 2 0 0 1 1) (2 * p.1 + 1) (2 * p.2 + 1) =
     Some (if decide (p = (0, 0)) then LetterS
           else if decide (p = (1, 1)) then LetterE else Dot)) ∧
  (∀ i p q, [(0, 0); (0, 1); (1, 1)] !! i = Some p →
            [(0, 0); (0, 1); (1, 1)] !! S i = Some q →
     printed_at (Draw maze_two_walls [(0, 0); (0, 1); (1, 1)] ∅
                   2 2 0 0 1 1) (p.1 + q.1 + 1) (p.2 + q.2 + 1) =
     Some Space).
Proof.
  apply (Draw_trail maze_two_walls ∅ 2 2 0 0 1 1 10 []).
  - exact maze_two_walls_rect.
  - by apply in_bounds_2_2.
  - by vm_compute.
Defined.

(** ** main *)

(** X26. The mask that main builds from an image of [rows] rows and
    [cols] columns holds exactly the positions of the black bits when the
    image has the size of the maze, and nothing otherwise; no bit outside
    the image is read. *)
Theorem load_mask_reads_image
    (PBM_BLACK cols rows : Z) (b : list (list Z)) (Width Height : Z) :
  rect cols rows b →
  ∃ mask, load_mask PBM_BLACK (Some (cols, rows, b)) Width Height
            = Some mask ∧
          ∀ p, p ∈ mask ↔
               rows = Height ∧ cols = Width ∧ at2 b p = Some PBM_BLACK.
Proof.
  intros Hrect. unfold load_mask. case_bool_decide as Hsize.
  { exists ∅. split; [done|]. intros p. split.
    - by intros ?%not_elem_of_empty.
    - intros (-> & -> & _). by destruct Hsize. }
  assert (rows = Height ∧ cols = Width) as [-> ->].
  { destruct (decide (rows = Height)), (decide (cols = Width)); tauto. }
  unfold mask_of_bits.
  rewrite (mapM_total _ (λ p, (p, default 0 (at2 b p)))).
  2:{ intros p Hp%elem_of_cells. cbv beta.
      by destruct (in_bounds_at2 _ _ _ _ Hrect Hp) as [v ->]. }
  cbn [mbind option_bind]. eexists. split; [done|]. intros p.
  rewrite elem_of_list_to_set, list_elem_of_fmap. split.
  - intros ([q v] & -> & [Hv Hq]%list_elem_of_filter). simpl in *.
    apply list_elem_of_fmap in Hq as (q' & [= -> ->] & Hq'%elem_of_cells).
    destruct (in_bounds_at2 _ _ _ _ Hrect Hq') as [v Hv'].
    rewrite Hv' in Hv |- *. simpl in Hv. by subst.
  - intros (_ & _ & Hp). exists (p, PBM_BLACK). split; [done|].
    apply list_elem_of_filter. split; [done|].
    apply list_elem_of_fmap. exists p. rewrite Hp. split; [done|].
    apply elem_of_cells. by eapply at2_in_bounds.
Qed.

Lemma load_mask_reads_image_witness :
  ∃ mask, load_mask 1 (Some (2, 2, [[0; 1]; [0; 0]])) 2 2 = Some mask ∧
          ∀ p, p ∈ mask ↔
               2 = 2 ∧ 2 = 2 ∧ at2 [[0; 1]; [0; 0]] p = Some 1.
Proof.
  apply (load_mask_reads_image 1 2 2 [[0; 1]; [0; 0]] 2 2).
  split; [done|]. by repeat constructor.
Defined.




(** X28. When Generate returns, main with breadcrumbs prints a maze that
    shows a way from the top-left to the bottom-right cell: the cells of
    a path between them show S, E or a dot, with a space between each two
    consecutive cells. *)
Theorem main_prints_trail
    (rng : nat → Z) (Width Height : Z) (mask : Mask)
    (fuel_generate fuel_solve : nat) (conns : Connections) :
  Generate rng Width Height 0 0 (Width - 1) (Height - 1) mask fuel_generate
    = Returned conns →
  (5 ^ (Z.to_nat Height * Z.to_nat Width) ≤ fuel_solve)%nat →
  ∃ out path,
    main_body rng Width Height true mask fuel_generate fuel_solve
      = Returned out ∧
    joins path (0, 0) (Height - 1, Width - 1) ∧
    (∀ p, p ∈ path →
       printed_at (Some out) (2 * p.1 + 1) (2 * p.2 + 1) =
       Some (if decide (p = (0, 0)) then LetterS
             else if decide (p = (Height - 1, Width - 1)) then LetterE
             else Dot)) ∧
    (∀ i p q, path !! i = Some p → path !! S i = Some q →
       cardinal_step p q ∧
       printed_at (Some out) (p.1 + q.1 + 1) (p.2 + q.2 + 1) = Some Space).
Proof.
  intros Hgen Hfuel. unfold main_body. rewrite Hgen.
  apply Generate_returned_spec in Hgen as (Hrect & _ & Hconn & Hstart & _).
  destruct (Solve_decides conns Width Height Hrect 0 0 (Width - 1)
              (Height - 1) Hstart fuel_solve [] Hfuel)
    as (b & path & Hret & Hiff).
  rewrite (proj2 Hiff Hconn) in Hret. rewrite Hret.
  destruct (Solve_true_path conns Width Height Hrect 0 0 (Width - 1)
              (Height - 1) Hstart fuel_solve [] path Hret) as [Hj [Hnd Hc]].
  assert (Forall (in_bounds Width Height) path) as Hin
    by (eapply chain_all_in_bounds; [done|apply Hj|done]).
  rewrite Forall_forall in Hin.
  rewrite Draw_picture by done.
  eexists _, path. split; [done|]. split; [done|].
  unfold printed_at. cbn [mbind option_bind].
  rewrite (lines_unlines _ (pic_no_newline _ _ _ _ _ _ _ _ _)). split.
  - intros [y x] Hp. simpl.
    rewrite glyph_cell by (by apply Hin). rewrite draw_cell_cases.
    by repeat case_decide.
  - intros i p q Hp Hq.
    pose proof (chain_lookup _ _ _ _ _ Hc Hp Hq) as Hedge.
    pose proof (edge_cardinal_step _ _ _ _ _ Hedge) as Hstep.
    split; [done|].
    destruct (glyph_between conns path mask Width Height 0 0 (Width - 1)
                (Height - 1) p q) as (g & -> & Hopen & _); [..|done|].
    + apply Hin. by eapply list_elem_of_lookup_2.
    + apply Hin. by eapply list_elem_of_lookup_2.
    + f_equal. by apply Hopen.
Qed.

Lemma main_prints_trail_witness :
  ∃ out path,
    main_body (rng_of [0; 0; 0;  1; 1; 0]) 2 2 true ∅ 10 625
      = Returned out ∧
    joins path (0, 0) (2 - 1, 2 - 1) ∧
    (∀ p, p ∈ path →
       printed_at (Some out) (2 * p.1 + 1) (2 * p.2 + 1) =
       Some (if decide (p = (0, 0)) then LetterS
             else if decide (p = (2 - 1, 2 - 1)) then LetterE
             else Dot)) ∧
    (∀ i p q, path !! i = Some p → path !! S i = Some q →
       cardinal_step p q ∧
       printed_at (Some out) (p.1 + q.1 + 1) (p.2 + q.2 + 1) = Some Space).
Proof.
  apply (main_prints_trail (rng_of [0; 0; 0;  1; 1; 0]) 2 2 ∅ 10 625
           maze_two_walls).
  - by vm_compute.
  - by vm_compute.
Defined.

(** X29. When Generate returns, main without breadcrumbs does not call
    Solve and prints the maze with the S in the top-left cell and no dot
    anywhere. *)
Theorem main_without_breadcrumbs
    (rng : nat → Z) (Width Height : Z) (mask : Mask)
    (fuel_generate fuel_solve : nat) (conns : Connections) :
  Generate rng Width Height 0 0 (Width - 1) (Height - 1) mask fuel_generate
    = Returned conns →
  ∃ out,
    main_body rng Width Height false mask fuel_generate fuel_solve
      = Returned out ∧
    Draw conns [] mask Width Height 0 0 (Width - 1) (Height - 1)
      = Some out ∧
    printed_at (Some out) 1 1 = Some LetterS ∧
    ∀ r c, printed_at (Some out) r c ≠ Some Dot.
Proof.
  intros Hgen. unfold main_body. rewrite Hgen.
  apply Generate_returned_spec in Hgen as (Hrect & _ & _ & Hstart & _).
  rewrite Draw_picture by done.
  eexists. split; [done|]. split; [done|].
  unfold printed_at. cbn [mbind option_bind].
  rewrite (lines_unlines _ (pic_no_newline _ _ _ _ _ _ _ _ _)). split.
  - change 1 with (2 * 0 + 1). rewrite glyph_cell by done.
    rewrite draw_cell_cases. by rewrite decide_True.
  - intros r c
      [?|(y & x & Hp & [(-> & -> & Hg)|[(_ & _ & Hg)|(_ & _ & Hg)]])]%pic_inv;
      [done|..].
    + rewrite draw_cell_cases in Hg. repeat case_decide; simplify_eq.
      match goal with H : _ ∈ [] |- _ => by apply elem_of_nil in H end.
    + unfold east_glyph in Hg. by destruct (wall_openb _ _ _ _ _).
    + unfold south_glyph in Hg. by destruct (wall_openb _ _ _ _ _).
Qed.

Lemma main_without_breadcrumbs_witness :
  ∃ out,
    main_body (rng_of [0; 0; 0;  1; 1; 0]) 2 2 false ∅ 10 0
      = Returned out ∧
    Draw maze_two_walls [] ∅ 2 2 0 0 (2 - 1) (2 - 1) = Some out ∧
    printed_at (Some out) 1 1 = Some LetterS ∧
    ∀ r c, printed_at (Some out) r c ≠ Some Dot.
Proof.
  apply (main_without_breadcrumbs (rng_of [0; 0; 0;  1; 1; 0]) 2 2 ∅ 10 0
           maze_two_walls).
  by vm_compute.
Defined.
